(** * libView: attribute projection, structural compatibility and selector
      resolution

    A shallow embedding of the computational core of [libView.py]: the
    library catalog ([loadLibFile]), the cell series sorter
    ([sortCellWithSize]), the selection pass ([cellListBeClicked]), the
    attribute projection ([getCellLeakagePowerInfo], [getPinTimingInfo],
    [getTimingInfo], [getPinInternalPowerInfo], [getInternalPowerInfo]), the
    structural check ([checkTabMultiEnable]), the terminal resolution of
    the leakage-power, timing and internal-power tabs, the area tab, the
    lines of the main frame and the selection line ([selectCell]).

    Python values are modelled as follows.
    - [str] is [string]; characters are code points below 256.
    - An [OrderedDict] (and a [dict], whose iteration order is insertion
      order) is an association list in insertion order, see [Dict].
    - A list is a [list]; indexing follows Python (negative indices count
      from the end, out of range raises [IndexError]).
    - Exceptions are the constructors of [PyErr]; fallible code returns
      [Res].
    - [float(s)] is the exact rational denoted by a decimal literal, see
      [pyfloat]; binary rounding is not modelled.
    - Widgets are not modelled: the text of a combo box is an input of the
      function that reads it, the rows and lists a function builds are its
      result. *)

From Stdlib Require Import String Ascii List ZArith NArith QArith Bool Lia.
From Stdlib Require Import DecimalString.
From Stdlib Require Import Permutation Sorted.
Import ListNotations.

Set Warnings "-register-all".

Local Open Scope list_scope.
Local Open Scope nat_scope.

Infix "+s+" := String.append (at level 60, right associativity).

(* ================================================================== *)
(** * Part I. The embedding                                             *)
(* ================================================================== *)

(** ** Characters and strings *)

Definition isDigit (c : ascii) : bool :=
  let n := nat_of_ascii c in (48 <=? n) && (n <=? 57).

(** [str.isspace] on code points below 256; it is what [str.split],
    [str.strip] and the regular expression class [\s] use. *)
Definition isSpace (c : ascii) : bool :=
  let n := nat_of_ascii c in
  ((9 <=? n) && (n <=? 13)) || ((28 <=? n) && (n <=? 32))
  || (n =? 133) || (n =? 160).

Definition isNewline (c : ascii) : bool := nat_of_ascii c =? 10.

Definition chQuote : ascii := ascii_of_nat 34.
Definition chComma : ascii := ascii_of_nat 44.
Definition chLParen : ascii := ascii_of_nat 40.
Definition chRParen : ascii := ascii_of_nat 41.
Definition chSlash : ascii := ascii_of_nat 47.

(** [re.sub(c, '', s)] for a pattern that is one literal character. *)
Fixpoint removeChar (c : ascii) (s : string) : string :=
  match s with
  | EmptyString => EmptyString
  | String a s' =>
      if Ascii.eqb a c then removeChar c s' else String a (removeChar c s')
  end.

(** [re.sub('\d', '', s)]. *)
Fixpoint removeDigits (s : string) : string :=
  match s with
  | EmptyString => EmptyString
  | String a s' =>
      if isDigit a then removeDigits s' else String a (removeDigits s')
  end.

(** The maximal prefix of digits and what follows it. *)
Fixpoint spanDigits (s : string) : string * string :=
  match s with
  | EmptyString => (EmptyString, EmptyString)
  | String a s' =>
      if isDigit a
      then let (d, r) := spanDigits s' in (String a d, r)
      else (EmptyString, s)
  end.

(** The maximal prefix without a newline and what follows it: what a
    greedy [.*] consumes. *)
Fixpoint spanLine (s : string) : string * string :=
  match s with
  | EmptyString => (EmptyString, EmptyString)
  | String a s' =>
      if isNewline a then (EmptyString, s)
      else let (d, r) := spanLine s' in (String a d, r)
  end.

(** [int(s)] for a string of decimal digits. *)
Definition digitsToN (s : string) : N :=
  fold_left (fun acc c => (10 * acc + (N_of_ascii c - 48))%N)
            (list_ascii_of_string s) 0%N.

(** ** Dictionaries in insertion order *)

Definition Dict (V : Type) : Type := list (string * V).

Section DictOps.
Context {V : Type}.

Fixpoint dict_get (k : string) (d : Dict V) : option V :=
  match d with
  | [] => None
  | (k', v) :: d' => if String.eqb k' k then Some v else dict_get k d'
  end.

Definition dict_mem (k : string) (d : Dict V) : bool :=
  match dict_get k d with Some _ => true | None => false end.

Definition dict_keys (d : Dict V) : list string := map fst d.

(** [d.setdefault(k, v)]: a new key goes to the end. *)
Definition dict_setdefault (k : string) (v : V) (d : Dict V) : Dict V :=
  if dict_mem k d then d else d ++ [(k, v)].

(** In-place change of the value stored under [k] ([d[k].append(x)],
    [d[k].setdefault(...)]); the position of [k] is kept. *)
Fixpoint dict_update (k : string) (f : V -> V) (d : Dict V) : Dict V :=
  match d with
  | [] => []
  | (k', v) :: d' =>
      if String.eqb k' k then (k', f v) :: d'
      else (k', v) :: dict_update k f d'
  end.

(** [d[k] = v]: an existing key keeps its position. *)
Definition dict_set (k : string) (v : V) (d : Dict V) : Dict V :=
  if dict_mem k d then dict_update k (fun _ => v) d else d ++ [(k, v)].

(** [del d[k]] and [d.pop(k)]. *)
Fixpoint dict_del (k : string) (d : Dict V) : Dict V :=
  match d with
  | [] => []
  | (k', v) :: d' =>
      if String.eqb k' k then d' else (k', v) :: dict_del k d'
  end.
End DictOps.

(** The dictionary with keys [ks], in this order, holding [f k] under
    [k]. *)
Definition tabulate {V : Type} (f : string -> V) (ks : list string)
  : Dict V :=
  map (fun k => (k, f k)) ks.

(** ** [list.sort]: a stable sort *)

Section PySort.
Context {A : Type} (le : A -> A -> bool).

Fixpoint sortInsert (x : A) (l : list A) : list A :=
  match l with
  | [] => [x]
  | y :: l' => if le x y then x :: l else y :: sortInsert x l'
  end.

(** An element is put in front of the first later element that is not
    smaller, so elements that compare equal keep their order. *)
Fixpoint pySort (l : list A) : list A :=
  match l with
  | [] => []
  | x :: l' => sortInsert x (pySort l')
  end.
End PySort.

(** The order of a comparison function, as a proposition. *)
Definition leProp {A : Type} (le : A -> A -> bool) (x y : A) : Prop :=
  le x y = true.

(** ** More of [str]: [split], [strip], [re.split], [int], [float] *)

Definition strEmpty (s : string) : bool :=
  match s with EmptyString => true | _ => false end.

(** The token that starts at the head of [s] (empty when [s] starts with
    a blank) and the tokens after it. *)
Fixpoint splitAux (s : string) : string * list string :=
  match s with
  | EmptyString => (EmptyString, [])
  | String c s' =>
      let (t, ts) := splitAux s' in
      if isSpace c then (EmptyString, if strEmpty t then ts else t :: ts)
      else (String c t, ts)
  end.

(** [s.split()]: the maximal runs of non-blank characters. *)
Definition pySplit (s : string) : list string :=
  let (t, ts) := splitAux s in if strEmpty t then ts else t :: ts.

Fixpoint lstrip (s : string) : string :=
  match s with
  | EmptyString => EmptyString
  | String c s' => if isSpace c then lstrip s' else s
  end.

(** [s.rstrip()]: a blank is kept when something is kept after it. *)
Fixpoint rstrip (s : string) : string :=
  match s with
  | EmptyString => EmptyString
  | String c s' =>
      let r := rstrip s' in
      if isSpace c && strEmpty r then EmptyString else String c r
  end.

(** [s.strip()]. *)
Definition pyStrip (s : string) : string := rstrip (lstrip s).

(** The length of a separator [\s*,] at the head of [s], if there is one. *)
Fixpoint sepLen (s : string) : option nat :=
  match s with
  | EmptyString => None
  | String c s' =>
      if Ascii.eqb c chComma then Some 1
      else if isSpace c then option_map S (sepLen s') else None
  end.

(** The piece that starts at the head of [s] and the pieces after it;
    the first [skip] characters belong to a separator already found. *)
Fixpoint splitRowsAux (skip : nat) (s : string) : string * list string :=
  match s with
  | EmptyString => (EmptyString, [])
  | String c s' =>
      match skip with
      | S k => splitRowsAux k s'
      | O =>
          match (if Ascii.eqb c chQuote then sepLen s' else None) with
          | Some n => let (p, ps) := splitRowsAux n s' in (EmptyString, p :: ps)
          | None => let (p, ps) := splitRowsAux 0 s' in (String c p, ps)
          end
      end
  end.

(** [re.split] at the row separator of a [values] string: the text
    between the separators, a separator being a double quote, blanks and
    a comma. *)
Definition reSplitRows (s : string) : list string :=
  let (p, ps) := splitRowsAux 0 s in p :: ps.

(** [os.path.basename]: what follows the last slash. *)
Fixpoint basenameAux (s : string) : string * bool :=
  match s with
  | EmptyString => (EmptyString, false)
  | String c s' =>
      let (b, cut) := basenameAux s' in
      if cut then (b, true)
      else if Ascii.eqb c chSlash then (b, true)
      else (String c b, false)
  end.

Definition basename (path : string) : string := fst (basenameAux path).

(** *** Exceptions *)

Inductive PyErr : Type :=
| KeyError (key : string)
| IndexError
| ValueError
| AttributeError.

Inductive Res (A : Type) : Type :=
| Ok (a : A)
| Err (e : PyErr).
Arguments Ok {A} a.
Arguments Err {A} e.

Definition bind {A B : Type} (r : Res A) (k : A -> Res B) : Res B :=
  match r with Ok a => k a | Err e => Err e end.

Notation "x <- r ;; k" := (bind r (fun x => k))
  (at level 61, r at next level, right associativity).
Notation "' p <- r ;; k" := (bind r (fun x => let 'p := x in k))
  (at level 61, p pattern, r at next level, right associativity).

(** A bound computation that returned: its first part returned. *)
Ltac bindOk H :=
  match type of H with
  | bind ?r _ = Ok _ =>
      let x := fresh "x" in
      let Hx := fresh "Hx" in
      destruct r as [x|?] eqn:Hx; [cbn [bind] in H|discriminate H]
  end.

(** [d[k]]. *)
Definition dict_at {V : Type} (k : string) (d : Dict V) : Res V :=
  match dict_get k d with Some v => Ok v | None => Err (KeyError k) end.

(** [l[i]] for an integer [i] of either sign. *)
Definition list_at {A : Type} (l : list A) (i : Z) : Res A :=
  let n := Z.of_nat (length l) in
  let j := if (i <? 0)%Z then (i + n)%Z else i in
  if (j <? 0)%Z then Err IndexError
  else match nth_error l (Z.to_nat j) with
       | Some a => Ok a
       | None => Err IndexError
       end.

(** Loops that may raise. *)
Fixpoint foldRes {A S : Type} (f : S -> A -> Res S) (l : list A) (s : S)
  : Res S :=
  match l with
  | [] => Ok s
  | a :: l' => s' <- f s a ;; foldRes f l' s'
  end.

Fixpoint mapRes {A B : Type} (f : A -> Res B) (l : list A) : Res (list B) :=
  match l with
  | [] => Ok []
  | a :: l' => b <- f a ;; bs <- mapRes f l' ;; Ok (b :: bs)
  end.

(** *** Numbers *)

(** Digits, single underscores allowed between two digits; the value and
    the number of digits read. *)
Fixpoint digitRun (afterDigit : bool) (acc : N) (cnt : nat) (s : string)
  : option (N * nat * string) :=
  match s with
  | EmptyString => if afterDigit then Some (acc, cnt, s) else None
  | String c s' =>
      if isDigit c
      then digitRun true (10 * acc + (N_of_ascii c - 48))%N (S cnt) s'
      else if Ascii.eqb c "_" then
        if afterDigit then
          match s' with
          | String d _ => if isDigit d then digitRun false acc cnt s' else None
          | EmptyString => None
          end
        else None
      else if afterDigit then Some (acc, cnt, s) else None
  end.

Definition startsDigit (s : string) : bool :=
  match s with String c _ => isDigit c | EmptyString => false end.

(** An optional sign: [true] for minus. *)
Definition signOf (s : string) : bool * string :=
  match s with
  | String c s' =>
      if Ascii.eqb c "-" then (true, s')
      else if Ascii.eqb c "+" then (false, s') else (false, s)
  | EmptyString => (false, s)
  end.

(** [int(s)] for a string. *)
Definition pyint (s : string) : Res Z :=
  let (neg, body) := signOf (pyStrip s) in
  match digitRun false 0%N 0 body with
  | Some (n, _, EmptyString) =>
      Ok (if neg then (- Z.of_N n)%Z else Z.of_N n)
  | _ => Err ValueError
  end.

Inductive PyFloat : Type :=
| Finite (q : Q)
| Infinity (negative : bool)
| NaN.

Definition lowerAscii (c : ascii) : ascii :=
  let n := nat_of_ascii c in
  if (65 <=? n) && (n <=? 90) then ascii_of_nat (n + 32) else c.

Fixpoint lowerStr (s : string) : string :=
  match s with
  | EmptyString => EmptyString
  | String c s' => String (lowerAscii c) (lowerStr s')
  end.

(** The exponent part [e[+-]digits], or nothing. *)
Definition exponentOf (s : string) : option Z :=
  match s with
  | EmptyString => Some 0%Z
  | String c s' =>
      if Ascii.eqb (lowerAscii c) "e" then
        let (neg, body) := signOf s' in
        match digitRun false 0%N 0 body with
        | Some (n, _, EmptyString) =>
            Some (if neg then (- Z.of_N n)%Z else Z.of_N n)
        | _ => None
        end
      else None
  end.

(** The rational [m * 10 ^ e], in lowest terms. *)
Definition scale10 (m : Z) (e : Z) : Q :=
  if (0 <=? e)%Z then inject_Z (m * 10 ^ e)
  else Qred (Qmake m (Z.to_pos (10 ^ (- e)))).

(** The mantissa [digits[.digits]] or [.digits]: its digits read as one
    integer, the number of digits after the point, and the rest. *)
Definition mantissaOf (s : string) : option (N * nat * string) :=
  let intPart :=
    if startsDigit s then digitRun false 0%N 0 s
    else Some (0%N, 0, s) in
  match intPart with
  | None => None
  | Some (n, cnt, rest) =>
      match rest with
      | String c rest' =>
          if Ascii.eqb c "." then
            if startsDigit rest' then
              match digitRun false n 0 rest' with
              | Some (n', k, rest'') => Some (n', k, rest'')
              | None => None
              end
            else if Nat.eqb cnt 0 then None else Some (n, 0, rest')
          else if Nat.eqb cnt 0 then None else Some (n, 0, rest)
      | EmptyString => if Nat.eqb cnt 0 then None else Some (n, 0, rest)
      end
  end.

(** [float(s)] for a string: the value of the literal as an exact
    rational; rounding to a binary double is not modelled. *)
Definition pyfloat (s : string) : Res PyFloat :=
  let (neg, body) := signOf (pyStrip s) in
  let low := lowerStr body in
  if String.eqb low "inf" || String.eqb low "infinity" then Ok (Infinity neg)
  else if String.eqb low "nan" then Ok NaN
  else
    match mantissaOf body with
    | Some (n, k, rest) =>
        match exponentOf rest with
        | Some e =>
            let m := if neg then (- Z.of_N n)%Z else Z.of_N n in
            Ok (Finite (scale10 m (e - Z.of_nat k)))
        | None => Err ValueError
        end
    | None => Err ValueError
    end.

(** [str(n)] for a natural number. *)
Definition strOfNat (n : nat) : string :=
  NilEmpty.string_of_uint (Nat.to_uint n).
(** ** Cell series sorter: [sortCellWithSize] *)

(** What has to follow the [D] of a series name: one or more digits
    (group 2), then [BWP] and any text on the same line up to the end of
    the name (group 3). *)
Definition sizeAndTail (s : string) : option (string * string) :=
  let (ds, rest) := spanDigits s in
  match ds, rest with
  | String _ _, String b (String w (String p _)) =>
      if Ascii.eqb b "B" && Ascii.eqb w "W" && Ascii.eqb p "P" then
        let (g, r) := spanLine rest in
        match r with
        | EmptyString => Some (ds, g)
        | String _ EmptyString => Some (ds, g)
        | _ => None
        end
      else None
  | _, _ => None
  end.

(** The lazy head [(.+?)] has taken one character already; it takes one
    more each time the rest of the pattern fails, and never a newline. *)
Fixpoint seriesScan (s : string) : option (string * string * string) :=
  match s with
  | EmptyString => None
  | String c s' =>
      match (if Ascii.eqb c "D" then sizeAndTail s' else None) with
      | Some (ds, t) => Some (EmptyString, ds, t)
      | None =>
          if isNewline c then None
          else match seriesScan s' with
               | Some (h, ds, t) => Some (String c h, ds, t)
               | None => None
               end
      end
  end.

(** [seriesCellCompile.match(cellName)], the pattern being a lazy
    non-empty head (group 1), the letter [D], and the size and tail of
    [sizeAndTail]: groups 1, 2 and 3. *)
Definition seriesCellCompile (cellName : string)
  : option (string * string * string) :=
  match cellName with
  | EmptyString => None
  | String c s' =>
      if isNewline c then None
      else match seriesScan s' with
           | Some (h, ds, t) => Some (String c h, ds, t)
           | None => None
           end
  end.

Definition zzz : string := "zzz".

(** [d[k].append(x)]. *)
Definition dict_append (k : string) (x : string)
  (d : Dict (list string)) : Dict (list string) :=
  dict_update k (fun l => l ++ [x]) d.

(** First loop: every name goes to the list of its series, or to ['zzz']. *)
Definition classifyCell (d : Dict (list string)) (cellName : string)
  : Dict (list string) :=
  match seriesCellCompile cellName with
  | Some (cellHead, _, cellTail) =>
      let seriesCell := cellHead +s+ cellTail in
      dict_append seriesCell cellName (dict_setdefault seriesCell [] d)
  | None => dict_append zzz cellName d
  end.

(** Second loop: a series of one cell is moved to ['zzz']. *)
Definition demoteSingle (d : Dict (list string)) (seriesCell : string)
  : Dict (list string) :=
  if String.eqb seriesCell zzz then d
  else match dict_get seriesCell d with
       | Some [seriesCellListValue] =>
           dict_append zzz seriesCellListValue (dict_del seriesCell d)
       | _ => d
       end.

(** The sort key [int(seriesCellCompile.match(x).group(2))]. *)
Definition cellSize (x : string) : N :=
  match seriesCellCompile x with
  | Some (_, ds, _) => digitsToN ds
  | None => 0%N
  end.

Definition sizeLe (x y : string) : bool := (cellSize x <=? cellSize y)%N.

Definition sortSeries (d : Dict (list string)) (seriesCell : string)
  : list string :=
  match dict_get seriesCell d with
  | Some seriesCellList =>
      if String.eqb seriesCell zzz then pySort String.leb seriesCellList
      else pySort sizeLe seriesCellList
  | None => []
  end.

Definition sortCellWithSize (origCellList : list string) : list string :=
  let d1 := fold_left classifyCell origCellList [(zzz, [])] in
  let d2 := fold_left demoteSingle (dict_keys d1) d1 in
  flat_map (sortSeries d2) (pySort String.leb (dict_keys d2)).

(** *** The sorter as the specification words it

    A second description of the sorter, by what ends where rather than by
    how the dictionary is filled.  [bucketKey] is the key a name is filed
    under, [members] the names filed under a key, in input order. *)

Definition seriesKey (cellName : string) : option string :=
  match seriesCellCompile cellName with
  | Some (cellHead, _, cellTail) => Some (cellHead +s+ cellTail)
  | None => None
  end.

Definition bucketKey (cellName : string) : string :=
  match seriesKey cellName with Some k => k | None => zzz end.

Definition members (k : string) (l : list string) : list string :=
  filter (fun n => String.eqb (bucketKey n) k) l.

Definition isSingle (l : list string) : bool :=
  match l with [_] => true | _ => false end.

(** What a key gives to the catch-all bucket: its one name, if it holds
    exactly one. *)
Definition singleOf (f : string -> list string) (k : string) : list string :=
  if isSingle (f k) then f k else [].

Definition addKey (ks : list string) (k : string) : list string :=
  if existsb (String.eqb k) ks then ks else ks ++ [k].

(** ['zzz'] and the keys of the names, each once, in order of first use. *)
Definition keysOf (l : list string) : list string :=
  fold_left addKey (map bucketKey l) [zzz].

(** A series is a key other than ['zzz'] that does not hold exactly one
    name. *)
Definition isSeries (l : list string) (k : string) : bool :=
  negb (String.eqb k zzz) && negb (isSingle (members k l)).

Definition seriesKeys (l : list string) : list string :=
  filter (isSeries l) (keysOf l).

Definition catchAll (l : list string) : list string :=
  filter (fun n => negb (isSeries l (bucketKey n))) l.

Definition seriesGroup (l : list string) (k : string) : list string :=
  if String.eqb k zzz then pySort String.leb (catchAll l)
  else pySort sizeLe (members k l).

(** Groups in sorted key order; the catch-all bucket stands where the key
    ['zzz'] sorts. *)
Definition sortCellSeries_keyed (l : list string) : list string :=
  flat_map (seriesGroup l) (pySort String.leb (zzz :: seriesKeys l)).

(** The sorter of the specification, section 4.2: names are grouped by the
    pair (head, tail), groups of one go to the catch-all bucket, group keys
    are sorted, and the sorted catch-all bucket comes last. *)

Definition headTail (cellName : string) : option (string * string) :=
  match seriesCellCompile cellName with
  | Some (cellHead, _, cellTail) => Some (cellHead, cellTail)
  | None => None
  end.

Definition pairEqb (p q : string * string) : bool :=
  String.eqb (fst p) (fst q) && String.eqb (snd p) (snd q).

Definition pairLe (p q : string * string) : bool :=
  match String.compare (fst p) (fst q) with
  | Lt => true
  | Eq => String.leb (snd p) (snd q)
  | Gt => false
  end.

Definition inGroup (p : string * string) (n : string) : bool :=
  match headTail n with Some q => pairEqb q p | None => false end.

Definition specMembers (p : string * string) (l : list string) : list string :=
  filter (inGroup p) l.

Definition addPair (ps : list (string * string)) (n : string)
  : list (string * string) :=
  match headTail n with
  | Some p => if existsb (pairEqb p) ps then ps else ps ++ [p]
  | None => ps
  end.

Definition specGroups (l : list string) : list (string * string) :=
  filter (fun p => negb (isSingle (specMembers p l))) (fold_left addPair l []).

Definition specCatchAll (l : list string) : list string :=
  filter (fun n => match headTail n with
                   | Some p => isSingle (specMembers p l)
                   | None => true
                   end) l.

Definition sortCellSeries_spec (l : list string) : list string :=
  flat_map (fun p => pySort sizeLe (specMembers p l))
           (pySort pairLe (specGroups l))
  ++ pySort String.leb (specCatchAll l).

(** ** What the parser returns

    [libertyParser] is a collaborator outside this program; its results
    are data here.  A field that the program reads with [.get] or tests
    with [in] is optional. *)

(** One table block, [pinTimingDic['table_type'][tableType]]. *)
Record RawTable : Type := {
  raw_index_1 : option string;
  raw_index_2 : option string;
  raw_values : option string
}.

(** One entry of a ['timing'] or ['internal_power'] list.  An
    internal-power entry has no use for the two timing fields. *)
Record RawArc : Type := {
  raw_related_pin : option string;
  raw_related_pg_pin : option string;
  raw_timing_sense : option string;
  raw_timing_type : option string;
  raw_when : option string;
  raw_table_type : Dict RawTable
}.

(** A pin: [libPinDic['cell'][cellName]['pin'][pinName]]. *)
Record RawPin : Type := {
  rawpin_timing : option (list RawArc);
  rawpin_internal_power : option (list RawArc)
}.

(** A bundle or a bus. *)
Record RawGroup : Type := {
  rawgrp_timing : option (list RawArc);
  rawgrp_internal_power : option (list RawArc);
  rawgrp_pin : option (Dict RawPin)
}.

(** The keys of [libPinDic['cell'][cellName]] in their order.  In a
    dictionary of the parser each key occurs once. *)
Inductive RawCellEntry : Type :=
| RawBundle (bundles : Dict RawGroup)
| RawBus (buses : Dict RawGroup)
| RawPins (pins : Dict RawPin)
| RawOther (key : string).

Definition RawCell : Type := list RawCellEntry.

(** [libPinDic]: the cells stored under the key ['cell'], if there is
    one. *)
Definition LibPinDic : Type := option (Dict RawCell).

(** One entry of [libCellLeakagePowerDic[cellName]]. *)
Record RawLeakage : Type := {
  rawleak_value : option string;
  rawleak_when : option string;
  rawleak_related_pg_pin : option string
}.

(** A parser object, by what its methods return.  A call hands out the
    value; what the program later does to the object it got is not seen by
    the next call. *)
Record Parser : Type := {
  getCellList : list string;
  getUnit : Dict string;
  getCellArea : Dict string;
  getCellLeakagePower : Dict (list RawLeakage);
  getLibPinInfo : LibPinDic
}.

(** ** The projected records *)

(** [re.sub] of the double quote on [d.get(key, 'N/A')]. *)
Definition getField (v : option string) : string :=
  removeChar chQuote (match v with Some s => s | None => "N/A"%string end).

(** An [index_1] or [index_2] string: parentheses, quotes and commas are
    deleted, the rest is split at blanks. *)
Definition parseIndex (v : option string) : list string :=
  match v with
  | Some s =>
      pySplit (removeChar chComma (removeChar chQuote
                 (removeChar chRParen (removeChar chLParen s))))
  | None => []
  end.

(** A [values] string: parentheses are deleted, rows are split at a quote
    followed by a comma, and each row is treated like an index string. *)
Definition parseValues (v : option string) : list (list string) :=
  match v with
  | Some s =>
      map (fun row => pySplit (removeChar chComma (removeChar chQuote row)))
          (reSplitRows (removeChar chRParen (removeChar chLParen s)))
  | None => []
  end.

(** A projected table block. *)
Record Table : Type := {
  index_1 : list string;
  index_2 : list string;
  values : list (list string)
}.

Definition parseTable (t : RawTable) : Table :=
  {| index_1 := parseIndex (raw_index_1 t);
     index_2 := parseIndex (raw_index_2 t);
     values := parseValues (raw_values t) |}.

(** An entry of the flat list of a pin ([tmpTimingDic],
    [tmpInternalPowerDic]).  An internal-power entry has no
    ['timing_sense'] and no ['timing_type']; these two fields then hold
    the empty string and are not read. *)
Record Arc : Type := {
  related_pin : string;
  related_pg_pin : string;
  timing_sense : string;
  timing_type : string;
  when : string;
  table_type : Dict Table
}.

(** The hierarchical index ([tmpPinTimingDic], [tmpPinInternalPowerDic]):
    nested ordered dictionaries.  The fixed keys between the levels
    (['related_pin'], ['related_pg_pin'], ...) are created together with
    the dictionary that holds them and are left out; a leaf holds the
    lengths of [range(len(index_1))] and [range(len(index_2))]. *)
Inductive HTree : Type :=
| HNode (children : list (string * HTree))
| HLeaf (index_1_len index_2_len : nat).

Definition hchildren (t : HTree) : list (string * HTree) :=
  match t with HNode c => c | HLeaf _ _ => [] end.

(** [t[label].setdefault(k, OrderedDict())] followed by a change of
    [t[label][k]]. *)
Definition hupsert (k : string) (f : HTree -> HTree) (t : HTree) : HTree :=
  HNode (dict_update k f (dict_setdefault k (HNode []) (hchildren t))).

(** The chain of [setdefault] calls along the discriminators. *)
Fixpoint hpath (path : list string) (f : HTree -> HTree) (t : HTree)
  : HTree :=
  match path with
  | [] => f t
  | k :: path' => hupsert k (hpath path' f) t
  end.

(** The table types that are taken from a timing entry. *)
Definition timingTableTypes : list string :=
  ["cell_rise"; "rise_transition"; "cell_fall"; "fall_transition";
   "rise_constraint"; "fall_constraint";
   "ocv_sigma_rise_contraint"; "ocv_sigma_fall_contraint";
   "ocv_sigma_rise_transition"; "ocv_sigma_fall_transition";
   "ocv_sigma_cell_rise"; "ocv_sigma_cell_fall"]%string.

(** The table types that are taken from an internal-power entry. *)
Definition internalPowerTableTypes : list string :=
  ["fall_power"; "rise_power"]%string.

Definition isTableType (accepted : list string) (tableType : string) : bool :=
  existsb (String.eqb tableType) accepted.

(** The loop over the table types of one raw entry does two things for
    each accepted table type.  It stores the parsed table in the flat
    entry ... *)
Definition flatTables (accepted : list string) (raw : Dict RawTable)
  : Dict Table :=
  fold_left
    (fun d kv =>
       if isTableType accepted (fst kv)
       then dict_set (fst kv) (parseTable (snd kv)) d else d)
    raw [].

(** ... and it enters the table type, with the two ranges, in the
    ['table_type'] dictionary of the index unless it is there. *)
Definition indexTables (accepted : list string) (raw : Dict RawTable)
  (node : HTree) : HTree :=
  HNode
    (fold_left
       (fun c kv =>
          if isTableType accepted (fst kv)
          then
            let t := parseTable (snd kv) in
            dict_setdefault (fst kv)
              (HLeaf (length (index_1 t)) (length (index_2 t))) c
          else c)
       raw (hchildren node)).

Inductive Family : Type := Timing | InternalPower.

Definition acceptedTableTypes (fam : Family) : list string :=
  match fam with
  | Timing => timingTableTypes
  | InternalPower => internalPowerTableTypes
  end.

(** The discriminators of a raw entry in the order of the index. *)
Definition arcPath (fam : Family) (a : RawArc) : list string :=
  match fam with
  | Timing =>
      [getField (raw_related_pin a); getField (raw_related_pg_pin a);
       getField (raw_timing_sense a); getField (raw_timing_type a);
       getField (raw_when a)]
  | InternalPower =>
      [getField (raw_related_pin a); getField (raw_related_pg_pin a);
       getField (raw_when a)]
  end.

Definition flatArc (fam : Family) (a : RawArc) : Arc :=
  {| related_pin := getField (raw_related_pin a);
     related_pg_pin := getField (raw_related_pg_pin a);
     timing_sense :=
       match fam with
       | Timing => getField (raw_timing_sense a)
       | InternalPower => EmptyString
       end;
     timing_type :=
       match fam with
       | Timing => getField (raw_timing_type a)
       | InternalPower => EmptyString
       end;
     when := getField (raw_when a);
     table_type := flatTables (acceptedTableTypes fam) (raw_table_type a) |}.

(** One round of the loop over the raw entries of a pin. *)
Definition addArc (fam : Family) (st : list Arc * HTree) (a : RawArc)
  : list Arc * HTree :=
  (fst st ++ [flatArc fam a],
   hpath (arcPath fam a)
         (indexTables (acceptedTableTypes fam) (raw_table_type a)) (snd st)).

(** [getPinTimingInfo] and [getPinInternalPowerInfo] are the same text up
    to the discriminators and the accepted table types. *)
Definition getPinInfo (fam : Family) (dicList : list RawArc)
  : list Arc * HTree :=
  fold_left (addArc fam) dicList ([], HNode []).

Definition getPinTimingInfo : list RawArc -> list Arc * HTree :=
  getPinInfo Timing.

Definition getPinInternalPowerInfo : list RawArc -> list Arc * HTree :=
  getPinInfo InternalPower.

(** A pin of [specifiedLibDic]: the flat lists under ['timing'] and
    ['internal_power']. *)
Record ProjPin : Type := {
  pp_timing : option (list Arc);
  pp_internal_power : option (list Arc)
}.

Definition emptyPin : ProjPin :=
  {| pp_timing := None; pp_internal_power := None |}.

Record Leakage : Type := {
  leak_value : string;
  leak_when : string;
  leak_related_pg_pin : string
}.

Inductive GroupKind : Type := Bundle | Bus.

(** A cell of [specifiedLibDic].  Under ['bundle'] and ['bus'] a name
    leads to the pins of the group, the key ['pin'] in between being left
    out as in [HTree]. *)
Record ProjCell : Type := {
  area : option string;
  leakage_power : option (list Leakage);
  pc_bundle : option (Dict (Dict ProjPin));
  pc_bus : option (Dict (Dict ProjPin));
  pc_pin : option (Dict ProjPin)
}.

Definition emptyCell : ProjCell :=
  {| area := None; leakage_power := None;
     pc_bundle := None; pc_bus := None; pc_pin := None |}.

(** A cell of [timingTabDic] or [internalPowerTabDic]: the keys
    ['bundle'], ['bus'] and ['pin'] in the order they were entered.  A pin
    holds its index under ['timing'] (['internal_power']) or nothing. *)
Inductive TabEntry : Type :=
| TabGroup (kind : GroupKind) (groups : Dict (Dict (option HTree)))
| TabPins (pins : Dict (option HTree)).

Definition TabCell : Type := list TabEntry.

(** A cell of [leakagePowerTabDic]: under ['leakage_power'], and there
    under ['when'] if anything was entered, each condition with the list
    of its [related_pg_pin] values. *)
Definition LeakTab : Type := Dict (list string).

Definition kindEqb (a b : GroupKind) : bool :=
  match a, b with
  | Bundle, Bundle | Bus, Bus => true
  | _, _ => false
  end.

(** [d.setdefault(k, v)] followed by a change of [d[k]]. *)
Definition dict_upsert {V : Type} (k : string) (v : V) (f : V -> V)
  (d : Dict V) : Dict V :=
  dict_update k f (dict_setdefault k v d).

Definition optOr {A : Type} (o : option A) (a : A) : A :=
  match o with Some x => x | None => a end.

(** [pin.setdefault(key, value)] when [value] is not empty. *)
Definition setIfAbsent {A : Type} (nonEmpty : bool) (a : A) (o : option A)
  : option A :=
  match o with
  | Some x => Some x
  | None => if nonEmpty then Some a else None
  end.

Definition listNonEmpty {A : Type} (l : list A) : bool :=
  match l with [] => false | _ => true end.

Definition hNonEmpty (t : HTree) : bool := listNonEmpty (hchildren t).

(** The flat list goes to the pin of [specifiedLibDic] ... *)
Definition recordFlat (fam : Family) (flat : list Arc) (p : ProjPin)
  : ProjPin :=
  match fam with
  | Timing =>
      {| pp_timing := setIfAbsent (listNonEmpty flat) flat (pp_timing p);
         pp_internal_power := pp_internal_power p |}
  | InternalPower =>
      {| pp_timing := pp_timing p;
         pp_internal_power :=
           setIfAbsent (listNonEmpty flat) flat (pp_internal_power p) |}
  end.

Definition projGroupPin (fam : Family) (kind : GroupKind)
  (groupName pinName : string) (flat : list Arc) (c : ProjCell) : ProjCell :=
  let upd (o : option (Dict (Dict ProjPin))) :=
    Some (dict_upsert groupName []
            (dict_upsert pinName emptyPin (recordFlat fam flat))
            (optOr o [])) in
  match kind with
  | Bundle =>
      {| area := area c; leakage_power := leakage_power c;
         pc_bundle := upd (pc_bundle c); pc_bus := pc_bus c;
         pc_pin := pc_pin c |}
  | Bus =>
      {| area := area c; leakage_power := leakage_power c;
         pc_bundle := pc_bundle c; pc_bus := upd (pc_bus c);
         pc_pin := pc_pin c |}
  end.

Definition projDirectPin (fam : Family) (pinName : string)
  (flat : list Arc) (c : ProjCell) : ProjCell :=
  {| area := area c; leakage_power := leakage_power c;
     pc_bundle := pc_bundle c; pc_bus := pc_bus c;
     pc_pin := Some (dict_upsert pinName emptyPin (recordFlat fam flat)
                       (optOr (pc_pin c) [])) |}.

(** ... and the index to the pin of the tab dictionary. *)
Fixpoint tabGroupUpdate (kind : GroupKind)
  (f : Dict (Dict (option HTree)) -> Dict (Dict (option HTree)))
  (t : TabCell) : TabCell :=
  match t with
  | [] => [TabGroup kind (f [])]
  | TabGroup kind' d :: t' =>
      if kindEqb kind kind' then TabGroup kind' (f d) :: t'
      else TabGroup kind' d :: tabGroupUpdate kind f t'
  | e :: t' => e :: tabGroupUpdate kind f t'
  end.

Fixpoint tabPinsUpdate (f : Dict (option HTree) -> Dict (option HTree))
  (t : TabCell) : TabCell :=
  match t with
  | [] => [TabPins (f [])]
  | TabPins d :: t' => TabPins (f d) :: t'
  | e :: t' => e :: tabPinsUpdate f t'
  end.

Definition tabGroupPin (kind : GroupKind) (groupName pinName : string)
  (idx : HTree) (t : TabCell) : TabCell :=
  tabGroupUpdate kind
    (dict_upsert groupName []
       (dict_upsert pinName None (setIfAbsent (hNonEmpty idx) idx))) t.

Definition tabDirectPin (pinName : string) (idx : HTree) (t : TabCell)
  : TabCell :=
  tabPinsUpdate (dict_upsert pinName None (setIfAbsent (hNonEmpty idx) idx)) t.

(** The raw lists of a family. *)
Definition pinArcs (fam : Family) (p : RawPin) : option (list RawArc) :=
  match fam with
  | Timing => rawpin_timing p
  | InternalPower => rawpin_internal_power p
  end.

Definition groupArcs (fam : Family) (g : RawGroup) : option (list RawArc) :=
  match fam with
  | Timing => rawgrp_timing g
  | InternalPower => rawgrp_internal_power g
  end.

Definition setPinArcs (fam : Family) (l : list RawArc) (p : RawPin) : RawPin :=
  match fam with
  | Timing =>
      {| rawpin_timing := Some l;
         rawpin_internal_power := rawpin_internal_power p |}
  | InternalPower =>
      {| rawpin_timing := rawpin_timing p; rawpin_internal_power := Some l |}
  end.

Definition isSome {A : Type} (o : option A) : bool :=
  match o with Some _ => true | None => false end.

(** The list a pin of a bundle or bus is projected from: its own list,
    extended by the list of the group. *)
Definition inheritedArcs (fam : Family) (groupList : list RawArc)
  (p : RawPin) : list RawArc :=
  let own := optOr (pinArcs fam p) [] in
  if 0 <? length groupList then own ++ groupList else own.

(** [libPinTimingDicList.extend(...)] acts on the list of the parser's
    tree when the pin has one: the pin of the tree holds the extended list
    afterwards. *)
Definition extendedPin (fam : Family) (groupList : list RawArc) (p : RawPin)
  : RawPin :=
  match pinArcs fam p with
  | Some _ =>
      if 0 <? length groupList
      then setPinArcs fam (inheritedArcs fam groupList p) p
      else p
  | None => p
  end.

(** The loop over the pins of one bundle or bus.  The result is the pins
    as the loop leaves them in the parser's tree, and the two records. *)
Fixpoint groupPins (fam : Family) (kind : GroupKind) (groupName : string)
  (groupList : list RawArc) (pins : Dict RawPin) (st : ProjCell * TabCell)
  : Dict RawPin * (ProjCell * TabCell) :=
  match pins with
  | [] => ([], st)
  | (pinName, p) :: rest =>
      let '(p', st') :=
        if isSome (pinArcs fam p) || (0 <? length groupList) then
          let '(flat, idx) := getPinInfo fam (inheritedArcs fam groupList p) in
          (extendedPin fam groupList p,
           (projGroupPin fam kind groupName pinName flat (fst st),
            tabGroupPin kind groupName pinName idx (snd st)))
        else (p, st) in
      let '(rest', st'') := groupPins fam kind groupName groupList rest st' in
      ((pinName, p') :: rest', st'')
  end.

(** The loop over the bundles, or the buses, of a cell. *)
Fixpoint groupLoop (fam : Family) (kind : GroupKind) (groups : Dict RawGroup)
  (st : ProjCell * TabCell) : Dict RawGroup * (ProjCell * TabCell) :=
  match groups with
  | [] => ([], st)
  | (groupName, g) :: rest =>
      let groupList := optOr (groupArcs fam g) [] in
      let '(g', st') :=
        match rawgrp_pin g with
        | Some pins =>
            let '(pins', st') :=
              groupPins fam kind groupName groupList pins st in
            ({| rawgrp_timing := rawgrp_timing g;
                rawgrp_internal_power := rawgrp_internal_power g;
                rawgrp_pin := Some pins' |}, st')
        | None => (g, st)
        end in
      let '(rest', st'') := groupLoop fam kind rest st' in
      ((groupName, g') :: rest', st'')
  end.

(** The loop over the direct pins of a cell. *)
Definition pinLoop (fam : Family) (pins : Dict RawPin)
  (st : ProjCell * TabCell) : ProjCell * TabCell :=
  fold_left
    (fun st kv =>
       match pinArcs fam (snd kv) with
       | Some l =>
           let '(flat, idx) := getPinInfo fam l in
           (projDirectPin fam (fst kv) flat (fst st),
            tabDirectPin (fst kv) idx (snd st))
       | None => st
       end)
    pins st.

(** The loop over the keys of [libPinDic['cell'][cellName]]. *)
Fixpoint cellLoop (fam : Family) (entries : RawCell) (st : ProjCell * TabCell)
  : RawCell * (ProjCell * TabCell) :=
  match entries with
  | [] => ([], st)
  | e :: rest =>
      let '(e', st') :=
        match e with
        | RawBundle groups =>
            let '(groups', st') := groupLoop fam Bundle groups st in
            (RawBundle groups', st')
        | RawBus groups =>
            let '(groups', st') := groupLoop fam Bus groups st in
            (RawBus groups', st')
        | RawPins pins => (e, pinLoop fam pins st)
        | RawOther _ => (e, st)
        end in
      let '(rest', st'') := cellLoop fam rest st' in
      (e' :: rest', st'')
  end.

(** [getTimingInfo] and [getInternalPowerInfo] for one cell: the cell of
    [specifiedLibDic], the cell of the tab dictionary, and [libPinDic] as
    the call leaves it. *)
Definition getInfo (fam : Family) (cellName : string) (libPinDic : LibPinDic)
  (st : ProjCell * TabCell) : Res (LibPinDic * (ProjCell * TabCell)) :=
  cells <- match libPinDic with
           | Some cells => Ok cells
           | None => Err (KeyError "cell")
           end ;;
  entries <- dict_at cellName cells ;;
  let '(entries', st') := cellLoop fam entries st in
  Ok (Some (dict_update cellName (fun _ => entries') cells), st').

Definition getTimingInfo := getInfo Timing.
Definition getInternalPowerInfo := getInfo InternalPower.

(** [getCellAreaInfo]. *)
Definition getCellAreaInfo (cellName : string) (libCellAreaDic : Dict string)
  (c : ProjCell) : Res ProjCell :=
  a <- dict_at cellName libCellAreaDic ;;
  Ok {| area := Some a; leakage_power := leakage_power c;
        pc_bundle := pc_bundle c; pc_bus := pc_bus c; pc_pin := pc_pin c |}.

Definition flatLeakage (r : RawLeakage) : Leakage :=
  {| leak_value := getField (rawleak_value r);
     leak_when := getField (rawleak_when r);
     leak_related_pg_pin := getField (rawleak_related_pg_pin r) |}.

(** One entry of the leakage index: the condition is entered unless it is
    there, and the pg pin is appended to its list. *)
Definition addLeakTab (t : LeakTab) (e : Leakage) : LeakTab :=
  dict_upsert (leak_when e) [] (fun l => l ++ [leak_related_pg_pin e]) t.

(** [getCellLeakagePowerInfo]: the flat list and, with two cells or more
    in the selection, the index. *)
Definition getCellLeakagePowerInfo (specifiedCellCount : Z)
  (cellName : string) (libCellLeakagePowerDic : Dict (list RawLeakage))
  (c : ProjCell) : Res (ProjCell * LeakTab) :=
  raws <- dict_at cellName libCellLeakagePowerDic ;;
  let flat := map flatLeakage raws in
  Ok ({| area := area c; leakage_power := Some flat;
         pc_bundle := pc_bundle c; pc_bus := pc_bus c; pc_pin := pc_pin c |},
      if (2 <=? specifiedCellCount)%Z then fold_left addLeakTab flat [] else []).
(** ** The session *)

(** An entry of [libDic]. *)
Record LibEntry : Type := {
  parser : Parser;
  cellList : list string
}.

Inductive CheckState : Type := Unchecked | PartiallyChecked | Checked.

(** [cellListTree]: the libraries with their cells.  The iterator visits
    the items from top to bottom; only the cells have a parent. *)
Definition Tree : Type := list (string * list (string * CheckState)).

Record Session : Type := {
  libDic : Dict LibEntry;
  cellListTree : Tree;
  specifiedLibDic : Dict (Dict ProjCell);
  specifiedCellCount : Z;
  leakagePowerTabDic : Dict (Dict LeakTab);
  timingTabDic : Dict (Dict TabCell);
  internalPowerTabDic : Dict (Dict TabCell);
  leakagePowerTabMultiEnable : bool;
  timingTabMultiEnable : bool;
  internalPowerTabMultiEnable : bool;
  leakagePowerUnit : string;
  timingUnit : string;
  internalPowerUnit : string
}.

(** [initVars], with an empty tree. *)
Definition initVars : Session :=
  {| libDic := []; cellListTree := [];
     specifiedLibDic := []; specifiedCellCount := 0;
     leakagePowerTabDic := []; timingTabDic := []; internalPowerTabDic := [];
     leakagePowerTabMultiEnable := false;
     timingTabMultiEnable := false;
     internalPowerTabMultiEnable := false;
     leakagePowerUnit := EmptyString; timingUnit := EmptyString;
     internalPowerUnit := EmptyString |}.

(** What a call prints, and the calls to the parser module. *)
Inductive Event : Type :=
| Loading (libraryFile : string)
| WarnLoaded (libraryFileName : string)
| ParserCreated (libraryFile : string)
| WarnLeakagePowerUnit (unit libraryFile : string)
| WarnTimeUnit (unit libraryFile : string)
| WarnStructure.

(** ** Library catalog: [loadLibFile] *)

(** [updateCellListTree]: the tree is built again from [libDic]; a cell is
    checked when it is in the selection. *)
Definition isSpecified (spec : Dict (Dict ProjCell)) (lib cell : string) : bool :=
  match dict_get lib spec with
  | Some cells => dict_mem cell cells
  | None => false
  end.

Definition updateCellListTree (s : Session) : Session :=
  {| libDic := libDic s;
     cellListTree :=
       map (fun kv =>
              (fst kv,
               map (fun cellName =>
                      (cellName,
                       if isSpecified (specifiedLibDic s) (fst kv) cellName
                       then Checked else Unchecked))
                   (sortCellWithSize (cellList (snd kv)))))
           (libDic s);
     specifiedLibDic := specifiedLibDic s;
     specifiedCellCount := specifiedCellCount s;
     leakagePowerTabDic := leakagePowerTabDic s;
     timingTabDic := timingTabDic s;
     internalPowerTabDic := internalPowerTabDic s;
     leakagePowerTabMultiEnable := leakagePowerTabMultiEnable s;
     timingTabMultiEnable := timingTabMultiEnable s;
     internalPowerTabMultiEnable := internalPowerTabMultiEnable s;
     leakagePowerUnit := leakagePowerUnit s;
     timingUnit := timingUnit s;
     internalPowerUnit := internalPowerUnit s |}.

(** A unit string without its quotes and digits. *)
Definition stripUnit (u : string) : string :=
  removeDigits (removeChar chQuote u).

Definition withLib (name : string) (e : LibEntry) (s : Session) : Session :=
  {| libDic := dict_set name e (libDic s);
     cellListTree := cellListTree s;
     specifiedLibDic := specifiedLibDic s;
     specifiedCellCount := specifiedCellCount s;
     leakagePowerTabDic := leakagePowerTabDic s;
     timingTabDic := timingTabDic s;
     internalPowerTabDic := internalPowerTabDic s;
     leakagePowerTabMultiEnable := leakagePowerTabMultiEnable s;
     timingTabMultiEnable := timingTabMultiEnable s;
     internalPowerTabMultiEnable := internalPowerTabMultiEnable s;
     leakagePowerUnit := leakagePowerUnit s;
     timingUnit := timingUnit s;
     internalPowerUnit := internalPowerUnit s |}.

Definition withUnits (lp tu ip : string) (s : Session) : Session :=
  {| libDic := libDic s;
     cellListTree := cellListTree s;
     specifiedLibDic := specifiedLibDic s;
     specifiedCellCount := specifiedCellCount s;
     leakagePowerTabDic := leakagePowerTabDic s;
     timingTabDic := timingTabDic s;
     internalPowerTabDic := internalPowerTabDic s;
     leakagePowerTabMultiEnable := leakagePowerTabMultiEnable s;
     timingTabMultiEnable := timingTabMultiEnable s;
     internalPowerTabMultiEnable := internalPowerTabMultiEnable s;
     leakagePowerUnit := lp;
     timingUnit := tu;
     internalPowerUnit := ip |}.

(** The block for ['leakage_power_unit']. *)
Definition adoptLeakagePowerUnit (libraryFile : string) (unitDic : Dict string)
  (s : Session) : Session * list Event :=
  match dict_get "leakage_power_unit" unitDic with
  | Some u =>
      let leakagePowerUnit' := stripUnit u in
      if strEmpty (leakagePowerUnit s) then
        (withUnits leakagePowerUnit' (timingUnit s) leakagePowerUnit' s, [])
      else if negb (String.eqb (leakagePowerUnit s) leakagePowerUnit') then
        (s, [WarnLeakagePowerUnit leakagePowerUnit' libraryFile])
      else (s, [])
  | None => (s, [])
  end.

(** The block for ['time_unit']. *)
Definition adoptTimeUnit (libraryFile : string) (unitDic : Dict string)
  (s : Session) : Session * list Event :=
  match dict_get "time_unit" unitDic with
  | Some u =>
      let timingUnit' := stripUnit u in
      if strEmpty (timingUnit s) then
        (withUnits (leakagePowerUnit s) timingUnit' (internalPowerUnit s) s, [])
      else if negb (String.eqb (timingUnit s) timingUnit') then
        (s, [WarnTimeUnit timingUnit' libraryFile])
      else (s, [])
  | None => (s, [])
  end.

(** [loadLibFile].  [libertyParser] stands for the constructor of the
    parser module; [chosenFile] is the answer of the file dialog, asked
    when no file is given. *)
Definition loadLibFile (libertyParser : string -> Parser)
  (chosenFile : string) (libraryFile : string) (s : Session)
  : Session * list Event :=
  let libraryFile := if strEmpty libraryFile then chosenFile else libraryFile in
  if strEmpty libraryFile then (s, [])
  else
    let libraryFileName := basename libraryFile in
    if dict_mem libraryFileName (libDic s) then
      (s, [Loading libraryFile; WarnLoaded libraryFileName])
    else
      let myParser := libertyParser libraryFile in
      let s1 := withLib libraryFileName
                  {| parser := myParser; cellList := getCellList myParser |} s in
      let unitDic := getUnit myParser in
      let '(s2, ev2) := adoptLeakagePowerUnit libraryFile unitDic s1 in
      let '(s3, ev3) := adoptTimeUnit libraryFile unitDic s2 in
      (updateCellListTree s3,
       [Loading libraryFile; ParserCreated libraryFile] ++ ev2 ++ ev3).

(** Loading files one after the other, as [__init__] does. *)
Definition loadAll (libertyParser : string -> Parser) (files : list string)
  (s : Session) : Session :=
  fold_left (fun s f => fst (loadLibFile libertyParser EmptyString f s)) files s.

(** ** Selection set: the first loop of [cellListBeClicked] *)

Definition treeItems (t : Tree) : list (string * string * CheckState) :=
  flat_map (fun lib => map (fun c => (fst lib, fst c, snd c)) (snd lib)) t.

(** One round of the loop over the items of the tree. *)
Definition selectItem (st : Dict (Dict ProjCell) * Z)
  (item : string * string * CheckState) : Dict (Dict ProjCell) * Z :=
  let '(libraryFileName, cellName, state) := item in
  let '(spec, count) := st in
  match state with
  | Checked =>
      let spec1 :=
        if dict_mem libraryFileName spec then spec
        else dict_set libraryFileName [] spec in
      if dict_mem cellName (optOr (dict_get libraryFileName spec1) []) then
        (spec1, count)
      else
        (dict_update libraryFileName (dict_set cellName emptyCell) spec1,
         (count + 1)%Z)
  | Unchecked =>
      if isSpecified spec libraryFileName cellName then
        let spec1 := dict_update libraryFileName (dict_del cellName) spec in
        if Nat.eqb (length (optOr (dict_get libraryFileName spec1) [])) 0
        then (dict_del libraryFileName spec1, (count - 1)%Z)
        else (spec1, (count - 1)%Z)
      else (spec, count)
  | PartiallyChecked => (spec, count)
  end.

Definition selectCells (t : Tree) : Dict (Dict ProjCell) * Z :=
  fold_left selectItem (treeItems t) ([], 0%Z).

(** ** Structural check: [checkTabMultiEnable] *)

Section CheckTab.
Context {T : Type}.
(** [not d] and [d1 == d2] for the cells of a tab dictionary. *)
Variable isEmpty : T -> bool.
Variable eqb : T -> T -> bool.

(** [not lastTabCellDic]; [None] is the empty dictionary the variable
    holds at the start. *)
Definition notLast (last : option T) : bool :=
  match last with None => true | Some t => isEmpty t end.

(** The inner loop; [false] is the [break] after the warning. *)
Fixpoint checkCells (cells : Dict T) (last : option T) : option T * bool :=
  match cells with
  | [] => (last, true)
  | (_, tabCellDic) :: rest =>
      if notLast last then checkCells rest (Some tabCellDic)
      else if negb (eqb (optOr last tabCellDic) tabCellDic) then (last, false)
      else checkCells rest last
  end.

Fixpoint checkLibs (tabDic : Dict (Dict T)) (last : option T) : bool :=
  match tabDic with
  | [] => true
  | (_, cells) :: rest =>
      let (last', enable) := checkCells cells last in
      if enable then checkLibs rest last' else false
  end.

Definition checkTabMultiEnable (specifiedCellCount : Z)
  (tabDic : Dict (Dict T)) : bool :=
  if (specifiedCellCount <? 2)%Z then false else checkLibs tabDic None.
End CheckTab.

(** Equality of the nested dictionaries, keys in order. *)
Fixpoint list_eqb {A : Type} (e : A -> A -> bool) (l1 l2 : list A) : bool :=
  match l1, l2 with
  | [], [] => true
  | a :: l1', b :: l2' => e a b && list_eqb e l1' l2'
  | _, _ => false
  end.

Definition dict_eqb {V : Type} (e : V -> V -> bool) : Dict V -> Dict V -> bool :=
  list_eqb (fun a b => String.eqb (fst a) (fst b) && e (snd a) (snd b)).

Definition option_eqb {A : Type} (e : A -> A -> bool) (a b : option A) : bool :=
  match a, b with
  | Some x, Some y => e x y
  | None, None => true
  | _, _ => false
  end.

Fixpoint htree_eqb (a b : HTree) : bool :=
  match a, b with
  | HLeaf i j, HLeaf i' j' => Nat.eqb i i' && Nat.eqb j j'
  | HNode c, HNode c' =>
      (fix go (c c' : list (string * HTree)) : bool :=
         match c, c' with
         | [], [] => true
         | (k, t) :: r, (k', t') :: r' =>
             String.eqb k k' && htree_eqb t t' && go r r'
         | _, _ => false
         end) c c'
  | _, _ => false
  end.

Definition tabEntry_eqb (a b : TabEntry) : bool :=
  match a, b with
  | TabGroup k d, TabGroup k' d' =>
      kindEqb k k' && dict_eqb (dict_eqb (option_eqb htree_eqb)) d d'
  | TabPins d, TabPins d' => dict_eqb (option_eqb htree_eqb) d d'
  | _, _ => false
  end.

Definition tabCell_eqb : TabCell -> TabCell -> bool := list_eqb tabEntry_eqb.

Definition tabCell_isEmpty (t : TabCell) : bool :=
  match t with [] => true | _ => false end.

Definition leakTab_eqb : LeakTab -> LeakTab -> bool :=
  dict_eqb (list_eqb String.eqb).

(** ** The projection pass: the rest of [cellListBeClicked] *)

(** What one library contributes: its cells of [specifiedLibDic] and of
    the three tab dictionaries, and [libPinDic] as the loop leaves it. *)
Record LibPass : Type := {
  lp_cells : Dict ProjCell;
  lp_leakage : Dict LeakTab;
  lp_timing : Dict TabCell;
  lp_internalPower : Dict TabCell;
  lp_libPinDic : LibPinDic
}.

(** One round of the loop over the cells of a library. *)
Definition projectCell (count : Z) (p : Parser) (st : LibPass)
  (kv : string * ProjCell) : Res LibPass :=
  let cellName := fst kv in
  c1 <- getCellAreaInfo cellName (getCellArea p) (snd kv) ;;
  ' (c2, leak) <- getCellLeakagePowerInfo count cellName
                    (getCellLeakagePower p) c1 ;;
  ' (pd1, (c3, tim)) <- getTimingInfo cellName (lp_libPinDic st) (c2, []) ;;
  ' (pd2, (c4, pow)) <- getInternalPowerInfo cellName pd1 (c3, []) ;;
  Ok {| lp_cells := dict_set cellName c4 (lp_cells st);
        lp_leakage := dict_set cellName leak (lp_leakage st);
        lp_timing := dict_set cellName tim (lp_timing st);
        lp_internalPower := dict_set cellName pow (lp_internalPower st);
        lp_libPinDic := pd2 |}.

(** One round of the loop over the libraries of the selection. *)
Definition projectLib (count : Z) (libs : Dict LibEntry)
  (libraryFileName : string) (cells : Dict ProjCell) : Res LibPass :=
  e <- dict_at libraryFileName libs ;;
  foldRes (projectCell count (parser e)) cells
    {| lp_cells := cells; lp_leakage := []; lp_timing := [];
       lp_internalPower := [];
       lp_libPinDic := getLibPinInfo (parser e) |}.

Record Projection : Type := {
  pj_specified : Dict (Dict ProjCell);
  pj_leakage : Dict (Dict LeakTab);
  pj_timing : Dict (Dict TabCell);
  pj_internalPower : Dict (Dict TabCell)
}.

Definition projectAll (count : Z) (libs : Dict LibEntry)
  (spec : Dict (Dict ProjCell)) : Res Projection :=
  foldRes
    (fun pj kv =>
       r <- projectLib count libs (fst kv) (snd kv) ;;
       Ok {| pj_specified := dict_set (fst kv) (lp_cells r) (pj_specified pj);
             pj_leakage := dict_set (fst kv) (lp_leakage r) (pj_leakage pj);
             pj_timing := dict_set (fst kv) (lp_timing r) (pj_timing pj);
             pj_internalPower :=
               dict_set (fst kv) (lp_internalPower r) (pj_internalPower pj) |})
    spec
    {| pj_specified := spec; pj_leakage := []; pj_timing := [];
       pj_internalPower := [] |}.

(** [cellListBeClicked] up to the call that updates the frames.  An
    exception leaves the pass; the session it leaves behind is not
    modelled, the next pass starts from the tree and the catalog alone. *)
Definition cellListBeClicked (s : Session) : Res Session :=
  let '(spec, count) := selectCells (cellListTree s) in
  pj <- projectAll count (libDic s) spec ;;
  let multi :=
    if (2 <=? count)%Z then
      (checkTabMultiEnable (fun _ => false) leakTab_eqb count (pj_leakage pj),
       checkTabMultiEnable tabCell_isEmpty tabCell_eqb count (pj_timing pj),
       checkTabMultiEnable tabCell_isEmpty tabCell_eqb count
         (pj_internalPower pj))
    else (false, false, false) in
  Ok {| libDic := libDic s;
        cellListTree := cellListTree s;
        specifiedLibDic := pj_specified pj;
        specifiedCellCount := count;
        leakagePowerTabDic := pj_leakage pj;
        timingTabDic := pj_timing pj;
        internalPowerTabDic := pj_internalPower pj;
        leakagePowerTabMultiEnable := fst (fst multi);
        timingTabMultiEnable := snd (fst multi);
        internalPowerTabMultiEnable := snd multi;
        leakagePowerUnit := leakagePowerUnit s;
        timingUnit := timingUnit s;
        internalPowerUnit := internalPowerUnit s |}.
(** ** Selector stages and terminal resolution *)

(** [list(set(l))]: each element once.  The order in which a set hands
    out its elements is not modelled; the elements come in the order of
    [l]. *)
Fixpoint pySet (l : list string) : list string :=
  match l with
  | [] => []
  | x :: l' => x :: filter (fun y => negb (String.eqb x y)) (pySet l')
  end.

(** The first cell the two loops over a tab dictionary reach. *)
Fixpoint firstCell {T : Type} (tabDic : Dict (Dict T)) : option T :=
  match tabDic with
  | [] => None
  | (_, []) :: rest => firstCell rest
  | (_, (_, t) :: _) :: _ => Some t
  end.

(** The cells of a dictionary of libraries in the order of the two
    loops. *)
Definition allCells {T : Type} (d : Dict (Dict T))
  : list (string * string * T) :=
  flat_map (fun lib => map (fun c => (fst lib, fst c, snd c)) (snd lib)) d.

(** *** Leakage power *)

(** [updateLeakagePowerTabWhenCombo]: the items of the combo box. *)
Definition updateLeakagePowerTabWhenCombo (s : Session) : Res (list string) :=
  if leakagePowerTabMultiEnable s then
    match firstCell (leakagePowerTabDic s) with
    | Some t =>
        match t with
        | [] => Err (KeyError "when")
        | _ => Ok (pySet (dict_keys t))
        end
    | None => Ok []
    end
  else Ok [].

(** [updateLeakagePowerTabRelatedPgPinCombo]; [whenText] is the text of
    the combo box of the conditions. *)
Definition updateLeakagePowerTabRelatedPgPinCombo (s : Session)
  (whenText : string) : Res (list string) :=
  if leakagePowerTabMultiEnable s then
    match firstCell (leakagePowerTabDic s) with
    | Some t =>
        match t with
        | [] => Err (KeyError "when")
        | _ => l <- dict_at (pyStrip whenText) t ;; Ok (pySet l)
        end
    | None => Ok []
    end
  else Ok [].

(** The value column of a row: the number [0] the variable starts with,
    or the string of an entry. *)
Inductive LeakValue : Type :=
| LeakDefault
| LeakString (v : string).

Record LeakRow : Type := {
  lr_lib : string;
  lr_cell : string;
  lr_when : string;
  lr_related_pg_pin : string;
  lr_value : LeakValue
}.

Definition leakFloat (v : LeakValue) : Res PyFloat :=
  match v with
  | LeakDefault => Ok (Finite 0)
  | LeakString s => pyfloat s
  end.

(** The search for the entry of a cell; the first match ends it. *)
Fixpoint findLeakage (specifiedWhen specifiedRelatedPgPin : string)
  (l : list Leakage) : LeakValue :=
  match l with
  | [] => LeakDefault
  | tmpDic :: l' =>
      if String.eqb (leak_when tmpDic) specifiedWhen
         && String.eqb (leak_related_pg_pin tmpDic) specifiedRelatedPgPin
      then LeakString (leak_value tmpDic)
      else findLeakage specifiedWhen specifiedRelatedPgPin l'
  end.

Definition leakageOf (c : ProjCell) : Res (list Leakage) :=
  match leakage_power c with
  | Some l => Ok l
  | None => Err (KeyError "leakage_power")
  end.

(** [updateLeakagePowerTabTable]: the rows of the table and the values
    of the curve. *)
Definition updateLeakagePowerTabTable (s : Session)
  (whenText relatedPgPinText : string) : Res (list LeakRow * list PyFloat) :=
  if leakagePowerTabMultiEnable s then
    let specifiedWhen := pyStrip whenText in
    let specifiedRelatedPgPin := pyStrip relatedPgPinText in
    foldRes
      (fun acc cell =>
         let '(libraryFileName, cellName, c) := cell in
         l <- leakageOf c ;;
         let specifiedValue :=
           findLeakage specifiedWhen specifiedRelatedPgPin l in
         y <- leakFloat specifiedValue ;;
         Ok (fst acc ++ [{| lr_lib := libraryFileName; lr_cell := cellName;
                            lr_when := specifiedWhen;
                            lr_related_pg_pin := specifiedRelatedPgPin;
                            lr_value := specifiedValue |}],
             snd acc ++ [y]))
      (allCells (specifiedLibDic s)) ([], [])
  else
    foldRes
      (fun acc cell =>
         let '(libraryFileName, cellName, c) := cell in
         l <- leakageOf c ;;
         foldRes
           (fun acc e =>
              y <- pyfloat (leak_value e) ;;
              Ok (fst acc ++ [{| lr_lib := libraryFileName;
                                 lr_cell := cellName;
                                 lr_when := leak_when e;
                                 lr_related_pg_pin := leak_related_pg_pin e;
                                 lr_value := LeakString (leak_value e) |}],
                  snd acc ++ [y]))
           l acc)
      (allCells (specifiedLibDic s)) ([], []).

(** *** Timing: the stages *)

(** The texts of the combo boxes of the timing tab. *)
Record Selectors : Type := {
  sel_bundle : string;
  sel_bus : string;
  sel_pin : string;
  sel_related_pin : string;
  sel_related_pg_pin : string;
  sel_timing_sense : string;
  sel_timing_type : string;
  sel_when : string;
  sel_table_type : string;
  sel_index_1 : string;
  sel_index_2 : string
}.

Definition kindKey (kind : GroupKind) : string :=
  match kind with Bundle => "bundle" | Bus => "bus" end.

(** [tab['bundle']] and [tab['bus']]. *)
Fixpoint tabGroups (kind : GroupKind) (t : TabCell)
  : Res (Dict (Dict (option HTree))) :=
  match t with
  | [] => Err (KeyError (kindKey kind))
  | TabGroup kind' d :: t' =>
      if kindEqb kind kind' then Ok d else tabGroups kind t'
  | _ :: t' => tabGroups kind t'
  end.

(** [tab['pin']]. *)
Fixpoint tabPins (t : TabCell) : Res (Dict (option HTree)) :=
  match t with
  | [] => Err (KeyError "pin")
  | TabPins d :: _ => Ok d
  | _ :: t' => tabPins t'
  end.

(** The pins of the chosen scope: of the bundle if one is chosen, else of
    the bus if one is chosen, else the direct pins. *)
Definition scopePins (t : TabCell) (specifiedBundle specifiedBus : string)
  : Res (Dict (option HTree)) :=
  if negb (strEmpty specifiedBundle) then
    g <- tabGroups Bundle t ;; dict_at specifiedBundle g
  else if negb (strEmpty specifiedBus) then
    g <- tabGroups Bus t ;; dict_at specifiedBus g
  else tabPins t.

(** Down the index along chosen keys. *)
Fixpoint hnav (path : list string) (t : HTree) : Res HTree :=
  match path with
  | [] => Ok t
  | k :: path' => t' <- dict_at k (hchildren t) ;; hnav path' t'
  end.

Definition multiOrSingle (s : Session) : bool :=
  timingTabMultiEnable s || (specifiedCellCount s =? 1)%Z.

(** [updateTimingTabBundleCombo] and [updateTimingTabBusCombo]: the first
    cell that has the key gives the items. *)
Definition groupCombo (kind : GroupKind) (s : Session) : list string :=
  if multiOrSingle s then
    match
      find (fun c => match tabGroups kind (snd c) with
                     | Ok _ => true | Err _ => false end)
           (allCells (timingTabDic s))
    with
    | Some c =>
        match tabGroups kind (snd c) with
        | Ok g => EmptyString :: pySet (dict_keys g)
        | Err _ => []
        end
    | None => []
    end
  else [].

Definition updateTimingTabBundleCombo : Session -> list string :=
  groupCombo Bundle.
Definition updateTimingTabBusCombo : Session -> list string :=
  groupCombo Bus.

(** [updateTimingTabPinCombo]. *)
Definition updateTimingTabPinCombo (s : Session) (sel : Selectors)
  : Res (list string) :=
  if multiOrSingle s then
    match firstCell (timingTabDic s) with
    | Some t =>
        let specifiedBundle := pyStrip (sel_bundle sel) in
        let specifiedBus := pyStrip (sel_bus sel) in
        if negb (strEmpty specifiedBundle) || negb (strEmpty specifiedBus)
        then p <- scopePins t specifiedBundle specifiedBus ;;
             Ok (pySet (dict_keys p))
        else match tabPins t with
             | Ok p => Ok (pySet (dict_keys p))
             | Err _ => Ok []
             end
    | None => Ok []
    end
  else Ok [].

(** The stages from ['related_pin'] to ['table_type'] are one text with a
    longer and longer chain of keys: the keys of the index of the chosen
    pin below [path], nothing when the pin has no index. *)
Definition stageItems (s : Session) (sel : Selectors) (path : list string)
  : Res (list string) :=
  if multiOrSingle s then
    match firstCell (timingTabDic s) with
    | Some t =>
        pins <- scopePins t (pyStrip (sel_bundle sel)) (pyStrip (sel_bus sel)) ;;
        pin <- dict_at (pyStrip (sel_pin sel)) pins ;;
        match pin with
        | Some idx => node <- hnav path idx ;; Ok (pySet (dict_keys (hchildren node)))
        | None => Ok []
        end
    | None => Ok []
    end
  else Ok [].

Definition updateTimingTabRelatedPinCombo s sel := stageItems s sel [].

Definition updateTimingTabRelatedPgPinCombo s sel :=
  stageItems s sel [pyStrip (sel_related_pin sel)].

Definition updateTimingTabTimingSenseCombo s sel :=
  stageItems s sel
    [pyStrip (sel_related_pin sel); pyStrip (sel_related_pg_pin sel)].

Definition updateTimingTabTimingTypeCombo s sel :=
  stageItems s sel
    [pyStrip (sel_related_pin sel); pyStrip (sel_related_pg_pin sel);
     pyStrip (sel_timing_sense sel)].

Definition updateTimingTabWhenCombo s sel :=
  stageItems s sel
    [pyStrip (sel_related_pin sel); pyStrip (sel_related_pg_pin sel);
     pyStrip (sel_timing_sense sel); pyStrip (sel_timing_type sel)].

Definition selPath (sel : Selectors) : list string :=
  [pyStrip (sel_related_pin sel); pyStrip (sel_related_pg_pin sel);
   pyStrip (sel_timing_sense sel); pyStrip (sel_timing_type sel);
   pyStrip (sel_when sel)].

Definition updateTimingTabTableTypeCombo s sel := stageItems s sel (selPath sel).

(** [updateTimingTabIndexCombo]: the items of the two index combo boxes,
    positions written as numbers after the empty item. *)
Definition updateTimingTabIndexCombo (s : Session) (sel : Selectors)
  : Res (list string * list string) :=
  if multiOrSingle s then
    match firstCell (timingTabDic s) with
    | Some t =>
        pins <- scopePins t (pyStrip (sel_bundle sel)) (pyStrip (sel_bus sel)) ;;
        pin <- dict_at (pyStrip (sel_pin sel)) pins ;;
        match pin with
        | Some idx =>
            leaf <- hnav (selPath sel ++ [pyStrip (sel_table_type sel)]) idx ;;
            match leaf with
            | HLeaf n1 n2 =>
                Ok (EmptyString :: map strOfNat (seq 0 n1),
                    EmptyString :: map strOfNat (seq 0 n2))
            | HNode _ => Err (KeyError "index_1")
            end
        | None => Ok ([EmptyString], [EmptyString])
        end
    | None => Ok ([], [])
    end
  else Ok ([], []).

(** *** Timing: the table *)

Definition groupsOf (kind : GroupKind) (c : ProjCell)
  : Res (Dict (Dict ProjPin)) :=
  match (match kind with Bundle => pc_bundle c | Bus => pc_bus c end) with
  | Some g => Ok g
  | None => Err (KeyError (kindKey kind))
  end.

(** The flat list of the chosen pin of a cell of [specifiedLibDic]; the
    empty list when the pin has no ['timing']. *)
Definition pinTimingList (c : ProjCell)
  (specifiedBundle specifiedBus pinName : string) : Res (list Arc) :=
  pins <-
    (if negb (strEmpty specifiedBundle) then
       g <- groupsOf Bundle c ;; dict_at specifiedBundle g
     else if negb (strEmpty specifiedBus) then
       g <- groupsOf Bus c ;; dict_at specifiedBus g
     else match pc_pin c with
          | Some p => Ok p
          | None => Err (KeyError "pin")
          end) ;;
  pin <- dict_at pinName pins ;;
  Ok (optOr (pp_timing pin) []).

(** The test of the loop over the flat list. *)
Definition arcMatches (sel : Selectors) (a : Arc) : bool :=
  String.eqb (pyStrip (sel_related_pin sel)) (related_pin a)
  && String.eqb (pyStrip (sel_related_pg_pin sel)) (related_pg_pin a)
  && String.eqb (pyStrip (sel_timing_sense sel)) (timing_sense a)
  && String.eqb (pyStrip (sel_timing_type sel)) (timing_type a)
  && String.eqb (pyStrip (sel_when sel)) (when a).

(** [numpy.array(rows, dtype='float64')]: the rows must have one length. *)
Definition npArray (rows : list (list string)) : Res (list (list PyFloat)) :=
  match rows with
  | [] => Ok []
  | r :: rest =>
      if forallb (fun r' => Nat.eqb (length r') (length r)) rest
      then mapRes (mapRes pyfloat) rows
      else Err ValueError
  end.

(** What [updateTimingTabTable] leaves for one cell: the three lists of
    the entry found, the lists of the curve, the arrays of the surface. *)
Record SingleTable : Type := {
  st_index1List : list string;
  st_index2List : list string;
  st_valuesList : list (list string);
  st_figureXList : list PyFloat;
  st_figureYList : list PyFloat;
  st_figureXArray : list (list PyFloat);
  st_figureYArray : list (list PyFloat);
  st_figureZArray : list (list PyFloat)
}.

Definition emptySingle : SingleTable :=
  {| st_index1List := []; st_index2List := []; st_valuesList := [];
     st_figureXList := []; st_figureYList := [];
     st_figureXArray := []; st_figureYArray := []; st_figureZArray := [] |}.

(** One round of the loop over the flat list, one cell selected. *)
Definition singleStep (sel : Selectors) (st : SingleTable) (a : Arc)
  : Res SingleTable :=
  if arcMatches sel a then
    t <- dict_at (pyStrip (sel_table_type sel)) (table_type a) ;;
    let i1 := pyStrip (sel_index_1 sel) in
    let i2 := pyStrip (sel_index_2 sel) in
    if negb (strEmpty i1) && strEmpty i2 then
      xs <- mapRes pyfloat (index_2 t) ;;
      i <- pyint i1 ;;
      row <- list_at (values t) i ;;
      ys <- mapRes pyfloat row ;;
      Ok {| st_index1List := index_1 t; st_index2List := index_2 t;
            st_valuesList := values t;
            st_figureXList := xs; st_figureYList := ys;
            st_figureXArray := st_figureXArray st;
            st_figureYArray := st_figureYArray st;
            st_figureZArray := st_figureZArray st |}
    else if strEmpty i1 && negb (strEmpty i2) then
      xs <- mapRes pyfloat (index_1 t) ;;
      j <- pyint i2 ;;
      ys <- mapRes (fun valueList => v <- list_at valueList j ;; pyfloat v)
                   (values t) ;;
      Ok {| st_index1List := index_1 t; st_index2List := index_2 t;
            st_valuesList := values t;
            st_figureXList := xs;
            st_figureYList := st_figureYList st ++ ys;
            st_figureXArray := st_figureXArray st;
            st_figureYArray := st_figureYArray st;
            st_figureZArray := st_figureZArray st |}
    else if strEmpty i1 && strEmpty i2 then
      xa <- npArray (map (fun x => repeat x (length (index_2 t))) (index_1 t)) ;;
      ya <- npArray (repeat (index_2 t) (length (index_2 t))) ;;
      za <- npArray (values t) ;;
      Ok {| st_index1List := index_1 t; st_index2List := index_2 t;
            st_valuesList := values t;
            st_figureXList := st_figureXList st;
            st_figureYList := st_figureYList st;
            st_figureXArray := xa; st_figureYArray := ya;
            st_figureZArray := za |}
    else
      Ok {| st_index1List := index_1 t; st_index2List := index_2 t;
            st_valuesList := values t;
            st_figureXList := st_figureXList st;
            st_figureYList := st_figureYList st;
            st_figureXArray := st_figureXArray st;
            st_figureYArray := st_figureYArray st;
            st_figureZArray := st_figureZArray st |}
  else Ok st.

(** The loop over the flat list of the one selected cell. *)
Definition resolveSingle (sel : Selectors) (pinTimingDicList : list Arc)
  : Res SingleTable :=
  foldRes (singleStep sel) pinTimingDicList emptySingle.

(** The items the table widget gets: [valuesList] when [index1List] is
    not empty. *)
Definition tableItems (st : SingleTable) : list (list string) :=
  match st_index1List st with
  | [] => []
  | _ => st_valuesList st
  end.

(** An index of the comparison: the text of the combo box, or the number
    [0] it is replaced by. *)
Inductive IndexSel : Type :=
| IndexText (s : string)
| IndexInt (z : Z).

Definition indexUnset (i : IndexSel) : bool :=
  match i with IndexText s => strEmpty s | IndexInt _ => false end.

Definition indexInt (i : IndexSel) : Res Z :=
  match i with IndexText s => pyint s | IndexInt z => Ok z end.

Definition defaultIndex (i : IndexSel) : IndexSel :=
  if indexUnset i then IndexInt 0 else i.

Record TimingRow : Type := {
  tr_lib : string;
  tr_cell : string;
  tr_index_1 : string;
  tr_index_2 : string;
  tr_value : string
}.

(** What the comparison carries from cell to cell: the two indices, the
    rows, the values of the curve. *)
Record MultiState : Type := {
  ms_index1 : IndexSel;
  ms_index2 : IndexSel;
  ms_rows : list TimingRow;
  ms_figureYList : list PyFloat
}.

(** One round of the loop over the flat list of one cell, several cells
    selected. *)
Definition multiStep (sel : Selectors) (libraryFileName cellName : string)
  (st : MultiState) (a : Arc) : Res MultiState :=
  if arcMatches sel a then
    let i1 := defaultIndex (ms_index1 st) in
    let i2 := defaultIndex (ms_index2 st) in
    if negb (indexUnset i1) then
      t <- dict_at (pyStrip (sel_table_type sel)) (table_type a) ;;
      ' (timingIndex1, timingIndex2, timingValue) <-
        (if negb (indexUnset i2) then
           i <- indexInt i1 ;;
           x1 <- list_at (index_1 t) i ;;
           x2 <- (if 0 <? length (index_2 t)
                  then j <- indexInt i2 ;; list_at (index_2 t) j
                  else Ok EmptyString) ;;
           row <- list_at (values t) i ;;
           j <- indexInt i2 ;;
           v <- list_at row j ;;
           Ok (x1, x2, v)
         else
           i <- indexInt i1 ;;
           x1 <- list_at (index_1 t) i ;;
           row <- list_at (values t) 0%Z ;;
           v <- list_at row i ;;
           Ok (x1, EmptyString, v)) ;;
      y <- pyfloat timingValue ;;
      Ok {| ms_index1 := i1; ms_index2 := i2;
            ms_rows := ms_rows st ++
              [{| tr_lib := libraryFileName; tr_cell := cellName;
                  tr_index_1 := timingIndex1; tr_index_2 := timingIndex2;
                  tr_value := timingValue |}];
            ms_figureYList := ms_figureYList st ++ [y] |}
    else
      Ok {| ms_index1 := i1; ms_index2 := i2;
            ms_rows := ms_rows st; ms_figureYList := ms_figureYList st |}
  else Ok st.

(** One round of the loop over the cells. *)
Definition multiCell (spec : Dict (Dict ProjCell)) (sel : Selectors)
  (st : MultiState) (cell : string * string * TabCell) : Res MultiState :=
  let '(libraryFileName, cellName, _) := cell in
  cells <- dict_at libraryFileName spec ;;
  c <- dict_at cellName cells ;;
  l <- pinTimingList c (pyStrip (sel_bundle sel)) (pyStrip (sel_bus sel))
         (pyStrip (sel_pin sel)) ;;
  foldRes (multiStep sel libraryFileName cellName) l st.

Inductive TimingResult : Type :=
| NoTable
| OneCell (t : SingleTable)
| Comparison (rows : list TimingRow) (figureYList : list PyFloat).

(** [sorted(d.keys())[0]]. *)
Definition firstSortedKey {V : Type} (d : Dict V) : Res string :=
  list_at (pySort String.leb (dict_keys d)) 0%Z.

(** [updateTimingTabTable]. *)
Definition updateTimingTabTable (s : Session) (sel : Selectors)
  : Res TimingResult :=
  if multiOrSingle s then
    if (specifiedCellCount s =? 1)%Z then
      libraryFileName <- firstSortedKey (specifiedLibDic s) ;;
      cells <- dict_at libraryFileName (specifiedLibDic s) ;;
      cellName <- firstSortedKey cells ;;
      c <- dict_at cellName cells ;;
      l <- pinTimingList c (pyStrip (sel_bundle sel)) (pyStrip (sel_bus sel))
             (pyStrip (sel_pin sel)) ;;
      t <- resolveSingle sel l ;;
      Ok (OneCell t)
    else if timingTabMultiEnable s then
      st <- foldRes (multiCell (specifiedLibDic s) sel)
              (allCells (timingTabDic s))
              {| ms_index1 := IndexText (pyStrip (sel_index_1 sel));
                 ms_index2 := IndexText (pyStrip (sel_index_2 sel));
                 ms_rows := []; ms_figureYList := [] |} ;;
      Ok (Comparison (ms_rows st) (ms_figureYList st))
    else Ok NoTable
  else Ok NoTable.
(** ** Reference units as the specification words them *)

(** The unit a library reports under [key], stripped; empty when the
    library reports none. *)
Definition reportedUnit (key : string) (p : Parser) : string :=
  match dict_get key (getUnit p) with
  | Some u => stripUnit u
  | None => EmptyString
  end.

(** The first text of a list that is not empty. *)
Definition firstNonEmpty (l : list string) : string :=
  hd EmptyString (filter (fun u => negb (strEmpty u)) l).

(** The unit of the first library that reports [key] at all: the reading
    of the specification, section 4.1. *)
Fixpoint firstReported (key : string) (ps : list Parser) : string :=
  match ps with
  | [] => EmptyString
  | p :: ps' =>
      match dict_get key (getUnit p) with
      | Some u => stripUnit u
      | None => firstReported key ps'
      end
  end.

(** ** Data for the examples *)

(** A text between double quotes, as the parser hands out attribute
    values. *)
Definition quoted (s : string) : string :=
  String chQuote (s +s+ String chQuote EmptyString).

Definition noPins : LibPinDic := None.

(** A parser that reports [units] and no cells. *)
Definition unitParser (units : Dict string) : Parser :=
  {| getCellList := []; getUnit := units; getCellArea := [];
     getCellLeakagePower := []; getLibPinInfo := noPins |}.

(** The library [a.lib] writes its leakage-power unit as the bare number
    1, any other library writes 1nW and 1ns. *)
Definition unitlessFirst (libraryFile : string) : Parser :=
  if String.eqb (basename libraryFile) "a.lib"
  then unitParser [("leakage_power_unit"%string, quoted "1")]
  else unitParser [("leakage_power_unit"%string, quoted "1nW");
                   ("time_unit"%string, quoted "1ns")].

(** The library [a.lib] reports mW and ns, any other library uW and ps. *)
Definition mixedUnits (libraryFile : string) : Parser :=
  if String.eqb (basename libraryFile) "a.lib"
  then unitParser [("leakage_power_unit"%string, quoted "1mW");
                   ("time_unit"%string, quoted "1ns")]
  else unitParser [("leakage_power_unit"%string, quoted "1uW");
                   ("time_unit"%string, quoted "1ps")].

(** ** The selection as the specification words it *)

(** The (library, cell) pairs stored in the selection. *)
Definition selectedPairs (spec : Dict (Dict ProjCell)) : list (string * string) :=
  map fst (allCells spec).

(** The number of cells stored below the libraries. *)
Definition cellTotal (spec : Dict (Dict ProjCell)) : nat :=
  list_sum (map (fun kv => length (snd kv)) spec).

(** What the loop keeps true. *)
Record SelectionOk (spec : Dict (Dict ProjCell)) (count : Z) : Prop := {
  sel_count : count = Z.of_nat (cellTotal spec);
  sel_nonEmpty : Forall (fun kv => snd kv <> []) spec;
  sel_libs : NoDup (dict_keys spec);
  sel_cells : Forall (fun kv => NoDup (dict_keys (snd kv))) spec
}.

(** A click sets the check state of the cells of a name in a library;
    every click is followed by a pass over the tree. *)
Definition setCheck (lib cell : string) (state : CheckState) (t : Tree) : Tree :=
  map (fun l =>
         (fst l,
          if String.eqb (fst l) lib
          then map (fun c => if String.eqb (fst c) cell
                             then (fst c, state) else c) (snd l)
          else snd l))
      t.

Definition clicks (events : list (string * string * CheckState)) (t : Tree)
  : Tree :=
  fold_left (fun t e => setCheck (fst (fst e)) (snd (fst e)) (snd e) t)
            events t.

(** A tree with two libraries. *)
Definition twoLibTree : Tree :=
  [("a.lib"%string,
    [("INVD1BWP"%string, Unchecked); ("INVD2BWP"%string, Unchecked)]);
   ("b.lib"%string, [("BUFD4BWP"%string, Unchecked)])].

(** ** Lookup in the raw list *)

(** The entry at row [i] and column [j]. *)
Definition itemAt (rows : list (list string)) (i j : nat) : option string :=
  match nth_error rows i with
  | Some r => nth_error r j
  | None => None
  end.

(** A raw timing entry has the chosen discriminators, absent fields
    read as N/A and quotes left out. *)
Definition rawMatches (sel : Selectors) (a : RawArc) : bool :=
  String.eqb (pyStrip (sel_related_pin sel)) (getField (raw_related_pin a))
  && String.eqb (pyStrip (sel_related_pg_pin sel))
                (getField (raw_related_pg_pin a))
  && String.eqb (pyStrip (sel_timing_sense sel))
                (getField (raw_timing_sense a))
  && String.eqb (pyStrip (sel_timing_type sel))
                (getField (raw_timing_type a))
  && String.eqb (pyStrip (sel_when sel)) (getField (raw_when a)).

(** The entry of the raw list the discriminators select: the last one
    that has them. *)
Definition rawEntry (sel : Selectors) (raws : list RawArc) : option RawArc :=
  find (rawMatches sel) (rev raws).

(** The scalar of the raw list at the discriminators, the table type and
    the two positions. *)
Definition rawScalar (sel : Selectors) (raws : list RawArc) (i j : nat)
  : option string :=
  match rawEntry sel raws with
  | Some a =>
      match dict_get (pyStrip (sel_table_type sel)) (raw_table_type a) with
      | Some block => itemAt (parseValues (raw_values block)) i j
      | None => None
      end
  | None => None
  end.

(** The table of the specification, section 8, as the parser hands it
    out. *)
Definition specTable : RawTable :=
  {| raw_index_1 := Some ("(" +s+ quoted "1, 2" +s+ ")");
     raw_index_2 := Some ("(" +s+ quoted "0.1, 0.2" +s+ ")");
     raw_values :=
       Some ("(" +s+ quoted "10, 20" +s+ ", " +s+ quoted "30, 40" +s+ ")") |}.

(** A timing entry from pin A with that table as [cell_rise]. *)
Definition specArc : RawArc :=
  {| raw_related_pin := Some (quoted "A");
     raw_related_pg_pin := None;
     raw_timing_sense := Some "positive_unate"%string;
     raw_timing_type := None;
     raw_when := None;
     raw_table_type := [("cell_rise"%string, specTable)] |}.

(** The choice of that entry; the two index boxes hold [i1] and [i2]. *)
Definition specSel (i1 i2 : string) : Selectors :=
  {| sel_bundle := EmptyString; sel_bus := EmptyString;
     sel_pin := "Z"; sel_related_pin := "A"; sel_related_pg_pin := "N/A";
     sel_timing_sense := "positive_unate"; sel_timing_type := "N/A";
     sel_when := "N/A"; sel_table_type := "cell_rise";
     sel_index_1 := i1; sel_index_2 := i2 |}.

(** A timing entry with a constraint table and its sigma table under the
    name the library format gives it. *)
Definition constraintArc : RawArc :=
  {| raw_related_pin := Some (quoted "CK");
     raw_related_pg_pin := None;
     raw_timing_sense := None;
     raw_timing_type := Some "setup_rising"%string;
     raw_when := None;
     raw_table_type :=
       [("rise_constraint"%string, specTable);
        ("ocv_sigma_rise_constraint"%string, specTable)] |}.

(** ** A library for the examples *)

(** The table of [specArc] with other numbers. *)
Definition otherTable : RawTable :=
  {| raw_index_1 := Some ("(" +s+ quoted "1, 2" +s+ ")");
     raw_index_2 := Some ("(" +s+ quoted "0.1, 0.2" +s+ ")");
     raw_values :=
       Some ("(" +s+ quoted "11, 21" +s+ ", " +s+ quoted "31, 41" +s+ ")") |}.

Definition otherArc : RawArc :=
  {| raw_related_pin := Some (quoted "A");
     raw_related_pg_pin := None;
     raw_timing_sense := Some "positive_unate"%string;
     raw_timing_type := None;
     raw_when := None;
     raw_table_type := [("cell_rise"%string, otherTable)] |}.

Definition timedPin (arcs : list RawArc) : RawPin :=
  {| rawpin_timing := Some arcs; rawpin_internal_power := None |}.

Definition barePin : RawPin :=
  {| rawpin_timing := None; rawpin_internal_power := None |}.

Definition leakEntry (value whenText pgPin : string) : RawLeakage :=
  {| rawleak_value := Some value;
     rawleak_when := Some (quoted whenText);
     rawleak_related_pg_pin := Some (quoted pgPin) |}.

(** Four cells.  The two buffers have the timing of [specArc] and of
    [otherArc] at their output; the antenna cell has a pin and no timing;
    the register has a bundle with a timing entry of its own and a pin
    below it with one more.  The pg pin of the buffers is written with a
    blank after the name. *)
Definition demoParser : Parser :=
  {| getCellList := ["BUFX"; "ANTENNA"; "BUFY"; "REG"]%string;
     getUnit := [("leakage_power_unit"%string, quoted "1nW");
                 ("time_unit"%string, quoted "1ns")];
     getCellArea := [("BUFX", "1.0"); ("ANTENNA", "0.5"); ("BUFY", "2.0");
                     ("REG", "4.0")]%string;
     getCellLeakagePower :=
       [("BUFX"%string, [leakEntry "1.5" "A" "VDD "]);
        ("ANTENNA"%string, []);
        ("BUFY"%string, [leakEntry "2.5" "A" "VDD "]);
        ("REG"%string, [])];
     getLibPinInfo :=
       Some [("BUFX"%string, [RawPins [("Z"%string, timedPin [specArc])]]);
             ("ANTENNA"%string, [RawPins [("A"%string, barePin)]]);
             ("BUFY"%string, [RawPins [("Z"%string, timedPin [otherArc])]]);
             ("REG"%string,
              [RawBundle
                 [("Q"%string,
                   {| rawgrp_timing := Some [otherArc];
                      rawgrp_internal_power := None;
                      rawgrp_pin := Some [("Q0"%string, timedPin [specArc])]
                   |})]])] |}.

Definition withTree (t : Tree) (s : Session) : Session :=
  {| libDic := libDic s;
     cellListTree := t;
     specifiedLibDic := specifiedLibDic s;
     specifiedCellCount := specifiedCellCount s;
     leakagePowerTabDic := leakagePowerTabDic s;
     timingTabDic := timingTabDic s;
     internalPowerTabDic := internalPowerTabDic s;
     leakagePowerTabMultiEnable := leakagePowerTabMultiEnable s;
     timingTabMultiEnable := timingTabMultiEnable s;
     internalPowerTabMultiEnable := internalPowerTabMultiEnable s;
     leakagePowerUnit := leakagePowerUnit s;
     timingUnit := timingUnit s;
     internalPowerUnit := internalPowerUnit s |}.

(** The library is loaded, the cells of [checked] are checked one after
    the other, and the pass runs. *)
Definition demoLoaded : Session :=
  fst (loadLibFile (fun _ => demoParser) EmptyString "/lib/demo.lib" initVars).

Definition demoChecked (checked : list string) : Session :=
  withTree
    (clicks (map (fun c => ("demo.lib"%string, c, Checked)) checked)
            (cellListTree demoLoaded))
    demoLoaded.

Definition demoSession (checked : list string) : Res Session :=
  cellListBeClicked (demoChecked checked).

(** The lists of the curve when one cell is selected. *)
Definition figureLists (r : Res TimingResult)
  : option (list PyFloat * list PyFloat) :=
  match r with
  | Ok (OneCell t) => Some (st_figureXList t, st_figureYList t)
  | _ => None
  end.

(** The table of the widget when one cell is selected. *)
Definition shownTable (r : Res TimingResult) : option (list (list string)) :=
  match r with
  | Ok (OneCell t) => Some (tableItems t)
  | _ => None
  end.

(** The session a pass leaves behind with its projection forgotten. *)
Definition forgetProjection (s : Session) : Session :=
  {| libDic := libDic s;
     cellListTree := cellListTree s;
     specifiedLibDic := []; specifiedCellCount := 0;
     leakagePowerTabDic := []; timingTabDic := []; internalPowerTabDic := [];
     leakagePowerTabMultiEnable := false;
     timingTabMultiEnable := false;
     internalPowerTabMultiEnable := false;
     leakagePowerUnit := leakagePowerUnit s;
     timingUnit := timingUnit s;
     internalPowerUnit := internalPowerUnit s |}.

(** The session of an example, [initVars] standing for a pass that
    raised. *)
Definition sessionOf (r : Res Session) : Session :=
  match r with Ok s => s | Err _ => initVars end.

(** One buffer selected; the two buffers selected; the antenna cell and a
    buffer selected; the register selected. *)
Definition demoOne : Session := sessionOf (demoSession ["BUFX"%string]).
Definition demoPair : Session :=
  sessionOf (demoSession ["BUFX"; "BUFY"]%string).
Definition demoMixed : Session :=
  sessionOf (demoSession ["ANTENNA"; "BUFX"]%string).
Definition demoReg : Session := sessionOf (demoSession ["REG"%string]).

(** ** The structural check as the specification words it *)

Fixpoint dropWhile {A : Type} (p : A -> bool) (l : list A) : list A :=
  match l with
  | [] => []
  | a :: l' => if p a then dropWhile p l' else l
  end.

(** Every element after the first is equal to the first. *)
Definition allEqualToFirst {A : Type} (eqb : A -> A -> bool) (l : list A)
  : bool :=
  match l with
  | [] => true
  | a :: l' => forallb (eqb a) l'
  end.

(** The cells of a tab dictionary in selection order. *)
Definition tabCells {T : Type} (tabDic : Dict (Dict T)) : list T :=
  map snd (flat_map snd tabDic).

(** ** What a pass computes *)

(** The part of the session a pass computes. *)
Definition projectionOf (s : Session)
  : Dict (Dict ProjCell) * Z
    * (Dict (Dict LeakTab) * Dict (Dict TabCell) * Dict (Dict TabCell))
    * (bool * bool * bool) :=
  (specifiedLibDic s, specifiedCellCount s,
   (leakagePowerTabDic s, timingTabDic s, internalPowerTabDic s),
   (leakagePowerTabMultiEnable s, timingTabMultiEnable s,
    internalPowerTabMultiEnable s)).

Definition resMap {A B : Type} (f : A -> B) (r : Res A) : Res B :=
  match r with Ok a => Ok (f a) | Err e => Err e end.

(** The flat timing list of pin Q0 of bundle Q of the register. *)
Definition regList (s : Session) : Res (list Arc) :=
  cells <- dict_at "demo.lib" (specifiedLibDic s) ;;
  c <- dict_at "REG" cells ;;
  pinTimingList c "Q" EmptyString "Q0".

(** ** No match, as the specification words it *)

(** No entry of a flat timing list has the chosen discriminators. *)
Definition noArcMatches (sel : Selectors) (l : list Arc) : bool :=
  forallb (fun a => negb (arcMatches sel a)) l.

(** A leakage entry has the chosen condition and pg pin. *)
Definition leakMatches (w p : string) (e : Leakage) : bool :=
  String.eqb (leak_when e) w && String.eqb (leak_related_pg_pin e) p.

(** The cell has a leakage list, and no entry of it matches. *)
Definition noLeakMatches (w p : string) (c : ProjCell) : bool :=
  match leakage_power c with
  | Some l => forallb (fun e => negb (leakMatches w p e)) l
  | None => false
  end.

(** The row of a cell without a matching entry. *)
Definition defaultRow (w p : string) (cell : string * string * ProjCell)
  : LeakRow :=
  {| lr_lib := fst (fst cell); lr_cell := snd (fst cell);
     lr_when := w; lr_related_pg_pin := p; lr_value := LeakDefault |}.

(** A choice of the timing tab that names a related pin no entry has. *)
Definition strangerSel : Selectors :=
  {| sel_bundle := EmptyString; sel_bus := EmptyString;
     sel_pin := "Z"; sel_related_pin := "B"; sel_related_pg_pin := "N/A";
     sel_timing_sense := "positive_unate"; sel_timing_type := "N/A";
     sel_when := "N/A"; sel_table_type := "cell_rise";
     sel_index_1 := EmptyString; sel_index_2 := EmptyString |}.

(** The libraries of a selection with the names of their cells. *)
Definition shapeOf {V : Type} (spec : Dict (Dict V))
  : list (string * list string) :=
  map (fun kv => (fst kv, dict_keys (snd kv))) spec.

(** ** The index of a pin, read against its raw list *)

(** The node of an index at a chain of keys, if the chain is there. *)
Definition hfind (path : list string) (t : HTree) : option HTree :=
  match hnav path t with Ok n => Some n | Err _ => None end.

(** The number of discriminators of a family. *)
Definition pathLength (fam : Family) : nat :=
  match fam with Timing => 5 | InternalPower => 3 end.

(** The first discriminators of a raw entry are [p]. *)
Definition arcPrefix (fam : Family) (p : list string) (a : RawArc) : bool :=
  list_eqb String.eqb (firstn (length p) (arcPath fam a)) p.

(** A raw entry has the discriminators [p] and an accepted table block
    named [tableType]. *)
Definition hasTable (fam : Family) (p : list string) (tableType : string)
  (a : RawArc) : bool :=
  list_eqb String.eqb (arcPath fam a) p
  && isTableType (acceptedTableTypes fam) tableType
  && dict_mem tableType (raw_table_type a).

(** The block named [tableType] of the first raw entry that has one at
    the discriminators [p]. *)
Definition firstTable (fam : Family) (p : list string) (tableType : string)
  (raws : list RawArc) : option RawTable :=
  match find (hasTable fam p tableType) raws with
  | Some a => dict_get tableType (raw_table_type a)
  | None => None
  end.

(** The leaf the index holds for a table block. *)
Definition leafOf (t : RawTable) : HTree :=
  HLeaf (length (index_1 (parseTable t))) (length (index_2 (parseTable t))).

(** ** The selection, read against the tree *)

Definition isChecked (state : CheckState) : bool :=
  match state with Checked => true | _ => false end.

(** The names of the checked cells of a library, from top to bottom. *)
Definition checkedCells (cells : list (string * CheckState)) : list string :=
  map fst (filter (fun c => isChecked (snd c)) cells).

(** The entry of the selection for a library with these cells: none when
    there is no cell. *)
Definition libGroup (lib : string) (cells : list string)
  : Dict (Dict ProjCell) :=
  match cells with
  | [] => []
  | _ => [(lib, map (fun c => (c, emptyCell)) cells)]
  end.

(** The libraries that have a checked cell, each with its checked cells,
    the records still empty. *)
Definition checkedTree (t : Tree) : Dict (Dict ProjCell) :=
  flat_map (fun lib => libGroup (fst lib) (checkedCells (snd lib))) t.

(** The number of checked cells. *)
Definition checkedCount (t : Tree) : Z :=
  Z.of_nat (length (flat_map (fun lib => checkedCells (snd lib)) t)).

(** ** The pass, read against the parsers *)

Definition isOk {A : Type} (r : Res A) : bool :=
  match r with Ok _ => true | Err _ => false end.

(** The cells of [libPinDic]. *)
Definition pinHas (d : LibPinDic) (cell : string) : bool :=
  match d with Some cells => dict_mem cell cells | None => false end.



(** The record of a cell holds the area and the leakage entries the
    parser has for it. *)
Definition recordOf (p : Parser) (cell : string) (c : ProjCell) : Prop :=
  exists a raws,
    dict_get cell (getCellArea p) = Some a
    /\ dict_get cell (getCellLeakagePower p) = Some raws
    /\ area c = Some a
    /\ leakage_power c = Some (map flatLeakage raws).

(** The leakage index of a cell when [count] cells are selected. *)
Definition leakTabOf (count : Z) (p : Parser) (cell : string) : LeakTab :=
  if (2 <=? count)%Z
  then fold_left addLeakTab
         (map flatLeakage (optOr (dict_get cell (getCellLeakagePower p)) []))
         []
  else [].

(** Two records of a cell with the same area and leakage list. *)
Definition baseEq (c c' : ProjCell) : Prop :=
  area c = area c' /\ leakage_power c = leakage_power c'.

(** The record a pass stores for a cell of a library, against the record
    of the selection it replaces. *)
Definition storedCell (p : Parser) (kv kv' : string * ProjCell) : Prop :=
  fst kv' = fst kv /\ recordOf p (fst kv) (snd kv').

Definition storedLib (libs : Dict LibEntry)
  (kv kv' : string * Dict ProjCell) : Prop :=
  fst kv' = fst kv
  /\ exists e,
       dict_get (fst kv) libs = Some e
       /\ Forall2 (storedCell (parser e)) (snd kv) (snd kv').

(** The leakage indices of the cells of a library. *)
Definition leakTabLib (count : Z) (libs : Dict LibEntry)
  (kv : string * Dict ProjCell) : string * Dict LeakTab :=
  (fst kv,
   match dict_get (fst kv) libs with
   | Some e =>
       map (fun c => (fst c, leakTabOf count (parser e) (fst c))) (snd kv)
   | None => []
   end).

(** The record of a cell of the selection, the empty record when the
    cell is not selected. *)
Definition cellRecord (s : Session) (lib cell : string) : ProjCell :=
  optOr (dict_get cell (optOr (dict_get lib (specifiedLibDic s)) []))
        emptyCell.



(** ** The area tab and the two lines of the main frame *)

Record AreaRow : Type := {
  ar_lib : string;
  ar_cell : string;
  ar_area : string
}.

Definition areaOf (c : ProjCell) : Res string :=
  match area c with
  | Some a => Ok a
  | None => Err (KeyError "area")
  end.

(** [updateAreaTabTable]: the rows of the table and the values of the
    curve. *)
Definition updateAreaTabTable (s : Session)
  : Res (list AreaRow * list PyFloat) :=
  foldRes
    (fun acc cell =>
       let '(libraryFileName, cellName, c) := cell in
       cellArea <- areaOf c ;;
       y <- pyfloat cellArea ;;
       Ok (fst acc ++ [{| ar_lib := libraryFileName; ar_cell := cellName;
                          ar_area := cellArea |}],
           snd acc ++ [y]))
    (allCells (specifiedLibDic s)) ([], []).

(** [updateAreaTabFigure]: the curve is drawn for two cells or more. *)
Definition areaFigureDrawn (s : Session) (figureXList : list PyFloat) : bool :=
  (1 <? specifiedCellCount s)%Z && (0 <? length figureXList)%nat.

(** [sep.join(l)]. *)
Fixpoint join (sep : string) (l : list string) : string :=
  match l with
  | [] => EmptyString
  | [x] => x
  | x :: l' => x +s+ sep +s+ join sep l'
  end.

(** The two lists of [updateMainFrameLibCell]: a name is appended unless
    it is in the list. *)
Definition specifiedLists (s : Session) : list string * list string :=
  fold_left
    (fun acc cell =>
       let '(libraryFileName, cellName, _) := cell in
       (addKey (fst acc) libraryFileName, addKey (snd acc) cellName))
    (allCells (specifiedLibDic s)) ([], []).

(** [updateMainFrameLibCell]: the texts of the two lines. *)
Definition updateMainFrameLibCell (s : Session) : string * string :=
  (join " " (fst (specifiedLists s)), join " " (snd (specifiedLists s))).

(** ** The leakage tab, read against the entries *)

(** The row of an entry in the table of all entries. *)
Definition entryRow (lib cell : string) (e : Leakage) : LeakRow :=
  {| lr_lib := lib; lr_cell := cell; lr_when := leak_when e;
     lr_related_pg_pin := leak_related_pg_pin e;
     lr_value := LeakString (leak_value e) |}.

(** The rows of all entries of a cell. *)
Definition entryRows (cell : string * string * ProjCell) : list LeakRow :=
  map (entryRow (fst (fst cell)) (snd (fst cell)))
      (optOr (leakage_power (snd cell)) []).

(** The pg pins of the entries with the condition [w], in order. *)
Definition pgPinsOf (w : string) (l : list Leakage) : list string :=
  map leak_related_pg_pin (filter (fun e => String.eqb (leak_when e) w) l).

(** A row of the area table shows a cell of the selection. *)
Definition areaRowOf (cell : string * string * ProjCell) (r : AreaRow) : Prop :=
  ar_lib r = fst (fst cell)
  /\ ar_cell r = snd (fst cell)
  /\ area (snd cell) = Some (ar_area r).

(** The values of the entries of a cell, as numbers. *)
Definition entryValues (cell : string * string * ProjCell)
  : Res (list PyFloat) :=
  mapRes (fun e => pyfloat (leak_value e))
         (optOr (leakage_power (snd cell)) []).

(** The row of a cell in the area table. *)
Definition areaRow (cell : string * string * ProjCell) : AreaRow :=
  {| ar_lib := fst (fst cell); ar_cell := snd (fst cell);
     ar_area := optOr (area (snd cell)) EmptyString |}.

(** ** More data for the examples *)




(** ** Selection by pattern: [selectCell] *)

Definition chStar : ascii := "*"%char.
Definition chDot : ascii := "."%char.

(** [re.search] of a star. *)
Fixpoint containsStar (s : string) : bool :=
  match s with
  | EmptyString => false
  | String c s' => Ascii.eqb c chStar || containsStar s'
  end.

(** [re.sub] of every star by a dot and a star. *)
Fixpoint starToRegex (s : string) : string :=
  match s with
  | EmptyString => EmptyString
  | String c s' =>
      if Ascii.eqb c chStar
      then String chDot (String chStar (starToRegex s'))
      else String c (starToRegex s')
  end.

(** The patterns of the line: its words, stars rewritten. *)
Definition selectPatterns (cellSelectString : string) : list string :=
  map (fun p => if containsStar p then starToRegex p else p)
      (pySplit (pyStrip cellSelectString)).

(** What [selectCell] does before a pattern is tried: a checked item is
    unchecked. *)
Definition uncheck (state : CheckState) : CheckState :=
  match state with Checked => Unchecked | _ => state end.

Section SelectCell.

(** The regular expressions of the library [re] are not part of the
    program: [reMatch p name] stands for the test whether
    [re.match('^' + p + '$', name)] finds a match, an exception of the
    library being an [Err]. *)
Variable reMatch : string -> string -> Res bool.

(** The loop over the patterns; the first that matches ends it. *)
Fixpoint anyMatch (selectedCellList : list string) (cellName : string)
  : Res bool :=
  match selectedCellList with
  | [] => Ok false
  | selectedCell :: rest =>
      m <- reMatch selectedCell cellName ;;
      if m then Ok true else anyMatch rest cellName
  end.

(** One cell item. *)
Definition selectItemState (selectedCellList : list string)
  (item : string * CheckState) : Res (string * CheckState) :=
  m <- anyMatch selectedCellList (fst item) ;;
  Ok (fst item, if m then Checked else uncheck (snd item)).

(** The loop over the items of the tree; the items of the libraries have
    no parent and are left alone. *)
Definition selectTree (selectedCellList : list string) (t : Tree) : Res Tree :=
  mapRes
    (fun lib =>
       cells <- mapRes (selectItemState selectedCellList) (snd lib) ;;
       Ok (fst lib, cells))
    t.

(** [selectCell]; [cellSelectString] is the text of the line. *)
Definition selectCell (cellSelectString : string) (s : Session)
  : Res Session :=
  t <- selectTree (selectPatterns cellSelectString) (cellListTree s) ;;
  cellListBeClicked (withTree t s).

(** The items a pattern of the list matches, in tree order. *)
Definition matchedPairs (selectedCellList : list string) (t : Tree)
  : list (string * string) :=
  flat_map
    (fun lib =>
       map (fun c => (fst lib, fst c))
           (filter (fun c => match anyMatch selectedCellList (fst c) with
                             | Ok true => true
                             | _ => false
                             end)
                   (snd lib)))
    t.

(** The item as the loop leaves it. *)
Definition newState (selectedCellList : list string)
  (c : string * CheckState) : string * CheckState :=
  (fst c,
   match anyMatch selectedCellList (fst c) with
   | Ok true => Checked
   | _ => uncheck (snd c)
   end).

Definition isMatched (selectedCellList : list string)
  (c : string * CheckState) : bool :=
  match anyMatch selectedCellList (fst c) with
  | Ok true => true
  | _ => false
  end.

End SelectCell.

(** *** Patterns without operators

    The patterns a user types are names with stars, which become
    sequences of literal characters, dots and dot-stars.  For these the
    test of [re.match] is the following: a dot matches any character but
    the newline, the dollar matches at the end and before a newline that
    ends the name. *)

Inductive PatAtom : Type :=
| PLit (c : ascii)
| PAny
| PAnyStar.

Definition isOperator (c : ascii) : bool :=
  existsb (Ascii.eqb c)
    ["\"; "^"; "$"; "+"; "?"; "{"; "}"; "["; "]"; "("; ")"; "|"]%char.

(** The atoms of a pattern; [None] when the pattern has an operator of
    the library that is not modelled here. *)
Fixpoint patAtoms (p : string) : option (list PatAtom) :=
  match p with
  | EmptyString => Some []
  | String c p' =>
      if isOperator c then None
      else if Ascii.eqb c chDot then
        match p' with
        | String d p'' =>
            if Ascii.eqb d chStar
            then option_map (cons PAnyStar) (patAtoms p'')
            else option_map (cons PAny) (patAtoms p')
        | EmptyString => Some [PAny]
        end
      else if Ascii.eqb c chStar then None
      else option_map (cons (PLit c)) (patAtoms p')
  end.

Definition isLineFeed (c : ascii) : bool := Nat.eqb (nat_of_ascii c) 10.

(** The dollar. *)
Definition atEnd (s : string) : bool :=
  match s with
  | EmptyString => true
  | String c EmptyString => isLineFeed c
  | _ => false
  end.

Fixpoint atomsMatch (p : list PatAtom) (s : string) : bool :=
  match p with
  | [] => atEnd s
  | PLit c :: p' =>
      match s with
      | String d s' => Ascii.eqb c d && atomsMatch p' s'
      | EmptyString => false
      end
  | PAny :: p' =>
      match s with
      | String d s' => negb (isLineFeed d) && atomsMatch p' s'
      | EmptyString => false
      end
  | PAnyStar :: p' =>
      (fix star (s : string) : bool :=
         atomsMatch p' s
         || match s with
            | String d s' => negb (isLineFeed d) && star s'
            | EmptyString => false
            end) s
  end.

(** The test for patterns without operators; such a pattern raises
    nothing. *)
Definition plainMatch (p name : string) : Res bool :=
  match patAtoms p with
  | Some atoms => Ok (atomsMatch atoms name)
  | None => Err ValueError
  end.

(** ** The comparison and the index boxes *)

(** The selectors with other texts in the two index boxes. *)
Definition withIndex (i1 i2 : string) (sel : Selectors) : Selectors :=
  {| sel_bundle := sel_bundle sel; sel_bus := sel_bus sel;
     sel_pin := sel_pin sel; sel_related_pin := sel_related_pin sel;
     sel_related_pg_pin := sel_related_pg_pin sel;
     sel_timing_sense := sel_timing_sense sel;
     sel_timing_type := sel_timing_type sel;
     sel_when := sel_when sel; sel_table_type := sel_table_type sel;
     sel_index_1 := i1; sel_index_2 := i2 |}.

(** The text of an index box, position 0 written out when the box is
    empty. *)
Definition normIndex (text : string) : string :=
  if strEmpty (pyStrip text) then "0"%string else text.

(** The position an index stands for in the comparison. *)
Definition idxVal (i : IndexSel) : Res Z := indexInt (defaultIndex i).

(** Two states of the comparison with the same rows and values, whose
    indices stand for the same positions. *)
Definition sameComparison (st st' : MultiState) : Prop :=
  ms_rows st = ms_rows st'
  /\ ms_figureYList st = ms_figureYList st'
  /\ idxVal (ms_index1 st) = idxVal (ms_index1 st')
  /\ idxVal (ms_index2 st) = idxVal (ms_index2 st').

Definition sameOutcome (r r' : Res MultiState) : Prop :=
  match r, r' with
  | Ok st, Ok st' => sameComparison st st'
  | Err e, Err e' => e = e'
  | _, _ => False
  end.
(** ** The comparison and the rows of the tables *)

(** The table of the chosen type of an entry has a row [i]: both
    [index_1[i]] and [values[i]] exist. *)
Definition hasRow (sel : Selectors) (i : Z) (a : Arc) : bool :=
  match dict_get (pyStrip (sel_table_type sel)) (table_type a) with
  | Some t => isOk (list_at (index_1 t) i) && isOk (list_at (values t) i)
  | None => false
  end.
(** ** The internal-power tab *)

(** The texts of the combo boxes of the internal-power tab. *)
Record PowerSelectors : Type := {
  ip_bundle : string;
  ip_bus : string;
  ip_pin : string;
  ip_related_pin : string;
  ip_related_pg_pin : string;
  ip_when : string;
  ip_table_type : string;
  ip_index_1 : string;
  ip_index_2 : string
}.

Definition powerMultiOrSingle (s : Session) : bool :=
  internalPowerTabMultiEnable s || (specifiedCellCount s =? 1)%Z.

(** [updateInternalPowerTabBundleCombo] and
    [updateInternalPowerTabBusCombo]: the first cell that has the key
    gives the items; no empty item is put in front of them. *)
Definition powerGroupCombo (kind : GroupKind) (s : Session) : list string :=
  if powerMultiOrSingle s then
    match
      find (fun c => match tabGroups kind (snd c) with
                     | Ok _ => true | Err _ => false end)
           (allCells (internalPowerTabDic s))
    with
    | Some c =>
        match tabGroups kind (snd c) with
        | Ok g => pySet (dict_keys g)
        | Err _ => []
        end
    | None => []
    end
  else [].

Definition updateInternalPowerTabBundleCombo : Session -> list string :=
  powerGroupCombo Bundle.
Definition updateInternalPowerTabBusCombo : Session -> list string :=
  powerGroupCombo Bus.

(** [updateInternalPowerTabPinCombo]. *)
Definition updateInternalPowerTabPinCombo (s : Session) (sel : PowerSelectors)
  : Res (list string) :=
  if powerMultiOrSingle s then
    match firstCell (internalPowerTabDic s) with
    | Some t =>
        let specifiedBundle := pyStrip (ip_bundle sel) in
        let specifiedBus := pyStrip (ip_bus sel) in
        if negb (strEmpty specifiedBundle) || negb (strEmpty specifiedBus)
        then p <- scopePins t specifiedBundle specifiedBus ;;
             Ok (pySet (dict_keys p))
        else match tabPins t with
             | Ok p => Ok (pySet (dict_keys p))
             | Err _ => Ok []
             end
    | None => Ok []
    end
  else Ok [].

(** The stages from ['related_pin'] to ['table_type']: the keys of the
    index of the chosen pin below [path], nothing when the pin has no
    index. *)
Definition powerStageItems (s : Session) (sel : PowerSelectors)
  (path : list string) : Res (list string) :=
  if powerMultiOrSingle s then
    match firstCell (internalPowerTabDic s) with
    | Some t =>
        pins <- scopePins t (pyStrip (ip_bundle sel)) (pyStrip (ip_bus sel)) ;;
        pin <- dict_at (pyStrip (ip_pin sel)) pins ;;
        match pin with
        | Some idx =>
            node <- hnav path idx ;; Ok (pySet (dict_keys (hchildren node)))
        | None => Ok []
        end
    | None => Ok []
    end
  else Ok [].

Definition updateInternalPowerTabRelatedPinCombo s sel :=
  powerStageItems s sel [].

Definition updateInternalPowerTabRelatedPgPinCombo s sel :=
  powerStageItems s sel [pyStrip (ip_related_pin sel)].

Definition updateInternalPowerTabWhenCombo s sel :=
  powerStageItems s sel
    [pyStrip (ip_related_pin sel); pyStrip (ip_related_pg_pin sel)].

Definition powerPath (sel : PowerSelectors) : list string :=
  [pyStrip (ip_related_pin sel); pyStrip (ip_related_pg_pin sel);
   pyStrip (ip_when sel)].

Definition updateInternalPowerTabTableTypeCombo s sel :=
  powerStageItems s sel (powerPath sel).

(** [updateInternalPowerTabIndexCombo]: the items of the two index combo
    boxes, positions written as numbers after the empty item. *)
Definition updateInternalPowerTabIndexCombo (s : Session)
  (sel : PowerSelectors) : Res (list string * list string) :=
  if powerMultiOrSingle s then
    match firstCell (internalPowerTabDic s) with
    | Some t =>
        pins <- scopePins t (pyStrip (ip_bundle sel)) (pyStrip (ip_bus sel)) ;;
        pin <- dict_at (pyStrip (ip_pin sel)) pins ;;
        match pin with
        | Some idx =>
            leaf <- hnav (powerPath sel ++ [pyStrip (ip_table_type sel)]) idx ;;
            match leaf with
            | HLeaf n1 n2 =>
                Ok (EmptyString :: map strOfNat (seq 0 n1),
                    EmptyString :: map strOfNat (seq 0 n2))
            | HNode _ => Err (KeyError "index_1")
            end
        | None => Ok ([EmptyString], [EmptyString])
        end
    | None => Ok ([], [])
    end
  else Ok ([], []).

(** The flat list of the chosen pin of a cell of [specifiedLibDic]; the
    empty list when the pin has no ['internal_power']. *)
Definition pinInternalPowerList (c : ProjCell)
  (specifiedBundle specifiedBus pinName : string) : Res (list Arc) :=
  pins <-
    (if negb (strEmpty specifiedBundle) then
       g <- groupsOf Bundle c ;; dict_at specifiedBundle g
     else if negb (strEmpty specifiedBus) then
       g <- groupsOf Bus c ;; dict_at specifiedBus g
     else match pc_pin c with
          | Some p => Ok p
          | None => Err (KeyError "pin")
          end) ;;
  pin <- dict_at pinName pins ;;
  Ok (optOr (pp_internal_power pin) []).

(** The test of the loop over the flat list: three discriminators. *)
Definition powerMatches (sel : PowerSelectors) (a : Arc) : bool :=
  String.eqb (pyStrip (ip_related_pin sel)) (related_pin a)
  && String.eqb (pyStrip (ip_related_pg_pin sel)) (related_pg_pin a)
  && String.eqb (pyStrip (ip_when sel)) (when a).

(** One round of the loop over the flat list, one cell selected. *)
Definition powerSingleStep (sel : PowerSelectors) (st : SingleTable) (a : Arc)
  : Res SingleTable :=
  if powerMatches sel a then
    t <- dict_at (pyStrip (ip_table_type sel)) (table_type a) ;;
    let i1 := pyStrip (ip_index_1 sel) in
    let i2 := pyStrip (ip_index_2 sel) in
    if negb (strEmpty i1) && strEmpty i2 then
      xs <- mapRes pyfloat (index_2 t) ;;
      i <- pyint i1 ;;
      row <- list_at (values t) i ;;
      ys <- mapRes pyfloat row ;;
      Ok {| st_index1List := index_1 t; st_index2List := index_2 t;
            st_valuesList := values t;
            st_figureXList := xs; st_figureYList := ys;
            st_figureXArray := st_figureXArray st;
            st_figureYArray := st_figureYArray st;
            st_figureZArray := st_figureZArray st |}
    else if strEmpty i1 && negb (strEmpty i2) then
      xs <- mapRes pyfloat (index_1 t) ;;
      j <- pyint i2 ;;
      ys <- mapRes (fun valueList => v <- list_at valueList j ;; pyfloat v)
                   (values t) ;;
      Ok {| st_index1List := index_1 t; st_index2List := index_2 t;
            st_valuesList := values t;
            st_figureXList := xs;
            st_figureYList := st_figureYList st ++ ys;
            st_figureXArray := st_figureXArray st;
            st_figureYArray := st_figureYArray st;
            st_figureZArray := st_figureZArray st |}
    else if strEmpty i1 && strEmpty i2 then
      xa <- npArray (map (fun x => repeat x (length (index_2 t))) (index_1 t)) ;;
      ya <- npArray (repeat (index_2 t) (length (index_2 t))) ;;
      za <- npArray (values t) ;;
      Ok {| st_index1List := index_1 t; st_index2List := index_2 t;
            st_valuesList := values t;
            st_figureXList := st_figureXList st;
            st_figureYList := st_figureYList st;
            st_figureXArray := xa; st_figureYArray := ya;
            st_figureZArray := za |}
    else
      Ok {| st_index1List := index_1 t; st_index2List := index_2 t;
            st_valuesList := values t;
            st_figureXList := st_figureXList st;
            st_figureYList := st_figureYList st;
            st_figureXArray := st_figureXArray st;
            st_figureYArray := st_figureYArray st;
            st_figureZArray := st_figureZArray st |}
  else Ok st.

(** The loop over the flat list of the one selected cell. *)
Definition resolvePowerSingle (sel : PowerSelectors)
  (pinInternalPowerDicList : list Arc) : Res SingleTable :=
  foldRes (powerSingleStep sel) pinInternalPowerDicList emptySingle.

(** One round of the loop over the flat list of one cell, several cells
    selected. *)
Definition powerMultiStep (sel : PowerSelectors)
  (libraryFileName cellName : string) (st : MultiState) (a : Arc)
  : Res MultiState :=
  if powerMatches sel a then
    let i1 := defaultIndex (ms_index1 st) in
    let i2 := defaultIndex (ms_index2 st) in
    if negb (indexUnset i1) then
      t <- dict_at (pyStrip (ip_table_type sel)) (table_type a) ;;
      ' (internalPowerIndex1, internalPowerIndex2, internalPowerValue) <-
        (if negb (indexUnset i2) then
           i <- indexInt i1 ;;
           x1 <- list_at (index_1 t) i ;;
           x2 <- (if 0 <? length (index_2 t)
                  then j <- indexInt i2 ;; list_at (index_2 t) j
                  else Ok EmptyString) ;;
           row <- list_at (values t) i ;;
           j <- indexInt i2 ;;
           v <- list_at row j ;;
           Ok (x1, x2, v)
         else
           i <- indexInt i1 ;;
           x1 <- list_at (index_1 t) i ;;
           row <- list_at (values t) 0%Z ;;
           v <- list_at row i ;;
           Ok (x1, EmptyString, v)) ;;
      y <- pyfloat internalPowerValue ;;
      Ok {| ms_index1 := i1; ms_index2 := i2;
            ms_rows := ms_rows st ++
              [{| tr_lib := libraryFileName; tr_cell := cellName;
                  tr_index_1 := internalPowerIndex1;
                  tr_index_2 := internalPowerIndex2;
                  tr_value := internalPowerValue |}];
            ms_figureYList := ms_figureYList st ++ [y] |}
    else
      Ok {| ms_index1 := i1; ms_index2 := i2;
            ms_rows := ms_rows st; ms_figureYList := ms_figureYList st |}
  else Ok st.

(** One round of the loop over the cells. *)
Definition powerMultiCell (spec : Dict (Dict ProjCell)) (sel : PowerSelectors)
  (st : MultiState) (cell : string * string * TabCell) : Res MultiState :=
  let '(libraryFileName, cellName, _) := cell in
  cells <- dict_at libraryFileName spec ;;
  c <- dict_at cellName cells ;;
  l <- pinInternalPowerList c (pyStrip (ip_bundle sel)) (pyStrip (ip_bus sel))
         (pyStrip (ip_pin sel)) ;;
  foldRes (powerMultiStep sel libraryFileName cellName) l st.

(** [updateInternalPowerTabTable]; the result has the shape of the
    result of the timing tab. *)
Definition updateInternalPowerTabTable (s : Session) (sel : PowerSelectors)
  : Res TimingResult :=
  if powerMultiOrSingle s then
    if (specifiedCellCount s =? 1)%Z then
      libraryFileName <- firstSortedKey (specifiedLibDic s) ;;
      cells <- dict_at libraryFileName (specifiedLibDic s) ;;
      cellName <- firstSortedKey cells ;;
      c <- dict_at cellName cells ;;
      l <- pinInternalPowerList c (pyStrip (ip_bundle sel))
             (pyStrip (ip_bus sel)) (pyStrip (ip_pin sel)) ;;
      t <- resolvePowerSingle sel l ;;
      Ok (OneCell t)
    else if internalPowerTabMultiEnable s then
      st <- foldRes (powerMultiCell (specifiedLibDic s) sel)
              (allCells (internalPowerTabDic s))
              {| ms_index1 := IndexText (pyStrip (ip_index_1 sel));
                 ms_index2 := IndexText (pyStrip (ip_index_2 sel));
                 ms_rows := []; ms_figureYList := [] |} ;;
      Ok (Comparison (ms_rows st) (ms_figureYList st))
    else Ok NoTable
  else Ok NoTable.

(** The table of the chosen type of an entry has a row [i]. *)
Definition hasPowerRow (sel : PowerSelectors) (i : Z) (a : Arc) : bool :=
  match dict_get (pyStrip (ip_table_type sel)) (table_type a) with
  | Some t => isOk (list_at (index_1 t) i) && isOk (list_at (values t) i)
  | None => false
  end.

(** *** The raw internal-power list of a pin *)

(** A raw internal-power entry has the chosen discriminators, absent
    fields read as N/A and quotes left out. *)
Definition rawPowerMatches (sel : PowerSelectors) (a : RawArc) : bool :=
  String.eqb (pyStrip (ip_related_pin sel)) (getField (raw_related_pin a))
  && String.eqb (pyStrip (ip_related_pg_pin sel))
                (getField (raw_related_pg_pin a))
  && String.eqb (pyStrip (ip_when sel)) (getField (raw_when a)).

(** The scalar of the raw list at the discriminators, the table type and
    the two positions, read from the last entry that has the
    discriminators. *)
Definition rawPowerScalar (sel : PowerSelectors) (raws : list RawArc)
  (i j : nat) : option string :=
  match find (rawPowerMatches sel) (rev raws) with
  | Some a =>
      match dict_get (pyStrip (ip_table_type sel)) (raw_table_type a) with
      | Some block => itemAt (parseValues (raw_values block)) i j
      | None => None
      end
  | None => None
  end.

(** An internal-power entry of a pin, with the table of the examples as
    [rise_power], and the choice of that entry. *)
Definition powerArc : RawArc :=
  {| raw_related_pin := Some (quoted "A");
     raw_related_pg_pin := Some (quoted "VDD");
     raw_timing_sense := None;
     raw_timing_type := None;
     raw_when := None;
     raw_table_type := [("rise_power"%string, specTable)] |}.

Definition powerSel (i1 i2 : string) : PowerSelectors :=
  {| ip_bundle := EmptyString; ip_bus := EmptyString;
     ip_pin := "Z"; ip_related_pin := "A"; ip_related_pg_pin := "VDD";
     ip_when := "N/A"; ip_table_type := "rise_power";
     ip_index_1 := i1; ip_index_2 := i2 |}.

(** A library with two buffers that have this entry at their output,
    the session with the first one selected and the session with both
    selected. *)
Definition powerPin : RawPin :=
  {| rawpin_timing := None; rawpin_internal_power := Some [powerArc] |}.

Definition powerParser : Parser :=
  {| getCellList := ["BUFX"; "BUFY"]%string;
     getUnit := [("leakage_power_unit"%string, quoted "1nW")];
     getCellArea := [("BUFX", "1.0"); ("BUFY", "2.0")]%string;
     getCellLeakagePower := [("BUFX"%string, []); ("BUFY"%string, [])];
     getLibPinInfo :=
       Some [("BUFX"%string, [RawPins [("Z"%string, powerPin)]]);
             ("BUFY"%string, [RawPins [("Z"%string, powerPin)]])] |}.

Definition powerSession (checked : list string) : Session :=
  let s := fst (loadLibFile (fun _ => powerParser) EmptyString
                  "/lib/power.lib" initVars) in
  sessionOf
    (cellListBeClicked
       (withTree (clicks (map (fun c => ("power.lib"%string, c, Checked))
                              checked)
                         (cellListTree s)) s)).

Definition powerOne : Session := powerSession ["BUFX"%string].
Definition powerPair : Session := powerSession ["BUFX"; "BUFY"]%string.
(* ================================================================== *)
(** * Part II. Properties                                               *)
(* ================================================================== *)

Local Open Scope string_scope.
Local Open Scope list_scope.



(** ** Dictionaries whose entries are given by a function of the key *)

Section DictFacts.
Context {V : Type}.
Implicit Types (f : string -> V) (ks : list string).

Lemma dict_get_tabulate f ks k :
  dict_get k (tabulate f ks)
  = if existsb (String.eqb k) ks then Some (f k) else None.
Proof.
  induction ks as [|a ks IH]; simpl; [reflexivity|].
  rewrite (String.eqb_sym k a).
  destruct (String.eqb_spec a k) as [->|Hne]; simpl; auto.
Qed.

Lemma dict_mem_tabulate f ks k :
  dict_mem k (tabulate f ks) = existsb (String.eqb k) ks.
Proof.
  unfold dict_mem. rewrite dict_get_tabulate.
  now destruct (existsb (String.eqb k) ks).
Qed.

Lemma dict_keys_tabulate f ks : dict_keys (tabulate f ks) = ks.
Proof.
  unfold dict_keys, tabulate. rewrite map_map. simpl. apply map_id.
Qed.

Lemma tabulate_ext_in f g ks :
  (forall k, In k ks -> f k = g k) -> tabulate f ks = tabulate g ks.
Proof.
  intros H. apply map_ext_in. intros k Hk. now rewrite H.
Qed.

Lemma dict_update_tabulate (u : V -> V) f ks k :
  NoDup ks ->
  dict_update k u (tabulate f ks)
  = tabulate (fun k' => if String.eqb k' k then u (f k') else f k') ks.
Proof.
  induction 1 as [|a ks Hna Hnd IH]; simpl; [reflexivity|].
  destruct (String.eqb_spec a k) as [->|Hne].
  - f_equal. apply tabulate_ext_in. intros k' Hk'.
    destruct (String.eqb_spec k' k) as [->|]; [contradiction|reflexivity].
  - f_equal. exact IH.
Qed.

Lemma dict_del_middle f r q k :
  ~ In k r ->
  dict_del k (tabulate f (r ++ k :: q)) = tabulate f (r ++ q).
Proof.
  induction r as [|a r IH]; simpl; intros Hn.
  - now rewrite String.eqb_refl.
  - destruct (String.eqb_spec a k) as [->|Hne].
    + exfalso. apply Hn. now left.
    + f_equal. apply IH. intros Hin. apply Hn. now right.
Qed.
End DictFacts.

Lemma existsb_eqb_In (k : string) (ks : list string) :
  existsb (String.eqb k) ks = true <-> In k ks.
Proof.
  rewrite existsb_exists. split.
  - intros [x [Hin Hx]]. apply String.eqb_eq in Hx. now subst.
  - intros Hin. exists k. split; [assumption|apply String.eqb_refl].
Qed.

Lemma existsb_eqb_notIn (k : string) (ks : list string) :
  existsb (String.eqb k) ks = false <-> ~ In k ks.
Proof.
  rewrite <- existsb_eqb_In. now destruct (existsb (String.eqb k) ks).
Qed.

(** ** The stable sort *)

Section PySortFacts.
Context {A : Type} (le : A -> A -> bool).

Lemma sortInsert_perm x l : Permutation (sortInsert le x l) (x :: l).
Proof.
  induction l as [|y l IH]; simpl; [reflexivity|].
  destruct (le x y); [reflexivity|].
  rewrite IH. apply perm_swap.
Qed.

Lemma pySort_perm l : Permutation (pySort le l) l.
Proof.
  induction l as [|x l IH]; simpl; [reflexivity|].
  rewrite sortInsert_perm. now apply perm_skip.
Qed.

Lemma pySort_In x l : In x (pySort le l) <-> In x l.
Proof.
  split; apply Permutation_in; [|symmetry]; apply pySort_perm.
Qed.

Hypothesis le_total : forall x y, le x y = true \/ le y x = true.
Hypothesis le_trans :
  forall x y z, le x y = true -> le y z = true -> le x z = true.

Lemma sortInsert_sorted x l :
  StronglySorted (leProp le) l -> StronglySorted (leProp le) (sortInsert le x l).
Proof.
  induction 1 as [|y l Hs IH Hall]; simpl.
  - constructor; constructor.
  - destruct (le x y) eqn:Hxy.
    + constructor; [now constructor|].
      constructor; [exact Hxy|].
      eapply Forall_impl; [|exact Hall]. intros z Hz. eapply le_trans; eauto.
    + constructor; [exact IH|].
      assert (Hyx : le y x = true) by (destruct (le_total x y); congruence).
      eapply Permutation_Forall; [symmetry; apply sortInsert_perm|].
      now constructor.
Qed.

Lemma pySort_sorted l : StronglySorted (leProp le) (pySort le l).
Proof.
  induction l as [|x l IH]; simpl; [constructor|].
  now apply sortInsert_sorted.
Qed.

Hypothesis le_antisym : forall x y, le x y = true -> le y x = true -> x = y.

Lemma StronglySorted_perm_eq l1 l2 :
  StronglySorted (leProp le) l1 -> StronglySorted (leProp le) l2 ->
  Permutation l1 l2 -> l1 = l2.
Proof.
  intros H1. revert l2.
  induction H1 as [|a l1 Hs1 IH Ha]; intros l2 H2 Hp.
  - apply Permutation_nil in Hp. now subst.
  - destruct H2 as [|b l2 Hs2 Hb].
    + symmetry in Hp. apply Permutation_nil in Hp. discriminate.
    + assert (Hab : a = b).
      { assert (Hina : In a (b :: l2))
          by (eapply Permutation_in; [exact Hp|now left]).
        assert (Hinb : In b (a :: l1))
          by (eapply Permutation_in; [symmetry; exact Hp|now left]).
        destruct Hina as [->|Hina]; [reflexivity|].
        destruct Hinb as [->|Hinb]; [reflexivity|].
        rewrite Forall_forall in Ha, Hb.
        apply le_antisym; [now apply Ha|now apply Hb]. }
      subst b. f_equal. apply IH; [exact Hs2|].
      eapply Permutation_cons_inv; exact Hp.
Qed.

(** Under a total order the result depends on the elements only. *)
Lemma pySort_perm_eq l1 l2 :
  Permutation l1 l2 -> pySort le l1 = pySort le l2.
Proof.
  intros Hp. apply StronglySorted_perm_eq; try apply pySort_sorted.
  rewrite !pySort_perm. exact Hp.
Qed.
End PySortFacts.

(** ** The order of strings *)

Lemma string_leb_cons a b s t :
  String.leb (String a s) (String b t)
  = match Ascii.compare a b with
    | Eq => String.leb s t
    | Lt => true
    | Gt => false
    end.
Proof.
  unfold String.leb. simpl. now destruct (Ascii.compare a b).
Qed.

Lemma string_leb_trans s1 s2 s3 :
  String.leb s1 s2 = true -> String.leb s2 s3 = true -> String.leb s1 s3 = true.
Proof.
  revert s2 s3.
  induction s1 as [|a s1 IH]; intros [|b s2] [|c s3]; try reflexivity;
    try discriminate.
  rewrite !string_leb_cons. unfold Ascii.compare.
  destruct (N.compare_spec (N_of_ascii a) (N_of_ascii b)) as [Hab|Hab|Hab];
    destruct (N.compare_spec (N_of_ascii b) (N_of_ascii c)) as [Hbc|Hbc|Hbc];
    try discriminate; intros H1 H2.
  - rewrite Hab, Hbc, N.compare_refl. eauto.
  - rewrite Hab. apply N.compare_lt_iff in Hbc. now rewrite Hbc.
  - rewrite <- Hbc. apply N.compare_lt_iff in Hab. now rewrite Hab.
  - assert (H : (N_of_ascii a < N_of_ascii c)%N) by lia.
    apply N.compare_lt_iff in H. now rewrite H.
Qed.

Lemma pySort_leb_perm_eq (l1 l2 : list string) :
  Permutation l1 l2 -> pySort String.leb l1 = pySort String.leb l2.
Proof.
  apply pySort_perm_eq.
  - apply String.leb_total.
  - apply string_leb_trans.
  - apply String.leb_antisym.
Qed.

Lemma flat_map_ext_in {A B : Type} (f g : A -> list B) (l : list A) :
  (forall a, In a l -> f a = g a) -> flat_map f l = flat_map g l.
Proof.
  induction l as [|a l IH]; simpl; intros H; [reflexivity|].
  rewrite (H a) by now left.
  f_equal. apply IH. intros b Hb. apply H. now right.
Qed.

(** ** Cell series sorter *)

Opaque zzz.

Lemma members_app k l1 l2 : members k (l1 ++ l2) = members k l1 ++ members k l2.
Proof. apply filter_app. Qed.

Lemma addKey_In ks k x : In x (addKey ks k) <-> In x ks \/ x = k.
Proof.
  unfold addKey. destruct (existsb (String.eqb k) ks) eqn:E.
  - apply existsb_eqb_In in E. split; [now left|]. intros [H| ->]; assumption.
  - rewrite in_app_iff. simpl. intuition.
Qed.

Lemma addKey_NoDup ks k : NoDup ks -> NoDup (addKey ks k).
Proof.
  intros H. unfold addKey. destruct (existsb (String.eqb k) ks) eqn:E; [exact H|].
  apply existsb_eqb_notIn in E.
  apply NoDup_rev in H. rewrite <- (rev_involutive (ks ++ [k])).
  apply NoDup_rev. rewrite rev_app_distr. simpl. constructor; [|exact H].
  now rewrite <- in_rev.
Qed.

Lemma keysOf_snoc l n : keysOf (l ++ [n]) = addKey (keysOf l) (bucketKey n).
Proof. unfold keysOf. now rewrite map_app, fold_left_app. Qed.

Lemma keysOf_NoDup l : NoDup (keysOf l).
Proof.
  induction l as [|n l IH] using rev_ind.
  - repeat constructor. intros [].
  - rewrite keysOf_snoc. now apply addKey_NoDup.
Qed.

Lemma keysOf_In l k : In k (keysOf l) <-> k = zzz \/ exists n, In n l /\ bucketKey n = k.
Proof.
  induction l as [|n l IH] using rev_ind.
  - simpl. split.
    + intros [H|[]]. now left.
    + intros [->|[n [[] _]]]. now left.
  - rewrite keysOf_snoc, addKey_In, IH. split.
    + intros [[H|[m [Hm Hk]]]|H]; [now left| |].
      * right. exists m. split; [|assumption]. apply in_or_app. now left.
      * right. exists n. split; [|now symmetry]. apply in_or_app. right. now left.
    + intros [H|[m [Hm Hk]]]; [left; now left|].
      apply in_app_or in Hm. destruct Hm as [Hm|[->|[]]].
      * left. right. now exists m.
      * right. now symmetry.
Qed.

Lemma keysOf_head l : exists ks, keysOf l = zzz :: ks.
Proof.
  induction l as [|n l [ks IH]] using rev_ind.
  - now exists [].
  - rewrite keysOf_snoc, IH. unfold addKey.
    destruct (existsb (String.eqb (bucketKey n)) (zzz :: ks)).
    + now exists ks.
    + now exists (ks ++ [bucketKey n]).
Qed.

Lemma members_absent l k : ~ In k (keysOf l) -> members k l = [].
Proof.
  intros Hn. unfold members.
  induction l as [|n l IH]; simpl; [reflexivity|].
  destruct (String.eqb_spec (bucketKey n) k) as [E|E].
  - exfalso. apply Hn. apply keysOf_In. right. exists n. split; [now left|exact E].
  - apply IH. intros Hin. apply Hn. apply keysOf_In. apply keysOf_In in Hin.
    destruct Hin as [H|[m [Hm Hk]]]; [now left|].
    right. exists m. split; [now right|exact Hk].
Qed.

(** With ['zzz'] among the keys, both branches of the first loop file the
    name under [bucketKey]. *)
Lemma classifyCell_bucketKey d n :
  dict_mem zzz d = true ->
  classifyCell d n
  = dict_append (bucketKey n) n (dict_setdefault (bucketKey n) [] d).
Proof.
  intros Hz. unfold classifyCell, bucketKey, seriesKey.
  destruct (seriesCellCompile n) as [[[h ds] t]|]; [reflexivity|].
  unfold dict_setdefault. now rewrite Hz.
Qed.

(** The dictionary after the first loop. *)
Lemma classify_tabulate l :
  fold_left classifyCell l [(zzz, [])]
  = tabulate (fun k => members k l) (keysOf l).
Proof.
  induction l as [|n l IH] using rev_ind; [reflexivity|].
  rewrite fold_left_app. simpl. rewrite IH.
  rewrite classifyCell_bucketKey.
  2:{ rewrite dict_mem_tabulate. apply existsb_eqb_In, keysOf_In. now left. }
  set (k := bucketKey n).
  assert (Hsd : dict_setdefault k [] (tabulate (fun k => members k l) (keysOf l))
                = tabulate (fun k => members k l) (keysOf (l ++ [n]))).
  { unfold dict_setdefault. rewrite dict_mem_tabulate, keysOf_snoc.
    fold k. unfold addKey.
    destruct (existsb (String.eqb k) (keysOf l)) eqn:E; [reflexivity|].
    apply existsb_eqb_notIn in E.
    unfold tabulate. rewrite map_app. simpl.
    now rewrite (members_absent l k E). }
  rewrite Hsd. unfold dict_append.
  rewrite dict_update_tabulate by apply keysOf_NoDup.
  apply tabulate_ext_in. intros k' _.
  rewrite members_app. unfold members at 3. simpl. fold k.
  rewrite (String.eqb_sym k' k).
  destruct (String.eqb k k'); [reflexivity|now rewrite app_nil_r].
Qed.

(** The second loop over the keys [q] that are still to be visited. *)
Lemma demote_loop (f : string -> list string) q : forall r Z,
  NoDup (r ++ q) -> ~ In zzz (r ++ q) ->
  fold_left demoteSingle q ((zzz, Z) :: tabulate f (r ++ q))
  = (zzz, Z ++ flat_map (singleOf f) q)
      :: tabulate f (r ++ filter (fun k => negb (isSingle (f k))) q).
Proof.
  induction q as [|k q IH]; intros r Z Hnd Hz; simpl.
  - now rewrite !app_nil_r.
  - assert (Hkz : k <> zzz).
    { intros ->. apply Hz. apply in_or_app. right. now left. }
    assert (Hkr : ~ In k r).
    { intros Hin. apply NoDup_remove_2 in Hnd. apply Hnd.
      apply in_or_app. now left. }
    assert (Hget : dict_get k ((zzz, Z) :: tabulate f (r ++ k :: q))
                   = Some (f k)).
    { simpl. destruct (String.eqb_spec zzz k) as [E|_]; [congruence|].
      rewrite dict_get_tabulate.
      replace (existsb (String.eqb k) (r ++ k :: q)) with true; [reflexivity|].
      symmetry. apply existsb_eqb_In. apply in_or_app. right. now left. }
    unfold demoteSingle at 2.
    destruct (String.eqb_spec k zzz) as [E|_]; [contradiction|].
    rewrite Hget. unfold singleOf at 1.
    destruct (f k) as [|v [|w fk]] eqn:Efk; simpl.
    + replace (r ++ k :: q) with ((r ++ [k]) ++ q)
        by (now rewrite <- app_assoc).
      rewrite IH.
      * now rewrite <- app_assoc.
      * now rewrite <- app_assoc.
      * now rewrite <- app_assoc.
    + destruct (String.eqb_spec zzz k) as [E|_]; [congruence|].
      rewrite dict_del_middle by assumption.
      unfold dict_append. simpl. rewrite String.eqb_refl.
      rewrite IH.
      * now rewrite <- app_assoc.
      * now apply NoDup_remove_1 in Hnd.
      * intros Hin. apply Hz. apply in_app_or in Hin.
        apply in_or_app. destruct Hin; [now left|right; now right].
    + replace (r ++ k :: q) with ((r ++ [k]) ++ q)
        by (now rewrite <- app_assoc).
      rewrite IH.
      * now rewrite <- app_assoc.
      * now rewrite <- app_assoc.
      * now rewrite <- app_assoc.
Qed.

Lemma filter_split_perm {A : Type} (p : A -> bool) (l : list A) :
  Permutation (filter p l ++ filter (fun x => negb (p x)) l) l.
Proof.
  induction l as [|a l IH]; simpl; [reflexivity|].
  destruct (p a); simpl.
  - now apply perm_skip.
  - rewrite <- Permutation_middle. now apply perm_skip.
Qed.

Lemma members_filter_other k k' l :
  k' <> k ->
  members k' (filter (fun n => negb (String.eqb (bucketKey n) k)) l)
  = members k' l.
Proof.
  intros Hne. unfold members.
  induction l as [|n l IH]; simpl; [reflexivity|].
  destruct (String.eqb_spec (bucketKey n) k) as [E|E]; simpl.
  - destruct (String.eqb_spec (bucketKey n) k') as [E'|_]; [congruence|exact IH].
  - destruct (String.eqb (bucketKey n) k'); [now f_equal|exact IH].
Qed.

(** The buckets of a list, taken key by key, hold every name once. *)
Lemma buckets_perm ks : forall l,
  NoDup ks -> (forall n, In n l -> In (bucketKey n) ks) ->
  Permutation (flat_map (fun k => members k l) ks) l.
Proof.
  induction ks as [|k ks IH]; intros l Hnd Hall; simpl.
  - destruct l as [|n l]; [reflexivity|]. destruct (Hall n). now left.
  - inversion Hnd as [|? ? Hk Hnd']; subst.
    etransitivity;
      [|apply (filter_split_perm (fun n => String.eqb (bucketKey n) k) l)].
    apply Permutation_app_head.
    etransitivity;
      [|apply (IH (filter (fun n => negb (String.eqb (bucketKey n) k)) l) Hnd')].
    + apply Permutation_refl'. apply flat_map_ext_in.
      intros k' Hk'. symmetry. apply members_filter_other. congruence.
    + intros n Hn. apply filter_In in Hn. destruct Hn as [Hn Hb].
      destruct (Hall n Hn) as [E|Hin]; [|exact Hin].
      subst k. now rewrite String.eqb_refl in Hb.
Qed.

Lemma members_filter_key (Q : string -> bool) k l :
  members k (filter (fun n => Q (bucketKey n)) l)
  = if Q k then members k l else [].
Proof.
  unfold members. induction l as [|n l IH]; simpl.
  - now destruct (Q k).
  - destruct (Q (bucketKey n)) eqn:Eq; simpl;
      destruct (String.eqb_spec (bucketKey n) k) as [E|E]; try exact IH.
    + rewrite IH. subst k. now rewrite Eq.
    + subst k. rewrite Eq in *. exact IH.
Qed.

Lemma isSeries_zzz l : isSeries l zzz = false.
Proof. unfold isSeries. now rewrite String.eqb_refl. Qed.

Lemma isSeries_other l k :
  k <> zzz -> isSeries l k = negb (isSingle (members k l)).
Proof.
  intros H. unfold isSeries.
  destruct (String.eqb_spec k zzz); [contradiction|reflexivity].
Qed.

(** The catch-all bucket the loops build holds the names of [catchAll]. *)
Lemma catchAll_perm l ks :
  keysOf l = zzz :: ks ->
  Permutation
    (members zzz l ++ flat_map (singleOf (fun k => members k l)) ks)
    (catchAll l).
Proof.
  intros Hks.
  assert (Hnd : NoDup (zzz :: ks)) by (rewrite <- Hks; apply keysOf_NoDup).
  assert (Hall : forall n, In n (catchAll l) -> In (bucketKey n) (zzz :: ks)).
  { intros n Hn. apply filter_In in Hn. destruct Hn as [Hn _].
    rewrite <- Hks. apply keysOf_In. right. now exists n. }
  rewrite <- (buckets_perm (zzz :: ks) (catchAll l) Hnd Hall).
  simpl. unfold catchAll at 1.
  rewrite (members_filter_key (fun k => negb (isSeries l k))).
  rewrite isSeries_zzz. simpl. apply Permutation_app_head.
  apply Permutation_refl'. apply flat_map_ext_in. intros k Hk.
  unfold catchAll. rewrite (members_filter_key (fun k => negb (isSeries l k))).
  assert (Hkz : k <> zzz).
  { intros ->. inversion Hnd; contradiction. }
  rewrite (isSeries_other l k Hkz), negb_involutive. reflexivity.
Qed.

Lemma seriesKeys_tail l ks :
  keysOf l = zzz :: ks ->
  seriesKeys l = filter (fun k => negb (isSingle (members k l))) ks.
Proof.
  intros Hks. unfold seriesKeys. rewrite Hks. simpl. rewrite isSeries_zzz.
  apply filter_ext_in. intros k Hk. apply isSeries_other.
  intros ->. pose proof (keysOf_NoDup l) as Hnd. rewrite Hks in Hnd.
  inversion Hnd; contradiction.
Qed.

(** The sorter, loop by loop, builds the groups of [sortCellSeries_keyed]. *)
Lemma sortCellWithSize_keyed l : sortCellWithSize l = sortCellSeries_keyed l.
Proof.
  unfold sortCellWithSize, sortCellSeries_keyed.
  rewrite classify_tabulate, dict_keys_tabulate.
  destruct (keysOf_head l) as [ks Hks].
  pose proof (keysOf_NoDup l) as Hnd. rewrite Hks in Hnd.
  assert (Hz : ~ In zzz ks) by (inversion Hnd; assumption).
  assert (Hnd' : NoDup ks) by (inversion Hnd; assumption).
  rewrite Hks.
  assert (Hd2 :
    fold_left demoteSingle (zzz :: ks)
      (tabulate (fun k => members k l) (zzz :: ks))
    = (zzz, members zzz l ++ flat_map (singleOf (fun k => members k l)) ks)
        :: tabulate (fun k => members k l) (seriesKeys l)).
  { rewrite (seriesKeys_tail l ks Hks).
    pose proof (demote_loop (fun k => members k l) ks [] (members zzz l)
                  Hnd' Hz) as H.
    simpl app in H. rewrite <- H.
    simpl fold_left. unfold demoteSingle at 2.
    now rewrite String.eqb_refl. }
  rewrite Hd2. unfold dict_keys at 1. simpl map.
  change (map fst (tabulate (fun k => members k l) (seriesKeys l)))
    with (dict_keys (tabulate (fun k => members k l) (seriesKeys l))).
  rewrite dict_keys_tabulate.
  apply flat_map_ext_in. intros k Hk.
  apply pySort_In in Hk. unfold sortSeries, seriesGroup. simpl dict_get.
  destruct (String.eqb_spec zzz k) as [E|E].
  - subst k. rewrite String.eqb_refl.
    apply pySort_leb_perm_eq. now apply catchAll_perm.
  - destruct Hk as [Hk|Hk]; [contradiction|].
    rewrite dict_get_tabulate.
    replace (existsb (String.eqb k) (seriesKeys l)) with true
      by (symmetry; now apply existsb_eqb_In).
    destruct (String.eqb_spec k zzz); [congruence|reflexivity].
Qed.

Transparent zzz.

Lemma sortInsert_last {A : Type} (le : A -> A -> bool) (x : A) (l : list A) :
  (forall y, In y l -> le x y = false) -> sortInsert le x l = l ++ [x].
Proof.
  induction l as [|y l IH]; simpl; intros H; [reflexivity|].
  rewrite (H y) by now left.
  f_equal. apply IH. intros z Hz. apply H. now right.
Qed.

Lemma string_compare_refl s : String.compare s s = Eq.
Proof.
  induction s as [|a s IH]; simpl; [reflexivity|].
  unfold Ascii.compare. now rewrite N.compare_refl.
Qed.

(** When every series key sorts before ['zzz'], the catch-all bucket is
    the last group. *)
Lemma sortCellSeries_keyed_catch_all_last l :
  (forall k, In k (seriesKeys l) -> String.ltb k zzz = true) ->
  sortCellSeries_keyed l
  = flat_map (fun k => pySort sizeLe (members k l))
             (pySort String.leb (seriesKeys l))
    ++ pySort String.leb (catchAll l).
Proof.
  intros H. unfold sortCellSeries_keyed. simpl pySort.
  assert (Hne : forall k, In k (seriesKeys l) -> k <> zzz).
  { intros k Hk ->. specialize (H zzz Hk). unfold String.ltb in H.
    rewrite string_compare_refl in H. discriminate. }
  rewrite sortInsert_last.
  - rewrite flat_map_app. simpl. rewrite app_nil_r.
    unfold seriesGroup at 2. rewrite String.eqb_refl. f_equal.
    apply flat_map_ext_in. intros k Hk. apply pySort_In in Hk.
    unfold seriesGroup.
    destruct (String.eqb_spec k zzz) as [E|_]; [|reflexivity].
    exfalso. now apply (Hne k).
  - intros k Hk. apply pySort_In in Hk. specialize (H k Hk).
    unfold String.ltb in H. unfold String.leb.
    rewrite String.compare_antisym.
    destruct (String.compare k zzz); try discriminate. reflexivity.
Qed.

(** C5, as stated, does not hold: with a series whose key sorts after
    ['zzz'] the catch-all bucket is not the last group.  The sorter
    returns [INVD1BWP] first, the specification's sorter returns it
    last. *)
Lemma sortCellWithSize_catch_all_not_last :
  sortCellWithSize ["zzzaD2BWP"; "zzzaD1BWP"; "INVD1BWP"]
  = ["INVD1BWP"; "zzzaD1BWP"; "zzzaD2BWP"]
  /\ sortCellSeries_spec ["zzzaD2BWP"; "zzzaD1BWP"; "INVD1BWP"]
     = ["zzzaD1BWP"; "zzzaD2BWP"; "INVD1BWP"]
  /\ sortCellWithSize ["zzzaD2BWP"; "zzzaD1BWP"; "INVD1BWP"]
     <> sortCellSeries_spec ["zzzaD2BWP"; "zzzaD1BWP"; "INVD1BWP"].
Proof.
  split; [vm_compute; reflexivity|].
  split; [vm_compute; reflexivity|].
  vm_compute. discriminate.
Qed.

(** Names are grouped by the text head + tail, not by the pair: two names
    with different heads and tails that give the same text form one
    series. *)
Lemma sortCellWithSize_groups_by_text :
  headTail "XD1BWPD2BWP" = Some ("X", "BWPD2BWP")
  /\ headTail "XBWPD2D3BWP" = Some ("XBWPD2", "BWP")
  /\ sortCellWithSize ["XD1BWPD2BWP"; "XBWPD2D3BWP"]
     = ["XD1BWPD2BWP"; "XBWPD2D3BWP"]
  /\ sortCellSeries_spec ["XD1BWPD2BWP"; "XBWPD2D3BWP"]
     = ["XBWPD2D3BWP"; "XD1BWPD2BWP"].
Proof. repeat split; vm_compute; reflexivity. Qed.

(** C5, amended: for every list of names the sorter returns the groups
    of [sortCellSeries_keyed]: names matching head, [D], digits and a tail
    that starts with [BWP] are grouped by the text head + tail, a group of
    one name goes to the catch-all bucket, a group is ordered by the
    integer size, the catch-all bucket lexicographically, and the groups
    are concatenated in the sorted order of their keys, the catch-all
    bucket standing where the key ['zzz'] sorts.  The three cells of the
    specification come out as stated there. *)
Theorem sortCellWithSize_groups_in_key_order :
  (forall l, sortCellWithSize l = sortCellSeries_keyed l)
  /\ sortCellWithSize ["INVD1BWP"; "INVD2BWP"; "BUFD4BWP"]
     = ["INVD1BWP"; "INVD2BWP"; "BUFD4BWP"].
Proof.
  split.
  - exact sortCellWithSize_keyed.
  - vm_compute. reflexivity.
Qed.

(** ** The sorter keeps the names *)

Lemma seriesKeys_not_zzz l k : In k (seriesKeys l) -> k <> zzz.
Proof.
  unfold seriesKeys. intros H. apply filter_In in H. destruct H as [_ H].
  intros ->. now rewrite isSeries_zzz in H.
Qed.

Lemma series_members_perm l ks :
  Permutation (flat_map (fun k => pySort sizeLe (members k l)) ks)
              (flat_map (fun k => members k l) ks).
Proof.
  induction ks as [|k ks IH]; simpl; [reflexivity|].
  apply Permutation_app; [apply pySort_perm|exact IH].
Qed.

(** The names of the series are the names whose key is a series. *)
Lemma series_names_perm l :
  Permutation (flat_map (fun k => members k l) (seriesKeys l))
              (filter (fun n => isSeries l (bucketKey n)) l).
Proof.
  etransitivity;
    [|apply (buckets_perm (seriesKeys l)
               (filter (fun n => isSeries l (bucketKey n)) l))].
  - apply Permutation_refl'. apply flat_map_ext_in. intros k Hk.
    rewrite (members_filter_key (isSeries l)).
    apply filter_In in Hk. destruct Hk as [_ Hk]. now rewrite Hk.
  - apply NoDup_filter, keysOf_NoDup.
  - intros n Hn. apply filter_In in Hn. destruct Hn as [Hn Hs].
    apply filter_In. split; [|exact Hs].
    apply keysOf_In. right. now exists n.
Qed.

Lemma sortCellWithSize_perm l : Permutation (sortCellWithSize l) l.
Proof.
  rewrite sortCellWithSize_keyed. unfold sortCellSeries_keyed.
  etransitivity.
  { apply Permutation_flat_map. apply pySort_perm. }
  cbn [flat_map]. unfold seriesGroup at 1. rewrite String.eqb_refl.
  etransitivity.
  { apply Permutation_app; [apply pySort_perm|].
    apply Permutation_refl'. apply flat_map_ext_in. intros k Hk.
    unfold seriesGroup.
    destruct (String.eqb_spec k zzz) as [E|_]; [|reflexivity].
    exfalso. exact (seriesKeys_not_zzz _ _ Hk E). }
  etransitivity.
  { apply Permutation_app_head. apply series_members_perm. }
  rewrite series_names_perm, Permutation_app_comm.
  apply filter_split_perm.
Qed.

(** The sorter returns the names it was given, each as often as it was
    given: nothing is dropped, nothing is added. *)
Theorem sortCellWithSize_permutation l : Permutation (sortCellWithSize l) l.
Proof. exact (sortCellWithSize_perm l). Qed.

(** When every series key sorts before ['zzz'], as the keys of names in
    capitals and digits do, the catch-all bucket is the last group. *)
Theorem sortCellWithSize_catch_all_last l :
  (forall k, In k (seriesKeys l) -> String.ltb k zzz = true) ->
  sortCellWithSize l
  = flat_map (fun k => pySort sizeLe (members k l))
             (pySort String.leb (seriesKeys l))
    ++ pySort String.leb (catchAll l).
Proof.
  intros H. rewrite sortCellWithSize_keyed.
  now apply sortCellSeries_keyed_catch_all_last.
Qed.

(** The three cells of the specification: one series, the buffer alone
    in the catch-all bucket. *)
Lemma sortCellWithSize_catch_all_last_witness :
  sortCellWithSize ["INVD1BWP"; "INVD2BWP"; "BUFD4BWP"]
  = flat_map
      (fun k => pySort sizeLe
                  (members k ["INVD1BWP"; "INVD2BWP"; "BUFD4BWP"]))
      (pySort String.leb (seriesKeys ["INVD1BWP"; "INVD2BWP"; "BUFD4BWP"]))
    ++ pySort String.leb (catchAll ["INVD1BWP"; "INVD2BWP"; "BUFD4BWP"]).
Proof.
  apply sortCellWithSize_catch_all_last.
  intros k Hk. vm_compute in Hk. destruct Hk as [<-|[]]. reflexivity.
Defined.

(** ** Library catalog *)

Lemma strEmpty_false s : s <> EmptyString -> strEmpty s = false.
Proof. destruct s; [congruence|reflexivity]. Qed.

Lemma strEmpty_true s : strEmpty s = true -> s = EmptyString.
Proof. destruct s; [reflexivity|discriminate]. Qed.

Lemma dict_set_absent {V : Type} k (v : V) d :
  dict_mem k d = false -> dict_set k v d = d ++ [(k, v)].
Proof. intros H. unfold dict_set. now rewrite H. Qed.

Lemma dict_mem_app {V : Type} k (d1 d2 : Dict V) :
  dict_mem k (d1 ++ d2) = dict_mem k d1 || dict_mem k d2.
Proof.
  unfold dict_mem. induction d1 as [|[k' v] d1 IH]; simpl; [reflexivity|].
  destruct (String.eqb k' k); [reflexivity|exact IH].
Qed.

(** C8: loading a file whose base name is in the catalog changes nothing:
    the session, with its cell lists and its units, is returned as it
    was, the warning is printed, and no parser is created. *)
Theorem loadLibFile_loaded_twice libertyParser chosenFile libraryFile s :
  libraryFile <> EmptyString ->
  dict_mem (basename libraryFile) (libDic s) = true ->
  loadLibFile libertyParser chosenFile libraryFile s
  = (s, [Loading libraryFile; WarnLoaded (basename libraryFile)])
  /\ forall f,
       ~ In (ParserCreated f)
            (snd (loadLibFile libertyParser chosenFile libraryFile s)).
Proof.
  intros Hne Hmem.
  assert (E : loadLibFile libertyParser chosenFile libraryFile s
              = (s, [Loading libraryFile; WarnLoaded (basename libraryFile)])).
  { unfold loadLibFile. cbv zeta. rewrite (strEmpty_false _ Hne). cbv iota.
    rewrite (strEmpty_false _ Hne), Hmem. reflexivity. }
  split; [exact E|].
  intros f. rewrite E. simpl. intros [H|[H|[]]]; discriminate.
Qed.

(** A first load of [a.lib], then a second file of the same name in
    another directory. *)
Lemma loadLibFile_loaded_twice_witness :
  let P := fun _ : string => unitParser [("time_unit"%string, quoted "1ns")] in
  let s := fst (loadLibFile P EmptyString "/lib/a.lib" initVars) in
  loadLibFile P EmptyString "/other/a.lib" s
  = (s, [Loading "/other/a.lib"; WarnLoaded "a.lib"])
  /\ forall f,
       ~ In (ParserCreated f) (snd (loadLibFile P EmptyString "/other/a.lib" s)).
Proof.
  intros P s.
  apply (loadLibFile_loaded_twice P EmptyString "/other/a.lib" s).
  - discriminate.
  - reflexivity.
Defined.

(** One load of a file that is not in the catalog. *)
Lemma loadLibFile_new libertyParser chosenFile libraryFile s :
  libraryFile <> EmptyString ->
  dict_mem (basename libraryFile) (libDic s) = false ->
  let s' := fst (loadLibFile libertyParser chosenFile libraryFile s) in
  let p := libertyParser libraryFile in
  libDic s'
  = libDic s ++ [(basename libraryFile,
                  {| parser := p; cellList := getCellList p |})]
  /\ leakagePowerUnit s'
     = (if strEmpty (leakagePowerUnit s)
        then reportedUnit "leakage_power_unit" p else leakagePowerUnit s)
  /\ internalPowerUnit s'
     = (if strEmpty (leakagePowerUnit s)
           && isSome (dict_get "leakage_power_unit"%string (getUnit p))
        then reportedUnit "leakage_power_unit" p else internalPowerUnit s)
  /\ timingUnit s'
     = (if strEmpty (timingUnit s)
        then reportedUnit "time_unit" p else timingUnit s).
Proof.
  intros Hne Hmem. unfold loadLibFile.
  cbv zeta. rewrite (strEmpty_false _ Hne). cbv iota.
  rewrite (strEmpty_false _ Hne), Hmem.
  unfold adoptLeakagePowerUnit, adoptTimeUnit, reportedUnit.
  cbn [libDic leakagePowerUnit timingUnit internalPowerUnit withLib].
  destruct (dict_get "leakage_power_unit"%string
              (getUnit (libertyParser libraryFile))) as [u|];
    destruct (dict_get "time_unit"%string
                (getUnit (libertyParser libraryFile))) as [t|];
    destruct (strEmpty (leakagePowerUnit s)) eqn:El;
    destruct (strEmpty (timingUnit s)) eqn:Et;
    repeat first
      [ progress cbn -[dict_set stripUnit basename String.eqb]
      | rewrite El
      | rewrite Et
      | match goal with
        | |- context [negb (String.eqb ?a ?b)] => destruct (String.eqb a b)
        end ];
    rewrite ?(dict_set_absent _ _ _ Hmem);
    try (apply strEmpty_true in El); try (apply strEmpty_true in Et);
    repeat split; congruence.
Qed.

Lemma firstNonEmpty_cons u l :
  firstNonEmpty (u :: l) = if strEmpty u then firstNonEmpty l else u.
Proof. unfold firstNonEmpty. simpl. now destruct (strEmpty u). Qed.

Lemma dict_mem_single {V : Type} k k' (v : V) :
  dict_mem k [(k', v)] = String.eqb k' k.
Proof. unfold dict_mem. simpl. now destruct (String.eqb k' k). Qed.

Lemma reportedUnit_absent key p :
  isSome (dict_get key (getUnit p)) = false -> reportedUnit key p = EmptyString.
Proof. unfold reportedUnit. now destruct (dict_get key (getUnit p)). Qed.

(** Loading files that are new to the catalog, from any session. *)
Lemma loadAll_units libertyParser files : forall s0,
  NoDup (map basename files) ->
  Forall (fun f => f <> EmptyString) files ->
  (forall f, In f files -> dict_mem (basename f) (libDic s0) = false) ->
  internalPowerUnit s0 = leakagePowerUnit s0 ->
  let s := loadAll libertyParser files s0 in
  dict_keys (libDic s) = dict_keys (libDic s0) ++ map basename files
  /\ leakagePowerUnit s
     = firstNonEmpty
         (leakagePowerUnit s0
          :: map (fun f => reportedUnit "leakage_power_unit" (libertyParser f))
                 files)
  /\ internalPowerUnit s = leakagePowerUnit s
  /\ timingUnit s
     = firstNonEmpty
         (timingUnit s0
          :: map (fun f => reportedUnit "time_unit" (libertyParser f)) files).
Proof.
  induction files as [|f files IH]; intros s0 Hnd Hne Hnew Hip; simpl.
  - rewrite app_nil_r, !firstNonEmpty_cons. unfold firstNonEmpty. simpl.
    repeat split; try assumption.
    + destruct (leakagePowerUnit s0); reflexivity.
    + destruct (timingUnit s0); reflexivity.
  - inversion Hnd as [|? ? Hf Hnd']; subst.
    inversion Hne as [|? ? Hf0 Hne']; subst.
    pose proof (loadLibFile_new libertyParser EmptyString f s0 Hf0
                  (Hnew f (or_introl eq_refl))) as Hstep.
    cbv zeta in Hstep.
    set (s1 := fst (loadLibFile libertyParser EmptyString f s0)) in *.
    destruct Hstep as (Hlib & Hlp & Hipu & Htu).
    assert (Hnew1 : forall f', In f' files ->
                      dict_mem (basename f') (libDic s1) = false).
    { intros f' Hf'. rewrite Hlib, dict_mem_app, dict_mem_single.
      rewrite (Hnew f' (or_intror Hf')). simpl.
      apply String.eqb_neq. intros E. apply Hf. rewrite E.
      now apply in_map. }
    assert (Hip1 : internalPowerUnit s1 = leakagePowerUnit s1).
    { rewrite Hipu, Hlp, Hip.
      destruct (strEmpty (leakagePowerUnit s0)) eqn:El; simpl; [|reflexivity].
      destruct (isSome (dict_get "leakage_power_unit"%string
                          (getUnit (libertyParser f)))) eqn:Ek;
        [reflexivity|].
      rewrite (reportedUnit_absent _ _ Ek). now apply strEmpty_true. }
    specialize (IH s1 Hnd' Hne' Hnew1 Hip1). cbv zeta in IH.
    destruct IH as (IHk & IHl & IHi & IHt).
    repeat split.
    + rewrite IHk, Hlib. unfold dict_keys. rewrite map_app. simpl.
      now rewrite <- app_assoc.
    + rewrite IHl, Hlp, !firstNonEmpty_cons.
      destruct (strEmpty (leakagePowerUnit s0)) eqn:El; [reflexivity|].
      now rewrite El.
    + exact IHi.
    + rewrite IHt, Htu, !firstNonEmpty_cons.
      destruct (strEmpty (timingUnit s0)) eqn:Et; [reflexivity|].
      now rewrite Et.
Qed.

(** A new library whose unit differs from the stored one: the warning. *)
Lemma loadLibFile_unit_warning libertyParser chosenFile libraryFile s u :
  libraryFile <> EmptyString ->
  dict_mem (basename libraryFile) (libDic s) = false ->
  dict_get "leakage_power_unit"%string (getUnit (libertyParser libraryFile))
  = Some u ->
  leakagePowerUnit s <> EmptyString ->
  stripUnit u <> leakagePowerUnit s ->
  In (WarnLeakagePowerUnit (stripUnit u) libraryFile)
     (snd (loadLibFile libertyParser chosenFile libraryFile s)).
Proof.
  intros Hne Hmem Hu Hset Hdiff. unfold loadLibFile.
  cbv zeta. rewrite (strEmpty_false _ Hne). cbv iota.
  rewrite (strEmpty_false _ Hne), Hmem.
  unfold adoptLeakagePowerUnit. rewrite Hu.
  cbn [leakagePowerUnit withLib]. rewrite (strEmpty_false _ Hset).
  destruct (String.eqb_spec (leakagePowerUnit s) (stripUnit u)) as [E|_];
    [congruence|].
  cbn [negb].
  destruct (adoptTimeUnit libraryFile (getUnit (libertyParser libraryFile))
              (withLib (basename libraryFile)
                 {| parser := libertyParser libraryFile;
                    cellList := getCellList (libertyParser libraryFile) |} s))
    as [s3 ev3].
  simpl. right. right. now left.
Qed.

Lemma loadLibFile_time_warning libertyParser chosenFile libraryFile s u :
  libraryFile <> EmptyString ->
  dict_mem (basename libraryFile) (libDic s) = false ->
  dict_get "time_unit"%string (getUnit (libertyParser libraryFile)) = Some u ->
  timingUnit s <> EmptyString ->
  stripUnit u <> timingUnit s ->
  In (WarnTimeUnit (stripUnit u) libraryFile)
     (snd (loadLibFile libertyParser chosenFile libraryFile s)).
Proof.
  intros Hne Hmem Hu Hset Hdiff. unfold loadLibFile.
  cbv zeta. rewrite (strEmpty_false _ Hne). cbv iota.
  rewrite (strEmpty_false _ Hne), Hmem.
  destruct (adoptLeakagePowerUnit libraryFile
              (getUnit (libertyParser libraryFile))
              (withLib (basename libraryFile)
                 {| parser := libertyParser libraryFile;
                    cellList := getCellList (libertyParser libraryFile) |} s))
    as [s2 ev2] eqn:E2.
  assert (Ht : timingUnit s2 = timingUnit s).
  { unfold adoptLeakagePowerUnit in E2.
    destruct (dict_get "leakage_power_unit"%string
                (getUnit (libertyParser libraryFile)));
      cbn [leakagePowerUnit withLib] in E2;
      repeat match type of E2 with
        | context [if ?c then _ else _] => destruct c
        end;
      inversion E2; reflexivity. }
  unfold adoptTimeUnit. rewrite Hu, Ht, (strEmpty_false _ Hset).
  destruct (String.eqb_spec (timingUnit s) (stripUnit u)) as [E|_];
    [congruence|].
  cbn [negb snd]. apply in_or_app. right. apply in_or_app. right. now left.
Qed.

(** C9, as stated, does not hold: the stored unit is taken over as long
    as it is empty.  The first library reports a leakage-power unit that
    is empty once its digits are gone; the unit kept is the one of the
    second library, and no warning is printed for it. *)
Lemma loadAll_first_reported_unit_not_kept :
  let files := ["/lib/a.lib"; "/lib/b.lib"]%string in
  leakagePowerUnit (loadAll unitlessFirst files initVars) = "nW"%string
  /\ firstReported "leakage_power_unit" (map unitlessFirst files) = EmptyString
  /\ leakagePowerUnit (loadAll unitlessFirst files initVars)
     <> firstReported "leakage_power_unit" (map unitlessFirst files)
  /\ snd (loadLibFile unitlessFirst EmptyString "/lib/b.lib"
            (loadAll unitlessFirst ["/lib/a.lib"%string] initVars))
     = [Loading "/lib/b.lib"; ParserCreated "/lib/b.lib"].
Proof.
  repeat split; try (vm_compute; reflexivity).
  vm_compute. discriminate.
Qed.

(** C9, amended: after loading files with distinct base names, every
    file is in the catalog, and the reference units are the first units
    reported that are not empty once quotes and digits are gone (the
    internal-power unit being the leakage-power unit).  A library that is
    loaded while a unit is stored leaves that unit as it is whatever it
    reports; when it reports another one the warning is printed, and the
    library is in the catalog all the same. *)
Theorem loadAll_reference_units libertyParser files :
  NoDup (map basename files) ->
  Forall (fun f => f <> EmptyString) files ->
  (let s := loadAll libertyParser files initVars in
   dict_keys (libDic s) = map basename files
   /\ leakagePowerUnit s
      = firstNonEmpty
          (map (fun f => reportedUnit "leakage_power_unit" (libertyParser f))
               files)
   /\ internalPowerUnit s = leakagePowerUnit s
   /\ timingUnit s
      = firstNonEmpty
          (map (fun f => reportedUnit "time_unit" (libertyParser f)) files))
  /\ (forall s f,
        f <> EmptyString ->
        dict_mem (basename f) (libDic s) = false ->
        let r := loadLibFile libertyParser EmptyString f s in
        dict_mem (basename f) (libDic (fst r)) = true
        /\ (leakagePowerUnit s <> EmptyString ->
            leakagePowerUnit (fst r) = leakagePowerUnit s
            /\ internalPowerUnit (fst r) = internalPowerUnit s
            /\ forall u,
                 dict_get "leakage_power_unit"%string
                   (getUnit (libertyParser f)) = Some u ->
                 stripUnit u <> leakagePowerUnit s ->
                 In (WarnLeakagePowerUnit (stripUnit u) f) (snd r))
        /\ (timingUnit s <> EmptyString ->
            timingUnit (fst r) = timingUnit s
            /\ forall u,
                 dict_get "time_unit"%string (getUnit (libertyParser f))
                 = Some u ->
                 stripUnit u <> timingUnit s ->
                 In (WarnTimeUnit (stripUnit u) f) (snd r))).
Proof.
  intros Hnd Hne. split.
  - pose proof (loadAll_units libertyParser files initVars Hnd Hne
                  (fun f _ => eq_refl) eq_refl) as H.
    cbv zeta in H. cbv zeta.
    simpl dict_keys in H. simpl app in H.
    rewrite !firstNonEmpty_cons in H. exact H.
  - intros s f Hf Hmem r.
    pose proof (loadLibFile_new libertyParser EmptyString f s Hf Hmem) as H.
    cbv zeta in H. fold r in H. destruct H as (Hlib & Hlp & Hip & Htu).
    split; [|split].
    + rewrite Hlib, dict_mem_app, dict_mem_single, String.eqb_refl.
      apply orb_true_r.
    + intros Hset. rewrite Hlp, Hip, (strEmpty_false _ Hset). simpl.
      repeat split. intros u Hu Hdiff.
      now apply loadLibFile_unit_warning.
    + intros Hset. rewrite Htu, (strEmpty_false _ Hset).
      split; [reflexivity|]. intros u Hu Hdiff.
      now apply loadLibFile_time_warning.
Qed.

(** Two libraries with different units: the units of the first stay. *)
Lemma loadAll_reference_units_witness :
  let files := ["/lib/a.lib"; "/lib/b.lib"]%string in
  leakagePowerUnit (loadAll mixedUnits files initVars) = "mW"%string
  /\ timingUnit (loadAll mixedUnits files initVars) = "ns"%string
  /\ dict_keys (libDic (loadAll mixedUnits files initVars))
     = ["a.lib"; "b.lib"]%string.
Proof.
  intros files.
  assert (Hnd : NoDup (map basename files)).
  { repeat constructor; simpl; intuition discriminate. }
  assert (Hne : Forall (fun f => f <> EmptyString) files).
  { repeat constructor; discriminate. }
  destruct (loadAll_reference_units mixedUnits files Hnd Hne)
    as [(Hk & Hl & _ & Ht) _].
  rewrite Hl, Ht, Hk. repeat split.
Defined.

(** ** Selection set *)

Section DictShape.
Context {V : Type}.
Implicit Types (d : Dict V) (k : string).

Lemma dict_mem_In k d : dict_mem k d = true <-> In k (dict_keys d).
Proof.
  unfold dict_mem. induction d as [|[k' v] d IH]; simpl.
  - split; [discriminate|intros []].
  - destruct (String.eqb_spec k' k) as [->|Hne].
    + split; [now left|reflexivity].
    + rewrite IH. split; [now right|]. intros [E|H]; [contradiction|exact H].
Qed.

Lemma dict_mem_notIn k d : dict_mem k d = false <-> ~ In k (dict_keys d).
Proof.
  rewrite <- dict_mem_In. now destruct (dict_mem k d).
Qed.

Lemma dict_keys_update k (f : V -> V) d :
  dict_keys (dict_update k f d) = dict_keys d.
Proof.
  induction d as [|[k' v] d IH]; simpl; [reflexivity|].
  destruct (String.eqb k' k); simpl; [reflexivity|now f_equal].
Qed.

Lemma dict_keys_set_absent k (v : V) d :
  dict_mem k d = false -> dict_keys (dict_set k v d) = dict_keys d ++ [k].
Proof.
  intros H. rewrite (dict_set_absent _ _ _ H). unfold dict_keys.
  now rewrite map_app.
Qed.

Lemma dict_del_In k k' d :
  In k' (dict_keys (dict_del k d)) -> In k' (dict_keys d).
Proof.
  induction d as [|[a v] d IH]; simpl; [intros []|].
  destruct (String.eqb a k); simpl.
  - now right.
  - intros [E|H]; [now left|right; now apply IH].
Qed.

Lemma dict_del_NoDup k d :
  NoDup (dict_keys d) -> NoDup (dict_keys (dict_del k d)).
Proof.
  induction d as [|[a v] d IH]; simpl; intros H; [constructor|].
  inversion H as [|? ? Ha Hd]; subst.
  destruct (String.eqb a k); simpl; [exact Hd|].
  constructor; [|now apply IH].
  intros Hin. apply Ha. eapply dict_del_In. exact Hin.
Qed.

Lemma dict_del_length k d :
  dict_mem k d = true -> S (length (dict_del k d)) = length d.
Proof.
  unfold dict_mem. induction d as [|[a v] d IH]; simpl; [discriminate|].
  destruct (String.eqb a k); simpl; [reflexivity|].
  intros H. now rewrite IH.
Qed.

Lemma NoDup_snoc (l : list string) k :
  NoDup l -> ~ In k l -> NoDup (l ++ [k]).
Proof.
  intros Hl Hk. apply NoDup_rev in Hl.
  rewrite <- (rev_involutive (l ++ [k])). apply NoDup_rev.
  rewrite rev_app_distr. simpl. constructor; [|exact Hl].
  now rewrite <- in_rev.
Qed.
End DictShape.

Lemma cellTotal_app s1 s2 : cellTotal (s1 ++ s2) = cellTotal s1 + cellTotal s2.
Proof. unfold cellTotal. now rewrite map_app, list_sum_app. Qed.

Lemma cellTotal_update lib f spec cells :
  dict_get lib spec = Some cells ->
  cellTotal (dict_update lib f spec) + length cells
  = cellTotal spec + length (f cells).
Proof.
  unfold cellTotal. induction spec as [|[k v] spec IH]; simpl; [discriminate|].
  destruct (String.eqb k lib); simpl.
  - intros E. inversion E; subst. lia.
  - intros E. specialize (IH E). lia.
Qed.

Lemma cellTotal_del_empty lib spec :
  dict_get lib spec = Some [] -> cellTotal (dict_del lib spec) = cellTotal spec.
Proof.
  unfold cellTotal. induction spec as [|[k v] spec IH]; simpl; [discriminate|].
  destruct (String.eqb k lib); simpl.
  - intros E. inversion E; subst. reflexivity.
  - intros E. now rewrite (IH E).
Qed.

Lemma dict_get_update {V : Type} k (f : V -> V) (d : Dict V) :
  dict_get k (dict_update k f d) = option_map f (dict_get k d).
Proof.
  induction d as [|[k' v] d IH]; simpl; [reflexivity|].
  destruct (String.eqb k' k) eqn:E; simpl; rewrite E; [reflexivity|exact IH].
Qed.

Lemma Forall_update {V : Type} (P : string * V -> Prop) k (f : V -> V)
  (d : Dict V) :
  Forall P d ->
  (forall v, dict_get k d = Some v -> P (k, v) -> P (k, f v)) ->
  Forall P (dict_update k f d).
Proof.
  induction d as [|[k' v] d IH]; simpl; intros Hd Hf; [constructor|].
  inversion Hd as [|? ? Hv Hd']; subst.
  destruct (String.eqb_spec k' k) as [->|Hne].
  - constructor; [|exact Hd']. apply Hf; [reflexivity|exact Hv].
  - constructor; [exact Hv|]. apply IH; [exact Hd'|exact Hf].
Qed.

Lemma Forall_del {V : Type} (P : string * V -> Prop) k (d : Dict V) :
  Forall P d -> Forall P (dict_del k d).
Proof.
  induction d as [|[k' v] d IH]; simpl; intros Hd; [constructor|].
  inversion Hd as [|? ? Hv Hd']; subst.
  destruct (String.eqb k' k); [exact Hd'|].
  constructor; [exact Hv|now apply IH].
Qed.

Lemma dict_get_mem {V : Type} k (d : Dict V) :
  dict_mem k d = true -> exists v, dict_get k d = Some v.
Proof.
  unfold dict_mem. destruct (dict_get k d) as [v|]; [now exists v|discriminate].
Qed.

Lemma dict_get_nomem {V : Type} k (d : Dict V) :
  dict_mem k d = false -> dict_get k d = None.
Proof.
  unfold dict_mem. now destruct (dict_get k d).
Qed.

Lemma dict_update_app_absent {V : Type} k (f : V -> V) (v : V) (d : Dict V) :
  dict_mem k d = false -> dict_update k f (d ++ [(k, v)]) = d ++ [(k, f v)].
Proof.
  unfold dict_mem. induction d as [|[k' w] d IH]; simpl.
  - now rewrite String.eqb_refl.
  - destruct (String.eqb k' k); [discriminate|].
    intros H. now rewrite IH.
Qed.

Lemma dict_get_app_absent {V : Type} k (v : V) (d : Dict V) :
  dict_mem k d = false -> dict_get k (d ++ [(k, v)]) = Some v.
Proof.
  unfold dict_mem. induction d as [|[k' w] d IH]; simpl.
  - now rewrite String.eqb_refl.
  - destruct (String.eqb k' k); [discriminate|exact IH].
Qed.

(** A checked cell that is not in the selection is entered. *)
Lemma SelectionOk_add spec count lib cells cell :
  SelectionOk spec count ->
  dict_get lib spec = Some cells ->
  dict_mem cell cells = false ->
  SelectionOk (dict_update lib (dict_set cell emptyCell) spec) (count + 1).
Proof.
  intros [Hc Hn Hl Hs] Hget Hcell. constructor.
  - pose proof (cellTotal_update lib (dict_set cell emptyCell) spec cells Hget)
      as H.
    rewrite (dict_set_absent _ _ _ Hcell), length_app in H. simpl in H. lia.
  - apply Forall_update; [exact Hn|]. intros v Hv _. simpl.
    pose proof (eq_trans (eq_sym Hv) Hget) as Ev; inversion Ev; subst v.
    rewrite (dict_set_absent _ _ _ Hcell). now destruct cells.
  - now rewrite dict_keys_update.
  - apply Forall_update; [exact Hs|]. intros v Hv Hnd. simpl in *.
    pose proof (eq_trans (eq_sym Hv) Hget) as Ev; inversion Ev; subst v.
    rewrite (dict_keys_set_absent _ _ _ Hcell).
    apply NoDup_snoc; [exact Hnd|]. now apply dict_mem_notIn.
Qed.

(** A checked cell of a library that is not in the selection. *)
Lemma SelectionOk_add_lib spec count lib cell :
  SelectionOk spec count ->
  dict_mem lib spec = false ->
  SelectionOk (spec ++ [(lib, [(cell, emptyCell)])]) (count + 1).
Proof.
  intros [Hc Hn Hl Hs] Hlib. constructor.
  - rewrite cellTotal_app. unfold cellTotal at 2. simpl. lia.
  - apply Forall_app. split; [exact Hn|]. repeat constructor. discriminate.
  - unfold dict_keys. rewrite map_app. simpl.
    apply NoDup_snoc; [exact Hl|]. now apply dict_mem_notIn.
  - apply Forall_app. split; [exact Hs|]. repeat constructor. intros [].
Qed.

(** The library whose last cell is unchecked is deleted with it. *)
Lemma Forall_nonEmpty_del lib (spec : Dict (Dict ProjCell)) :
  Forall (fun kv => snd kv <> []) spec ->
  Forall (fun kv => snd kv <> [])
         (dict_del lib (dict_update lib (fun _ => []) spec)).
Proof.
  induction spec as [|[k v] spec IH]; simpl; intros H; [constructor|].
  inversion H as [|? ? Hv H']; subst.
  destruct (String.eqb k lib) eqn:E; simpl; rewrite E; [exact H'|].
  constructor; [exact Hv|now apply IH].
Qed.

Lemma dict_update_ext_at {V : Type} k (f g : V -> V) (d : Dict V) v :
  dict_get k d = Some v -> f v = g v -> dict_update k f d = dict_update k g d.
Proof.
  induction d as [|[k' w] d IH]; simpl; [discriminate|].
  destruct (String.eqb k' k).
  - intros E Hfg. inversion E; subst. now rewrite Hfg.
  - intros E Hfg. now rewrite IH.
Qed.

Lemma SelectionOk_step spec count item :
  SelectionOk spec count ->
  SelectionOk (fst (selectItem (spec, count) item))
              (snd (selectItem (spec, count) item)).
Proof.
  intros Hok. destruct item as [[lib cell] state]. unfold selectItem.
  destruct state; [| exact Hok |].
  - (* Unchecked *)
    unfold isSpecified.
    destruct (dict_get lib spec) as [cells|] eqn:Hget; [|exact Hok].
    destruct (dict_mem cell cells) eqn:Hcell; [|exact Hok].
    destruct Hok as [Hc Hn Hl Hs].
    set (spec1 := dict_update lib (dict_del cell) spec).
    assert (Hget1 : dict_get lib spec1 = Some (dict_del cell cells)).
    { unfold spec1. now rewrite dict_get_update, Hget. }
    assert (Htot : cellTotal spec1 + 1 = cellTotal spec).
    { pose proof (cellTotal_update lib (dict_del cell) spec cells Hget) as H.
      pose proof (dict_del_length cell cells Hcell) as H'.
      fold spec1 in H. lia. }
    assert (Hl1 : NoDup (dict_keys spec1)).
    { unfold spec1. now rewrite dict_keys_update. }
    assert (Hs1 : Forall (fun kv => NoDup (dict_keys (snd kv))) spec1).
    { unfold spec1. apply Forall_update; [exact Hs|].
      intros v _ Hv. simpl in *. now apply dict_del_NoDup. }
    rewrite Hget1. simpl optOr.
    destruct (dict_del cell cells) as [|c0 rest] eqn:Hdel; simpl.
    + constructor.
      * rewrite cellTotal_del_empty by exact Hget1. lia.
      * unfold spec1.
        rewrite (dict_update_ext_at lib (dict_del cell) (fun _ => []) spec
                   cells Hget Hdel).
        now apply Forall_nonEmpty_del.
      * now apply dict_del_NoDup.
      * now apply Forall_del.
    + constructor.
      * lia.
      * unfold spec1. apply Forall_update; [exact Hn|].
        intros v Hv _. simpl. pose proof (eq_trans (eq_sym Hv) Hget) as Ev; inversion Ev; subst v.
        rewrite Hdel. discriminate.
      * exact Hl1.
      * exact Hs1.
  - (* Checked *)
    destruct (dict_mem lib spec) eqn:Hlib.
    + destruct (dict_get_mem _ _ Hlib) as [cells Hget]. rewrite Hget.
      simpl optOr.
      destruct (dict_mem cell cells) eqn:Hcell; [exact Hok|].
      now apply SelectionOk_add with cells.
    + rewrite (dict_set_absent _ _ _ Hlib).
      rewrite (dict_get_app_absent _ _ _ Hlib). simpl optOr.
      change (dict_mem cell (@nil (string * ProjCell))) with false. cbv iota.
      rewrite (dict_update_app_absent _ _ _ _ Hlib). simpl.
      now apply SelectionOk_add_lib.
Qed.

Lemma SelectionOk_loop items : forall spec count,
  SelectionOk spec count ->
  SelectionOk (fst (fold_left selectItem items (spec, count)))
              (snd (fold_left selectItem items (spec, count))).
Proof.
  induction items as [|it items IH]; intros spec count Hok; simpl.
  - exact Hok.
  - pose proof (SelectionOk_step spec count it Hok) as H.
    destruct (selectItem (spec, count) it) as [spec' count'].
    now apply IH.
Qed.

Lemma SelectionOk_selectCells t :
  SelectionOk (fst (selectCells t)) (snd (selectCells t)).
Proof.
  apply SelectionOk_loop. constructor; simpl; constructor.
Qed.

Lemma allCells_length (spec : Dict (Dict ProjCell)) :
  length (allCells spec) = cellTotal spec.
Proof.
  unfold allCells, cellTotal. induction spec as [|[k v] spec IH]; simpl.
  - reflexivity.
  - now rewrite length_app, length_map, IH.
Qed.

Lemma selectedPairs_lib (spec : Dict (Dict ProjCell)) lib cell :
  In (lib, cell) (selectedPairs spec) -> In lib (dict_keys spec).
Proof.
  unfold selectedPairs, allCells.
  induction spec as [|[k v] spec IH]; simpl; [intros []|].
  rewrite map_app, in_app_iff, map_map. simpl. intros [H|H].
  - left. apply in_map_iff in H. destruct H as [c [E _]]. now inversion E.
  - right. now apply IH.
Qed.

Lemma selectedPairs_NoDup (spec : Dict (Dict ProjCell)) :
  NoDup (dict_keys spec) ->
  Forall (fun kv => NoDup (dict_keys (snd kv))) spec ->
  NoDup (selectedPairs spec).
Proof.
  induction spec as [|[k v] spec IH]; intros Hl Hs; [constructor|].
  inversion Hl as [|? ? Hk Hl']; subst.
  inversion Hs as [|? ? Hv Hs']; subst. simpl in Hv.
  change (selectedPairs ((k, v) :: spec))
    with (map fst (map (fun c : string * ProjCell => (k, fst c, snd c)) v
                   ++ allCells spec)).
  rewrite map_app, map_map. simpl.
  apply NoDup_app.
  - clear - Hv. induction v as [|[c x] v IHv]; simpl; [constructor|].
    simpl in Hv. inversion Hv as [|? ? Hc Hv']; subst.
    constructor; [|now apply IHv].
    rewrite in_map_iff. intros [[c' x'] [E Hin]]. simpl in E.
    inversion E; subst. apply Hc. unfold dict_keys.
    change c with (fst (c, x')). now apply in_map.
  - now apply IH.
  - intros [lib cell] Hin Hin'. apply in_map_iff in Hin.
    destruct Hin as [c [E _]]. inversion E; subst.
    apply Hk. eapply selectedPairs_lib. exact Hin'.
Qed.

(** ** The pass keeps the keys of the selection *)

Lemma selectedPairs_shapeOf (spec : Dict (Dict ProjCell)) :
  selectedPairs spec
  = flat_map (fun kv => map (pair (fst kv)) (snd kv)) (shapeOf spec).
Proof.
  unfold selectedPairs, allCells, shapeOf.
  induction spec as [|[k v] spec IH]; simpl; [reflexivity|].
  rewrite map_app, IH. f_equal.
  unfold dict_keys. rewrite !map_map. reflexivity.
Qed.

Lemma dict_keys_set_present {V : Type} k (v : V) (d : Dict V) :
  dict_mem k d = true -> dict_keys (dict_set k v d) = dict_keys d.
Proof.
  intros H. unfold dict_set. rewrite H. apply dict_keys_update.
Qed.

Lemma projectCell_keys count p st kv st' :
  projectCell count p st kv = Ok st' ->
  In (fst kv) (dict_keys (lp_cells st)) ->
  dict_keys (lp_cells st') = dict_keys (lp_cells st).
Proof.
  unfold projectCell. intros H Hin. bindOk H. bindOk H.
  destruct x0 as [c2 leak]. bindOk H. destruct x0 as [pd1 [c3 tim]].
  bindOk H. destruct x0 as [pd2 [c4 pow]]. inversion H; subst; simpl.
  apply dict_keys_set_present. now apply dict_mem_In.
Qed.

Lemma projectCells_keys count p l : forall st st',
  foldRes (projectCell count p) l st = Ok st' ->
  (forall kv, In kv l -> In (fst kv) (dict_keys (lp_cells st))) ->
  dict_keys (lp_cells st') = dict_keys (lp_cells st).
Proof.
  induction l as [|kv l IH]; simpl; intros st st' H Hin.
  - now inversion H.
  - bindOk H.
    assert (E : dict_keys (lp_cells x) = dict_keys (lp_cells st)).
    { eapply projectCell_keys; [exact Hx|]. apply Hin. now left. }
    rewrite (IH _ _ H); [exact E|].
    intros kv' Hkv. rewrite E. apply Hin. now right.
Qed.

(** The cells a library contributes carry the names the selection has for
    it. *)
Lemma projectLib_keys count libs lib cells r :
  projectLib count libs lib cells = Ok r ->
  dict_keys (lp_cells r) = dict_keys cells.
Proof.
  unfold projectLib. intros H. bindOk H.
  apply projectCells_keys in H; [exact H|].
  simpl. intros kv Hkv. unfold dict_keys. now apply in_map.
Qed.

Lemma shapeOf_update {V : Type} lib (f : Dict V -> Dict V) (d : Dict (Dict V)) :
  (forall v, In (lib, v) d -> dict_keys (f v) = dict_keys v) ->
  shapeOf (dict_update lib f d) = shapeOf d.
Proof.
  induction d as [|[k v] d IH]; simpl; intros H; [reflexivity|].
  destruct (String.eqb_spec k lib) as [->|Hne]; simpl.
  - f_equal. f_equal. apply H. now left.
  - f_equal. apply IH. intros v' Hv'. apply H. now right.
Qed.

Lemma shapeOf_keys {V : Type} (d : Dict (Dict V)) :
  map fst (shapeOf d) = dict_keys d.
Proof. unfold shapeOf, dict_keys. now rewrite map_map. Qed.

Lemma NoDup_keys_functional {A : Type} (l : list (string * A)) k a b :
  NoDup (map fst l) -> In (k, a) l -> In (k, b) l -> a = b.
Proof.
  induction l as [|[k' x] l IH]; simpl; intros Hnd Ha Hb; [contradiction|].
  inversion Hnd as [|? ? Hk Hnd']; subst.
  destruct Ha as [Ea|Ha], Hb as [Eb|Hb].
  - congruence.
  - inversion Ea; subst. exfalso. apply Hk.
    change k with (fst (k, b)). now apply in_map.
  - inversion Eb; subst. exfalso. apply Hk.
    change k with (fst (k, a)). now apply in_map.
  - now apply IH.
Qed.

(** The loop over the libraries leaves the libraries of the selection and
    the names of their cells as they were. *)
Lemma projectAll_shape_loop count libs spec l : forall pj pj',
  NoDup (dict_keys spec) ->
  (forall kv, In kv l -> In kv spec) ->
  shapeOf (pj_specified pj) = shapeOf spec ->
  foldRes
    (fun pj kv =>
       r <- projectLib count libs (fst kv) (snd kv) ;;
       Ok {| pj_specified := dict_set (fst kv) (lp_cells r) (pj_specified pj);
             pj_leakage := dict_set (fst kv) (lp_leakage r) (pj_leakage pj);
             pj_timing := dict_set (fst kv) (lp_timing r) (pj_timing pj);
             pj_internalPower :=
               dict_set (fst kv) (lp_internalPower r) (pj_internalPower pj) |})
    l pj = Ok pj' ->
  shapeOf (pj_specified pj') = shapeOf spec.
Proof.
  induction l as [|[lib cells] l IH]; simpl; intros pj pj' Hnd Hin Hs H.
  - now inversion H; subst.
  - bindOk H. bindOk Hx. inversion Hx; subst; clear Hx.
    apply (IH _ _ Hnd) in H; [exact H|intros kv Hkv; apply Hin; now right|].
    cbn [pj_specified fst snd].
    assert (Hlib : In (lib, cells) spec) by (apply Hin; now left).
    assert (Hmem : dict_mem lib (pj_specified pj) = true).
    { apply dict_mem_In. rewrite <- shapeOf_keys, Hs, shapeOf_keys.
      unfold dict_keys. change lib with (fst (lib, cells)). now apply in_map. }
    unfold dict_set. rewrite Hmem. rewrite shapeOf_update; [exact Hs|].
    intros v Hv. rewrite (projectLib_keys _ _ _ _ _ Hx0).
    assert (H1 : In (lib, dict_keys v) (shapeOf spec)).
    { rewrite <- Hs. unfold shapeOf.
      change (lib, dict_keys v)
        with ((fun kv : string * Dict ProjCell => (fst kv, dict_keys (snd kv)))
                (lib, v)).
      now apply in_map. }
    assert (H2 : In (lib, dict_keys cells) (shapeOf spec)).
    { unfold shapeOf.
      change (lib, dict_keys cells)
        with ((fun kv : string * Dict ProjCell => (fst kv, dict_keys (snd kv)))
                (lib, cells)).
      now apply in_map. }
    symmetry. eapply NoDup_keys_functional; [|exact H1|exact H2].
    now rewrite shapeOf_keys.
Qed.

Lemma projectAll_shape count libs spec pj :
  NoDup (dict_keys spec) ->
  projectAll count libs spec = Ok pj ->
  shapeOf (pj_specified pj) = shapeOf spec.
Proof.
  intros Hnd H. unfold projectAll in H.
  eapply projectAll_shape_loop in H; [exact H|exact Hnd|auto|reflexivity].
Qed.

Lemma shapeOf_nonEmpty {V W : Type} (a : Dict (Dict V)) (b : Dict (Dict W)) :
  shapeOf a = shapeOf b ->
  Forall (fun kv => snd kv <> []) b ->
  Forall (fun kv => snd kv <> []) a.
Proof.
  revert b. induction a as [|[k v] a IH]; intros [|[k' w] b] E Hb;
    simpl in E; try discriminate; constructor.
  - inversion E; subst. inversion Hb; subst. simpl in *.
    destruct v; [|discriminate]. destruct w; [contradiction|discriminate].
  - inversion E. inversion Hb; subst. eapply IH; eassumption.
Qed.

(** The selection a pass leaves: the count is the number of its pairs,
    the pairs are distinct, no library is left without a cell. *)
Lemma cellListBeClicked_selection s s' :
  cellListBeClicked s = Ok s' ->
  specifiedCellCount s'
  = Z.of_nat (length (selectedPairs (specifiedLibDic s')))
  /\ NoDup (selectedPairs (specifiedLibDic s'))
  /\ (forall lib cells, In (lib, cells) (specifiedLibDic s') -> cells <> [])
  /\ selectedPairs (specifiedLibDic s')
     = selectedPairs (fst (selectCells (cellListTree s))).
Proof.
  unfold cellListBeClicked.
  pose proof (SelectionOk_selectCells (cellListTree s)) as Hok.
  destruct (selectCells (cellListTree s)) as [spec count]. simpl in Hok.
  destruct Hok as [Hc Hn Hl Hs].
  intros H. bindOk H. inversion H; subst s'; clear H. cbn [specifiedLibDic specifiedCellCount fst].
  pose proof (projectAll_shape _ _ _ _ Hl Hx) as Hshape.
  assert (E : selectedPairs (pj_specified x) = selectedPairs spec).
  { now rewrite !selectedPairs_shapeOf, Hshape. }
  rewrite E. split; [|split; [|split]].
  - unfold selectedPairs. now rewrite length_map, allCells_length.
  - now apply selectedPairs_NoDup.
  - intros lib cells Hin.
    pose proof (shapeOf_nonEmpty _ _ Hshape Hn) as Hne.
    rewrite Forall_forall in Hne. exact (Hne (lib, cells) Hin).
  - reflexivity.
Qed.

(** C10: after the loop over the tree, whatever the check states are, the
    count is the number of (library, cell) pairs stored in the selection,
    these pairs are distinct, and no library is stored without a cell.
    This holds for the tree any sequence of clicks leaves, and it holds
    for the session every pass leaves: the projection that follows the
    loop changes the records of the cells and none of the keys. *)
Theorem selectCells_count_invariant :
  (forall t : Tree,
     let spec := fst (selectCells t) in
     let count := snd (selectCells t) in
     count = Z.of_nat (length (selectedPairs spec))
     /\ NoDup (selectedPairs spec)
     /\ forall lib cells, In (lib, cells) spec -> cells <> [])
  /\ (forall events t,
        snd (selectCells (clicks events t))
        = Z.of_nat (length (selectedPairs (fst (selectCells (clicks events t)))))
        /\ forall lib cells,
             In (lib, cells) (fst (selectCells (clicks events t))) ->
             cells <> [])
  /\ (forall s s',
        cellListBeClicked s = Ok s' ->
        specifiedCellCount s'
        = Z.of_nat (length (selectedPairs (specifiedLibDic s')))
        /\ NoDup (selectedPairs (specifiedLibDic s'))
        /\ forall lib cells,
             In (lib, cells) (specifiedLibDic s') -> cells <> []).
Proof.
  assert (H : forall t : Tree,
     snd (selectCells t)
     = Z.of_nat (length (selectedPairs (fst (selectCells t))))
     /\ NoDup (selectedPairs (fst (selectCells t)))
     /\ forall lib cells, In (lib, cells) (fst (selectCells t)) -> cells <> []).
  { intros t. destruct (SelectionOk_selectCells t) as [Hc Hn Hl Hs].
    split; [|split].
    - unfold selectedPairs. now rewrite length_map, allCells_length.
    - now apply selectedPairs_NoDup.
    - intros lib cells Hin. rewrite Forall_forall in Hn.
      exact (Hn (lib, cells) Hin). }
  split; [|split].
  - intros t. exact (H t).
  - intros events t. destruct (H (clicks events t)) as (Hc & _ & Hn).
    split; assumption.
  - intros s s' Hs.
    destruct (cellListBeClicked_selection _ _ Hs) as (H1 & H2 & H3 & _).
    repeat split; assumption.
Qed.

(** ** Attribute projection *)

Lemma getPinInfo_flat_acc fam raws : forall st,
  fst (fold_left (addArc fam) raws st) = fst st ++ map (flatArc fam) raws.
Proof.
  induction raws as [|a raws IH]; intros st; simpl.
  - now rewrite app_nil_r.
  - rewrite IH. simpl. now rewrite <- app_assoc.
Qed.

(** The flat list has one entry for each raw entry, in order. *)
Lemma getPinInfo_flat fam raws :
  fst (getPinInfo fam raws) = map (flatArc fam) raws.
Proof. unfold getPinInfo. now rewrite getPinInfo_flat_acc. Qed.

Lemma dict_mem_set {V : Type} k k' (v : V) d :
  dict_mem k' (dict_set k v d) = String.eqb k k' || dict_mem k' d.
Proof.
  unfold dict_set. destruct (dict_mem k d) eqn:Hk.
  - assert (H : dict_mem k' (dict_update k (fun _ => v) d) = dict_mem k' d).
    { apply eq_true_iff_eq. rewrite !dict_mem_In. now rewrite dict_keys_update. }
    rewrite H. destruct (String.eqb_spec k k') as [->|_]; [|reflexivity].
    now rewrite Hk.
  - rewrite dict_mem_app, dict_mem_single. apply orb_comm.
Qed.

Lemma flatTables_mem_acc accepted raw tableType : forall d,
  dict_mem tableType
    (fold_left
       (fun d kv =>
          if isTableType accepted (fst kv)
          then dict_set (fst kv) (parseTable (snd kv)) d else d)
       raw d)
  = dict_mem tableType d
    || (isTableType accepted tableType && dict_mem tableType raw).
Proof.
  induction raw as [|[k v] raw IH]; intros d; simpl.
  - now rewrite andb_false_r, orb_false_r.
  - rewrite IH. unfold dict_mem at 4. simpl.
    fold (dict_mem tableType raw).
    destruct (String.eqb_spec k tableType) as [->|Hne].
    + destruct (isTableType accepted tableType) eqn:Ha; simpl.
      * rewrite dict_mem_set, String.eqb_refl. simpl.
        now rewrite orb_true_r.
      * reflexivity.
    + destruct (isTableType accepted k); [|reflexivity].
      rewrite dict_mem_set.
      destruct (String.eqb_spec k tableType); [contradiction|reflexivity].
Qed.

(** A table block is in the flat entry exactly when the raw entry has it
    and its name is one of the accepted ones. *)
Lemma flatArc_table_type fam a tableType :
  dict_mem tableType (table_type (flatArc fam a))
  = isTableType (acceptedTableTypes fam) tableType
    && dict_mem tableType (raw_table_type a).
Proof.
  unfold flatArc. simpl. unfold flatTables. now rewrite flatTables_mem_acc.
Qed.

(** The table types of an internal-power entry that are taken: the two
    power tables and no other. *)
Lemma internalPower_accepts tableType :
  isTableType internalPowerTableTypes tableType = true
  <-> tableType = "rise_power"%string \/ tableType = "fall_power"%string.
Proof.
  unfold isTableType, internalPowerTableTypes. simpl.
  rewrite orb_false_r, orb_true_iff, !String.eqb_eq. tauto.
Qed.

(** C6: the sigma table of a rise (or fall) constraint is not taken.  The
    names the program compares with are misspelt, so the table of
    [constraintArc] that carries the name of the library format is left
    out of the flat entry and of the index, while the constraint table
    next to it is taken. *)
Theorem getPinTimingInfo_drops_sigma_constraint :
  isTableType timingTableTypes "ocv_sigma_rise_constraint" = false
  /\ isTableType timingTableTypes "ocv_sigma_fall_constraint" = false
  /\ isTableType timingTableTypes "ocv_sigma_rise_contraint" = true
  /\ isTableType timingTableTypes "ocv_sigma_fall_contraint" = true
  /\ map (fun a => dict_keys (table_type a))
         (fst (getPinTimingInfo [constraintArc]))
     = [["rise_constraint"%string]]
  /\ hnav ["CK"; "N/A"; "N/A"; "setup_rising"; "N/A"]%string
          (snd (getPinTimingInfo [constraintArc]))
     = Ok (HNode [("rise_constraint"%string, HLeaf 2 2)]).
Proof. repeat split; vm_compute; reflexivity. Qed.

(** ** Terminal resolution, one cell selected *)

Lemma bind_Ok {A B : Type} (r : Res A) (k : A -> Res B) b :
  bind r k = Ok b -> exists a, r = Ok a /\ k a = Ok b.
Proof. destruct r as [a|e]; simpl; [now exists a|discriminate]. Qed.

Lemma dict_at_Ok {V : Type} k (d : Dict V) v :
  dict_at k d = Ok v <-> dict_get k d = Some v.
Proof.
  unfold dict_at. destruct (dict_get k d); split; intros H;
    inversion H; reflexivity.
Qed.

(** A matching entry hands its table to the result, whichever index box
    is set. *)
Lemma singleStep_match sel st a st' :
  arcMatches sel a = true ->
  singleStep sel st a = Ok st' ->
  exists t,
    dict_get (pyStrip (sel_table_type sel)) (table_type a) = Some t
    /\ st_index1List st' = index_1 t
    /\ st_index2List st' = index_2 t
    /\ st_valuesList st' = values t.
Proof.
  intros Hm H. unfold singleStep in H. rewrite Hm in H.
  bindOk H. exists x. apply dict_at_Ok in Hx. split; [exact Hx|].
  destruct (negb (strEmpty (pyStrip (sel_index_1 sel)))
            && strEmpty (pyStrip (sel_index_2 sel))).
  { repeat bindOk H. inversion H; subst; simpl; auto. }
  destruct (strEmpty (pyStrip (sel_index_1 sel))
            && negb (strEmpty (pyStrip (sel_index_2 sel)))).
  { repeat bindOk H. inversion H; subst; simpl; auto. }
  destruct (strEmpty (pyStrip (sel_index_1 sel))
            && strEmpty (pyStrip (sel_index_2 sel))).
  { repeat bindOk H. inversion H; subst; simpl; auto. }
  inversion H; subst; simpl; auto.
Qed.

Lemma singleStep_other sel st a :
  arcMatches sel a = false -> singleStep sel st a = Ok st.
Proof. intros Hm. unfold singleStep. now rewrite Hm. Qed.

Lemma find_app {A : Type} (p : A -> bool) l1 l2 :
  find p (l1 ++ l2)
  = match find p l1 with Some x => Some x | None => find p l2 end.
Proof.
  induction l1 as [|a l1 IH]; simpl; [reflexivity|].
  destruct (p a); [reflexivity|exact IH].
Qed.

Lemma find_map {A B : Type} (p : B -> bool) (f : A -> B) l :
  find p (map f l) = option_map f (find (fun a => p (f a)) l).
Proof.
  induction l as [|a l IH]; simpl; [reflexivity|].
  destruct (p (f a)); [reflexivity|exact IH].
Qed.

(** The loop has no [break]: the last matching entry of the flat list
    decides the three lists. *)
Lemma resolveSingle_last sel l : forall st0 st,
  foldRes (singleStep sel) l st0 = Ok st ->
  match find (arcMatches sel) (rev l) with
  | Some a =>
      exists t,
        dict_get (pyStrip (sel_table_type sel)) (table_type a) = Some t
        /\ st_index1List st = index_1 t
        /\ st_index2List st = index_2 t
        /\ st_valuesList st = values t
  | None =>
      st_index1List st = st_index1List st0
      /\ st_index2List st = st_index2List st0
      /\ st_valuesList st = st_valuesList st0
  end.
Proof.
  induction l as [|a l IH]; intros st0 st H; simpl in *.
  - inversion H. auto.
  - bindOk H. specialize (IH x st H). rewrite find_app.
    destruct (find (arcMatches sel) (rev l)) as [b|]; [exact IH|].
    simpl. destruct (arcMatches sel a) eqn:Hm.
    + destruct (singleStep_match sel st0 a x Hm Hx) as (t & Ht & H1 & H2 & H3).
      exists t. destruct IH as (I1 & I2 & I3).
      repeat split; congruence.
    + rewrite (singleStep_other sel st0 a Hm) in Hx. inversion Hx; subst.
      exact IH.
Qed.

Lemma arcMatches_flatArc sel a :
  arcMatches sel (flatArc Timing a) = rawMatches sel a.
Proof. reflexivity. Qed.

(** With distinct keys in the raw dictionary of tables, the tables of the
    flat entry are the accepted raw blocks, parsed. *)
Lemma flatTables_get_acc accepted raw tableType : forall d,
  NoDup (dict_keys d ++ dict_keys raw) ->
  dict_get tableType
    (fold_left
       (fun d kv =>
          if isTableType accepted (fst kv)
          then dict_set (fst kv) (parseTable (snd kv)) d else d)
       raw d)
  = match dict_get tableType d with
    | Some t => Some t
    | None =>
        if isTableType accepted tableType
        then option_map parseTable (dict_get tableType raw)
        else None
    end.
Proof.
  induction raw as [|[k v] raw IH]; intros d Hnd; simpl.
  - destruct (dict_get tableType d); [reflexivity|].
    now destruct (isTableType accepted tableType).
  - assert (Hk : dict_mem k d = false).
    { apply dict_mem_notIn. intros Hin. simpl in Hnd.
      apply NoDup_remove_2 in Hnd. apply Hnd. apply in_or_app. now left. }
    assert (Hnd' : forall x, NoDup (dict_keys (d ++ [(k, x)]) ++ dict_keys raw)).
    { intros x. unfold dict_keys in *. rewrite map_app. simpl.
      rewrite <- app_assoc. exact Hnd. }
    assert (Hd : NoDup (dict_keys d ++ dict_keys raw)).
    { simpl in Hnd. now apply NoDup_remove_1 in Hnd. }
    destruct (isTableType accepted k) eqn:Hacc.
    + rewrite (dict_set_absent _ _ _ Hk), IH by apply Hnd'.
      destruct (String.eqb_spec k tableType) as [->|Hne].
      * rewrite (dict_get_app_absent _ _ _ Hk).
        rewrite (dict_get_nomem _ _ Hk), Hacc. reflexivity.
      * assert (Hg : dict_get tableType (d ++ [(k, parseTable v)])
                     = dict_get tableType d).
        { clear - Hne. induction d as [|[k' w] d IHd]; simpl.
          - destruct (String.eqb_spec k tableType); [contradiction|reflexivity].
          - destruct (String.eqb k' tableType); [reflexivity|exact IHd]. }
        rewrite Hg. reflexivity.
    + rewrite IH by exact Hd.
      destruct (String.eqb_spec k tableType) as [->|Hne]; [|reflexivity].
      rewrite (dict_get_nomem _ _ Hk), Hacc.
      destruct (dict_get tableType raw) eqn:Hr; [|reflexivity].
      exfalso. simpl in Hnd. apply NoDup_remove_2 in Hnd. apply Hnd.
      apply in_or_app. right. apply dict_mem_In.
      unfold dict_mem. now rewrite Hr.
Qed.

Lemma flatArc_get fam a tableType t :
  NoDup (dict_keys (raw_table_type a)) ->
  dict_get tableType (table_type (flatArc fam a)) = Some t ->
  isTableType (acceptedTableTypes fam) tableType = true
  /\ exists block,
       dict_get tableType (raw_table_type a) = Some block
       /\ t = parseTable block.
Proof.
  intros Hnd H. unfold flatArc in H. simpl in H. unfold flatTables in H.
  rewrite flatTables_get_acc in H by exact Hnd. simpl in H.
  destruct (isTableType (acceptedTableTypes fam) tableType); [|discriminate].
  split; [reflexivity|].
  destruct (dict_get tableType (raw_table_type a)) as [block|];
    [|discriminate].
  exists block. split; [reflexivity|]. now inversion H.
Qed.

Lemma find_some_In {A : Type} (p : A -> bool) l a :
  find p l = Some a -> In a l.
Proof. intros H. now apply find_some in H. Qed.

(** C3: every scalar of the table that the loop over the flat list of a
    pin resolves, one cell being selected, is the scalar the raw list of
    that pin has at the same discriminators, table type and positions.
    The raw dictionaries of tables have distinct keys, as dictionaries
    have. *)
Theorem resolveSingle_round_trip sel raws st i j v :
  Forall (fun a => NoDup (dict_keys (raw_table_type a))) raws ->
  resolveSingle sel (fst (getPinTimingInfo raws)) = Ok st ->
  itemAt (tableItems st) i j = Some v ->
  rawScalar sel raws i j = Some v
  /\ isTableType timingTableTypes (pyStrip (sel_table_type sel)) = true.
Proof.
  intros Hnd Hres Hitem.
  unfold getPinTimingInfo in Hres. rewrite getPinInfo_flat in Hres.
  pose proof (resolveSingle_last sel _ _ _ Hres) as H.
  rewrite <- map_rev, find_map in H.
  unfold rawScalar, rawEntry.
  assert (Hfun : forall l,
            find (fun a => arcMatches sel (flatArc Timing a)) l
            = find (rawMatches sel) l) by reflexivity.
  rewrite Hfun in H.
  destruct (find (rawMatches sel) (rev raws)) as [a|] eqn:Hfind; simpl in H.
  - destruct H as (t & Ht & H1 & H2 & H3).
    assert (Ha : NoDup (dict_keys (raw_table_type a))).
    { rewrite Forall_forall in Hnd. apply Hnd. apply in_rev.
      eapply find_some_In. exact Hfind. }
    destruct (flatArc_get Timing a _ t Ha Ht) as (Hacc & block & Hb & ->).
    rewrite Hb. split; [|exact Hacc].
    unfold tableItems in Hitem. rewrite H1, H3 in Hitem. simpl in Hitem.
    destruct (parseIndex (raw_index_1 block)); [|exact Hitem].
    unfold itemAt in Hitem. now destruct i.
  - destruct H as (H1 & _ & _). unfold tableItems in Hitem.
    rewrite H1 in Hitem. simpl in Hitem. unfold itemAt in Hitem.
    now destruct i.
Qed.

(** The table of the specification, resolved with both index boxes
    empty: the scalar of the second row and second column. *)
Lemma resolveSingle_round_trip_witness :
  rawScalar (specSel EmptyString EmptyString) [specArc] 1 1 = Some "40"%string
  /\ isTableType timingTableTypes "cell_rise" = true.
Proof.
  assert (Hnd : Forall (fun a => NoDup (dict_keys (raw_table_type a)))
                       [specArc]).
  { repeat constructor. intros []. }
  destruct (resolveSingle (specSel EmptyString EmptyString)
              (fst (getPinTimingInfo [specArc]))) as [st|e] eqn:Hres.
  - apply (resolveSingle_round_trip (specSel EmptyString EmptyString)
             [specArc] st 1 1 "40"%string Hnd Hres).
    vm_compute in Hres. inversion Hres. reflexivity.
  - vm_compute in Hres. discriminate.
Defined.

(** ** The table of the specification, one cell selected *)

(** C2, as stated, does not hold.  The index boxes hold positions, so the
    text 1 in the first box selects the second row: the curve is 30, 40
    over 0.1, 0.2 and not 10, 20.  With both boxes set, to the texts 2 and
    0.2 or to any others, no branch of the loop computes anything: no
    scalar is resolved and the lists of the curve stay empty. *)
Lemma updateTimingTabTable_selector_is_position :
  demoSession ["BUFX"%string] = Ok demoOne
  /\ figureLists (updateTimingTabTable demoOne (specSel "1" ""))
  = Some ([Finite (1 # 10); Finite (1 # 5)], [Finite 30; Finite 40])
  /\ figureLists (updateTimingTabTable demoOne (specSel "1" ""))
     <> Some ([Finite (1 # 10); Finite (1 # 5)], [Finite 10; Finite 20])
  /\ figureLists (updateTimingTabTable demoOne (specSel "2" "0.2"))
     = Some ([], []).
Proof.
  split; [vm_compute; reflexivity|].
  split; [vm_compute; reflexivity|].
  split; [vm_compute; discriminate|].
  vm_compute; reflexivity.
Qed.

(** C2, amended: for the timing entry with index_1 = 1, 2, index_2 = 0.1,
    0.2 and values 10, 20 / 30, 40, one cell being selected, the items of
    the index boxes are the empty text and the positions 0 and 1; with the
    first box at position 0 and the second empty the curve is 10, 20 over
    0.1, 0.2 (position 1 gives 30, 40); with the first box empty and the
    second at position 1 it is 20, 40 over 1, 2; with both boxes set no
    curve and no scalar is computed, the table of the widget holding all
    values, 40 in its second row and second column. *)
Theorem updateTimingTabTable_spec_table :
  demoSession ["BUFX"%string] = Ok demoOne
  /\ specifiedCellCount demoOne = 1%Z
  /\ updateTimingTabIndexCombo demoOne (specSel "" "")
  = Ok ([""; "0"; "1"]%string, [""; "0"; "1"]%string)
  /\ figureLists (updateTimingTabTable demoOne (specSel "0" ""))
     = Some ([Finite (1 # 10); Finite (1 # 5)], [Finite 10; Finite 20])
  /\ figureLists (updateTimingTabTable demoOne (specSel "1" ""))
     = Some ([Finite (1 # 10); Finite (1 # 5)], [Finite 30; Finite 40])
  /\ figureLists (updateTimingTabTable demoOne (specSel "" "1"))
     = Some ([Finite 1; Finite 2], [Finite 20; Finite 40])
  /\ figureLists (updateTimingTabTable demoOne (specSel "1" "1"))
     = Some ([], [])
  /\ shownTable (updateTimingTabTable demoOne (specSel "1" "1"))
     = Some [["10"; "20"]; ["30"; "40"]]%string
  /\ option_map (fun t => itemAt t 1 1)
       (shownTable (updateTimingTabTable demoOne (specSel "1" "1")))
     = Some (Some "40"%string).
Proof. repeat split; vm_compute; reflexivity. Qed.

(** ** The structural check *)

Section CheckFacts.
Context {T : Type} (isEmpty : T -> bool) (eqb : T -> T -> bool).

Lemma checkCells_app c1 c2 last :
  checkCells isEmpty eqb (c1 ++ c2) last
  = (let (last', enable) := checkCells isEmpty eqb c1 last in
     if enable then checkCells isEmpty eqb c2 last' else (last', false)).
Proof.
  revert last. induction c1 as [|[k t] c1 IH]; intros last; simpl.
  - now destruct (checkCells isEmpty eqb c2 last).
  - destruct (notLast isEmpty last); [apply IH|].
    destruct (negb (eqb (optOr last t) t)); [reflexivity|apply IH].
Qed.

(** The two loops are one loop over the cells of all libraries. *)
Lemma checkLibs_flat tabDic : forall last,
  checkLibs isEmpty eqb tabDic last
  = snd (checkCells isEmpty eqb (flat_map snd tabDic) last).
Proof.
  induction tabDic as [|[k cells] tabDic IH]; intros last; simpl.
  - reflexivity.
  - rewrite checkCells_app.
    destruct (checkCells isEmpty eqb cells last) as [last' enable].
    destruct enable; [apply IH|reflexivity].
Qed.

Lemma checkCells_reference cells t :
  isEmpty t = false ->
  snd (checkCells isEmpty eqb cells (Some t))
  = forallb (eqb t) (map snd cells).
Proof.
  intros Ht. induction cells as [|[k c] cells IH]; simpl; [reflexivity|].
  rewrite Ht. destruct (eqb t c); simpl; [exact IH|reflexivity].
Qed.

Lemma checkCells_first cells : forall last,
  notLast isEmpty last = true ->
  snd (checkCells isEmpty eqb cells last)
  = allEqualToFirst eqb (dropWhile isEmpty (map snd cells)).
Proof.
  induction cells as [|[k c] cells IH]; intros last Hl; simpl.
  - reflexivity.
  - rewrite Hl. destruct (isEmpty c) eqn:Hc.
    + apply IH. exact Hc.
    + simpl. now apply checkCells_reference.
Qed.

(** What the check computes: with two cells or more, the cells from the
    first one that is not empty are all equal to that one. *)
Lemma checkTabMultiEnable_first_non_empty count tabDic :
  checkTabMultiEnable isEmpty eqb count tabDic
  = (2 <=? count)%Z
    && allEqualToFirst eqb (dropWhile isEmpty (tabCells tabDic)).
Proof.
  unfold checkTabMultiEnable, tabCells.
  destruct (Z.ltb_spec count 2) as [H|H].
  - replace (2 <=? count)%Z with false; [reflexivity|].
    symmetry. apply Z.leb_gt. exact H.
  - replace (2 <=? count)%Z with true by (symmetry; now apply Z.leb_le).
    simpl. rewrite checkLibs_flat. now apply checkCells_first.
Qed.
End CheckFacts.

(** For the leakage-power family no cell is empty, and the check is the
    one the specification describes. *)
Lemma checkTabMultiEnable_leakage count (tabDic : Dict (Dict LeakTab)) :
  checkTabMultiEnable (fun _ => false) leakTab_eqb count tabDic
  = (2 <=? count)%Z && allEqualToFirst leakTab_eqb (tabCells tabDic).
Proof.
  rewrite checkTabMultiEnable_first_non_empty. f_equal. f_equal.
  generalize (tabCells tabDic). intros l. now destruct l.
Qed.

(** C1: the check takes the first cell whose dictionary is not empty as
    the reference.  With the antenna cell, which has no timing, selected
    before a buffer, the two timing dictionaries differ and the timing
    comparison is enabled all the same; in the other order it is refused.
    The first stage after the pins then fails on the empty dictionary of
    the first cell. *)
Theorem checkTabMultiEnable_empty_first_cell :
  demoSession ["ANTENNA"; "BUFX"]%string = Ok demoMixed
  /\ map (fun c => (fst (fst c), snd (fst c), tabCell_isEmpty (snd c)))
      (allCells (timingTabDic demoMixed))
  = [("demo.lib", "ANTENNA", true); ("demo.lib", "BUFX", false)]%string
  /\ specifiedCellCount demoMixed = 2%Z
  /\ allEqualToFirst tabCell_eqb (tabCells (timingTabDic demoMixed)) = false
  /\ timingTabMultiEnable demoMixed = true
  /\ checkTabMultiEnable tabCell_isEmpty tabCell_eqb 2
       (map (fun lib => (fst lib, rev (snd lib))) (timingTabDic demoMixed))
     = false
  /\ updateTimingTabPinCombo demoMixed (specSel "" "") = Ok []
  /\ updateTimingTabRelatedPinCombo demoMixed (specSel "" "")
     = Err (KeyError "pin").
Proof. repeat split; vm_compute; reflexivity. Qed.

(** ** The pass rebuilds the projection *)

(** What a pass keeps of the session it starts from. *)
Lemma cellListBeClicked_keeps s s' :
  cellListBeClicked s = Ok s' ->
  libDic s' = libDic s /\ cellListTree s' = cellListTree s.
Proof.
  unfold cellListBeClicked. destruct (selectCells (cellListTree s)) as [spec count].
  intros H. bindOk H. inversion H; subst; simpl. now split.
Qed.

(** The pass reads the tree and the catalog, and nothing of the
    projection a former pass left. *)
Lemma cellListBeClicked_reads s1 s2 :
  cellListTree s1 = cellListTree s2 ->
  libDic s1 = libDic s2 ->
  resMap projectionOf (cellListBeClicked s1)
  = resMap projectionOf (cellListBeClicked s2).
Proof.
  intros Ht Hl. unfold cellListBeClicked. rewrite Ht, Hl.
  destruct (selectCells (cellListTree s2)) as [spec count].
  destruct (projectAll count (libDic s2) spec) as [pj|e]; reflexivity.
Qed.

(** A second pass leaves the session of the first. *)
Lemma cellListBeClicked_again s s' :
  cellListBeClicked s = Ok s' -> cellListBeClicked s' = Ok s'.
Proof.
  intros H. destruct (cellListBeClicked_keeps _ _ H) as [Hl Ht].
  revert H. unfold cellListBeClicked. rewrite Ht, Hl.
  destruct (selectCells (cellListTree s)) as [spec count].
  destruct (projectAll count (libDic s) spec) as [pj|e]; simpl;
    [|discriminate].
  intros H. inversion H; subst; simpl. reflexivity.
Qed.

(** The list a pin below a bundle or bus is projected from holds the
    entries of the pin and then those of the group, each once. *)
Lemma inheritedArcs_once fam groupList p :
  inheritedArcs fam groupList p = optOr (pinArcs fam p) [] ++ groupList.
Proof.
  unfold inheritedArcs. destruct groupList; simpl; [|reflexivity].
  now rewrite app_nil_r.
Qed.

(** The list of the parser's tree is extended in place: a pass that were
    handed the tree a former pass had worked on, instead of the tree the
    parser hands out, would find the entries of the group in the list of
    the pin already, and add them again. *)
Lemma extendedPin_again fam groupList p own :
  pinArcs fam p = Some own ->
  groupList <> [] ->
  inheritedArcs fam groupList (extendedPin fam groupList p)
  = own ++ groupList ++ groupList.
Proof.
  intros Hown Hne. rewrite inheritedArcs_once. unfold extendedPin.
  rewrite Hown. destruct groupList as [|g groupList]; [contradiction|].
  cbn [length Nat.ltb Nat.leb]. rewrite inheritedArcs_once, Hown.
  destruct fam; simpl; now rewrite <- app_assoc.
Qed.

(** C4: a pass computes the projection from the checked cells of the tree
    and from the trees the parsers hand out, whatever projection the
    session held before; run again on the session it left, it leaves the
    same session.  A pin below a bundle or bus is projected from its own
    entries followed by those of the group, each once, and the flat list
    has one entry for each of them: for pin Q0 of the register, the entry
    of the pin and the entry of the bundle, after one pass and after
    two. *)
Theorem cellListBeClicked_rebuilds_projection :
  (forall s s', cellListBeClicked s = Ok s' -> cellListBeClicked s' = Ok s')
  /\ (forall s,
        resMap projectionOf (cellListBeClicked (forgetProjection s))
        = resMap projectionOf (cellListBeClicked s))
  /\ (forall fam groupList p,
        fst (getPinInfo fam (inheritedArcs fam groupList p))
        = map (flatArc fam) (optOr (pinArcs fam p) [])
          ++ map (flatArc fam) groupList)
  /\ demoSession ["REG"%string] = Ok demoReg
  /\ regList demoReg = Ok [flatArc Timing specArc; flatArc Timing otherArc]
  /\ resMap regList (cellListBeClicked demoReg)
     = Ok (Ok [flatArc Timing specArc; flatArc Timing otherArc]).
Proof.
  split; [exact cellListBeClicked_again|].
  split; [intros s; now apply cellListBeClicked_reads|].
  split.
  { intros fam groupList p.
    now rewrite getPinInfo_flat, inheritedArcs_once, map_app. }
  repeat split; vm_compute; reflexivity.
Qed.

(** ** No match *)

Lemma foldRes_unchanged {A S : Type} (f : S -> A -> Res S) (l : list A) s :
  Forall (fun a => f s a = Ok s) l -> foldRes f l s = Ok s.
Proof.
  induction 1 as [|a l Ha _ IH]; simpl; [reflexivity|].
  rewrite Ha. exact IH.
Qed.

Lemma multiStep_other sel lib cell st a :
  arcMatches sel a = false -> multiStep sel lib cell st a = Ok st.
Proof. intros Hm. unfold multiStep. now rewrite Hm. Qed.

Lemma noArcMatches_Forall sel l :
  noArcMatches sel l = true -> Forall (fun a => arcMatches sel a = false) l.
Proof.
  unfold noArcMatches. rewrite forallb_forall, Forall_forall.
  intros H a Ha. apply negb_true_iff. now apply H.
Qed.

(** The table of one cell stays empty when no entry matches. *)
Lemma resolveSingle_none sel l :
  noArcMatches sel l = true -> resolveSingle sel l = Ok emptySingle.
Proof.
  intros H. apply foldRes_unchanged.
  eapply Forall_impl; [|exact (noArcMatches_Forall _ _ H)].
  intros a Ha. now apply singleStep_other.
Qed.

(** A cell without a matching entry adds nothing to the comparison. *)
Lemma multiCell_none spec sel st lib cell tab cells c l :
  dict_get lib spec = Some cells ->
  dict_get cell cells = Some c ->
  pinTimingList c (pyStrip (sel_bundle sel)) (pyStrip (sel_bus sel))
    (pyStrip (sel_pin sel)) = Ok l ->
  noArcMatches sel l = true ->
  multiCell spec sel st (lib, cell, tab) = Ok st.
Proof.
  intros Hl Hc Hp Hn. unfold multiCell.
  apply dict_at_Ok in Hl, Hc. rewrite Hl. cbn [bind]. rewrite Hc. cbn [bind].
  rewrite Hp. cbn [bind]. apply foldRes_unchanged.
  eapply Forall_impl; [|exact (noArcMatches_Forall _ _ Hn)].
  intros a Ha. now apply multiStep_other.
Qed.

Lemma findLeakage_none w p l :
  forallb (fun e => negb (leakMatches w p e)) l = true ->
  findLeakage w p l = LeakDefault.
Proof.
  induction l as [|e l IH]; simpl; [reflexivity|].
  intros H. apply andb_true_iff in H. destruct H as [He Hl].
  unfold leakMatches in He. apply negb_true_iff in He. rewrite He.
  now apply IH.
Qed.

(** The loop of the leakage comparison over cells without a matching
    entry: one row with the default value for each. *)
Lemma leakRows_default w p (cells : list (string * string * ProjCell)) :
  forall acc,
  forallb (fun c => noLeakMatches w p (snd c)) cells = true ->
  foldRes
    (fun acc cell =>
       let '(libraryFileName, cellName, c) := cell in
       l <- leakageOf c ;;
       let specifiedValue := findLeakage w p l in
       y <- leakFloat specifiedValue ;;
       Ok (fst acc ++ [{| lr_lib := libraryFileName; lr_cell := cellName;
                          lr_when := w; lr_related_pg_pin := p;
                          lr_value := specifiedValue |}],
           snd acc ++ [y]))
    cells acc
  = Ok (fst acc ++ map (defaultRow w p) cells,
        snd acc ++ map (fun _ => Finite 0) cells).
Proof.
  induction cells as [|[[lib cell] c] cells IH]; intros acc H; simpl.
  - rewrite !app_nil_r. now destruct acc.
  - simpl in H. apply andb_true_iff in H. destruct H as [Hc Hr].
    unfold noLeakMatches in Hc. unfold leakageOf at 1.
    destruct (leakage_power c) as [l|]; [|discriminate].
    cbn [bind]. rewrite (findLeakage_none _ _ _ Hc). cbn [leakFloat bind].
    rewrite (IH _ Hr). cbn [fst snd]. unfold defaultRow at 2. cbn [fst snd].
    now rewrite <- !app_assoc.
Qed.

(** C7, as stated, does not hold for the leakage-power comparison.  The
    two buffers are selected, the condition A and the pg pin the combo box
    offers are chosen, the pg pin being written with a blank after the
    name in the library.  The text of the box is stripped and no entry of
    either cell matches; each cell still takes a row of the table, with
    the number 0 the value starts from, and 0.0 goes to the curve. *)
Lemma updateLeakagePowerTabTable_row_without_match :
  demoSession ["BUFX"; "BUFY"]%string = Ok demoPair
  /\ leakagePowerTabMultiEnable demoPair = true
  /\ updateLeakagePowerTabWhenCombo demoPair = Ok ["A"%string]
  /\ updateLeakagePowerTabRelatedPgPinCombo demoPair "A" = Ok ["VDD "%string]
  /\ forallb (fun c => noLeakMatches "A" "VDD" (snd c))
       (allCells (specifiedLibDic demoPair)) = true
  /\ updateLeakagePowerTabTable demoPair "A" "VDD "
     = Ok ([{| lr_lib := "demo.lib"; lr_cell := "BUFX"; lr_when := "A";
               lr_related_pg_pin := "VDD"; lr_value := LeakDefault |};
            {| lr_lib := "demo.lib"; lr_cell := "BUFY"; lr_when := "A";
               lr_related_pg_pin := "VDD"; lr_value := LeakDefault |}],
           [Finite 0; Finite 0]).
Proof. repeat split; vm_compute; reflexivity. Qed.

(** C7, amended: a choice of discriminators that no timing entry has gives
    an empty result and no error.  With one cell selected the three lists
    of the table stay empty; in the timing comparison a cell whose flat
    list has no matching entry adds no row.  In the leakage-power
    comparison every selected cell takes a row: cells without a matching
    entry take the row with the default value 0, and 0.0 on the curve.
    When no cell is selected, or several cells that failed the structural
    check, every stage has no candidates and there is no table; when the
    chosen pin carries no index, every later stage has no candidates and
    the index boxes hold the empty item alone. *)
Theorem no_match_gives_empty_result :
  (forall sel l,
     noArcMatches sel l = true ->
     resMap tableItems (resolveSingle sel l) = Ok [])
  /\ (forall spec sel st lib cell tab cells c l,
        dict_get lib spec = Some cells ->
        dict_get cell cells = Some c ->
        pinTimingList c (pyStrip (sel_bundle sel)) (pyStrip (sel_bus sel))
          (pyStrip (sel_pin sel)) = Ok l ->
        noArcMatches sel l = true ->
        multiCell spec sel st (lib, cell, tab) = Ok st)
  /\ (forall s whenText relatedPgPinText,
        leakagePowerTabMultiEnable s = true ->
        forallb (fun c => noLeakMatches (pyStrip whenText)
                            (pyStrip relatedPgPinText) (snd c))
          (allCells (specifiedLibDic s)) = true ->
        updateLeakagePowerTabTable s whenText relatedPgPinText
        = Ok (map (defaultRow (pyStrip whenText) (pyStrip relatedPgPinText))
                (allCells (specifiedLibDic s)),
              map (fun _ => Finite 0) (allCells (specifiedLibDic s))))
  /\ (forall s sel path,
        multiOrSingle s = false ->
        updateTimingTabBundleCombo s = []
        /\ updateTimingTabBusCombo s = []
        /\ updateTimingTabPinCombo s sel = Ok []
        /\ stageItems s sel path = Ok []
        /\ updateTimingTabIndexCombo s sel = Ok ([], [])
        /\ updateTimingTabTable s sel = Ok NoTable)
  /\ (forall s sel t pins path,
        multiOrSingle s = true ->
        firstCell (timingTabDic s) = Some t ->
        scopePins t (pyStrip (sel_bundle sel)) (pyStrip (sel_bus sel))
        = Ok pins ->
        dict_get (pyStrip (sel_pin sel)) pins = Some None ->
        stageItems s sel path = Ok []
        /\ updateTimingTabIndexCombo s sel
           = Ok ([EmptyString], [EmptyString])).
Proof.
  split.
  { intros sel l H. now rewrite (resolveSingle_none _ _ H). }
  split; [exact multiCell_none|].
  split.
  { intros s w p Hm H. unfold updateLeakagePowerTabTable. rewrite Hm.
    exact (leakRows_default _ _ _ ([], []) H). }
  split.
  { intros s sel path H.
    unfold updateTimingTabBundleCombo, updateTimingTabBusCombo, groupCombo,
      updateTimingTabPinCombo, stageItems, updateTimingTabIndexCombo,
      updateTimingTabTable.
    rewrite H. repeat split. }
  intros s sel t pins path Hm Ht Hs Hp.
  unfold stageItems, updateTimingTabIndexCombo. rewrite Hm, Ht, Hs.
  cbn [bind]. apply dict_at_Ok in Hp. rewrite Hp. cbn [bind]. now split.
Qed.

(** The parts of the theorem at the two buffers and at a session with
    nothing selected: the related pin B, which no entry of the buffers
    has, and the pg pin of the counterexample. *)
Lemma no_match_gives_empty_result_witness :
  resMap tableItems
    (resolveSingle strangerSel [flatArc Timing specArc]) = Ok []
  /\ multiCell (specifiedLibDic demoPair) strangerSel
       {| ms_index1 := IndexText EmptyString;
          ms_index2 := IndexText EmptyString;
          ms_rows := []; ms_figureYList := [] |}
       ("demo.lib"%string, "BUFX"%string, [])
     = Ok {| ms_index1 := IndexText EmptyString;
             ms_index2 := IndexText EmptyString;
             ms_rows := []; ms_figureYList := [] |}
  /\ updateLeakagePowerTabTable demoPair "A" "VDD "
     = Ok (map (defaultRow (pyStrip "A") (pyStrip "VDD "))
             (allCells (specifiedLibDic demoPair)),
           map (fun _ => Finite 0) (allCells (specifiedLibDic demoPair)))
  /\ updateTimingTabTable demoLoaded (specSel "0" "0") = Ok NoTable.
Proof.
  destruct no_match_gives_empty_result as (H1 & H2 & H3 & H4 & _).
  split; [apply H1; vm_compute; reflexivity|].
  split.
  { eapply H2; vm_compute; reflexivity. }
  split; [apply H3; vm_compute; reflexivity|].
  apply (H4 demoLoaded (specSel "0" "0") []). vm_compute; reflexivity.
Defined.

(** ** More on the check, the inherited entries and the comparison *)

(** For the timing and the internal-power family the check is: two cells
    or more, and the cells from the first one whose dictionary is not
    empty are all equal to that one. *)
Theorem checkTabMultiEnable_reference_cell count (tabDic : Dict (Dict TabCell)) :
  checkTabMultiEnable tabCell_isEmpty tabCell_eqb count tabDic
  = (2 <=? count)%Z
    && allEqualToFirst tabCell_eqb
         (dropWhile tabCell_isEmpty (tabCells tabDic)).
Proof. apply checkTabMultiEnable_first_non_empty. Qed.

(** The pin of the register as the pass leaves it in the tree of the
    parser, handed to the loop once more: the entry of the bundle is there
    twice. *)
Lemma extendedPin_again_witness :
  inheritedArcs Timing [otherArc]
    (extendedPin Timing [otherArc] (timedPin [specArc]))
  = [specArc] ++ [otherArc] ++ [otherArc].
Proof. apply extendedPin_again; [reflexivity|discriminate]. Defined.

(** The timing comparison of the two buffers.  An index box left empty
    counts as position 0: with both boxes empty each cell gives the value
    at row 0 and column 0, with the first box at 1 the value at row 1 and
    column 0, with the second box at 1 the value at row 0 and column 1. *)
Theorem updateTimingTabTable_comparison_defaults :
  demoSession ["BUFX"; "BUFY"]%string = Ok demoPair
  /\ timingTabMultiEnable demoPair = true
  /\ updateTimingTabTable demoPair (specSel "" "")
     = Ok (Comparison
             [{| tr_lib := "demo.lib"; tr_cell := "BUFX"; tr_index_1 := "1";
                 tr_index_2 := "0.1"; tr_value := "10" |};
              {| tr_lib := "demo.lib"; tr_cell := "BUFY"; tr_index_1 := "1";
                 tr_index_2 := "0.1"; tr_value := "11" |}]
             [Finite 10; Finite 11])
  /\ updateTimingTabTable demoPair (specSel "1" "")
     = Ok (Comparison
             [{| tr_lib := "demo.lib"; tr_cell := "BUFX"; tr_index_1 := "2";
                 tr_index_2 := "0.1"; tr_value := "30" |};
              {| tr_lib := "demo.lib"; tr_cell := "BUFY"; tr_index_1 := "2";
                 tr_index_2 := "0.1"; tr_value := "31" |}]
             [Finite 30; Finite 31])
  /\ updateTimingTabTable demoPair (specSel "" "1")
     = Ok (Comparison
             [{| tr_lib := "demo.lib"; tr_cell := "BUFX"; tr_index_1 := "1";
                 tr_index_2 := "0.2"; tr_value := "20" |};
              {| tr_lib := "demo.lib"; tr_cell := "BUFY"; tr_index_1 := "1";
                 tr_index_2 := "0.2"; tr_value := "21" |}]
             [Finite 20; Finite 21]).
Proof. repeat split; vm_compute; reflexivity. Qed.

(** ** The index holds what the raw list holds *)

Lemma list_eqb_eq (l1 l2 : list string) :
  list_eqb String.eqb l1 l2 = true <-> l1 = l2.
Proof.
  revert l2. induction l1 as [|a l1 IH]; intros [|b l2]; simpl;
    try (split; [discriminate|congruence]); [tauto|].
  rewrite andb_true_iff, String.eqb_eq, IH. split.
  - intros [-> ->]. reflexivity.
  - intros E. inversion E. auto.
Qed.

Lemma list_eqb_refl (l : list string) : list_eqb String.eqb l l = true.
Proof. now apply list_eqb_eq. Qed.

Lemma hfind_nil t : hfind [] t = Some t.
Proof. reflexivity. Qed.

Lemma hfind_cons k p t :
  hfind (k :: p) t
  = match dict_get k (hchildren t) with
    | Some u => hfind p u
    | None => None
    end.
Proof.
  unfold hfind. simpl. unfold dict_at.
  now destruct (dict_get k (hchildren t)).
Qed.

Lemma hfind_app p r t :
  hfind (p ++ r) t
  = match hfind p t with Some u => hfind r u | None => None end.
Proof.
  revert t. induction p as [|k p IH]; intros t; [reflexivity|].
  simpl app. rewrite !hfind_cons.
  destruct (dict_get k (hchildren t)); [apply IH|reflexivity].
Qed.

Lemma hfind_empty p :
  hfind p (HNode []) = match p with [] => Some (HNode []) | _ => None end.
Proof. destruct p; [reflexivity|now rewrite hfind_cons]. Qed.

Lemma dict_get_update_other {V : Type} k k' (f : V -> V) (d : Dict V) :
  k' <> k -> dict_get k (dict_update k' f d) = dict_get k d.
Proof.
  intros Hne. induction d as [|[a v] d IH]; simpl; [reflexivity|].
  destruct (String.eqb_spec a k') as [->|Ha]; simpl.
  - destruct (String.eqb_spec k' k); [contradiction|reflexivity].
  - destruct (String.eqb a k); [reflexivity|exact IH].
Qed.

Lemma dict_get_setdefault {V : Type} k k' (v : V) (d : Dict V) :
  dict_get k (dict_setdefault k' v d)
  = match dict_get k d with
    | Some x => Some x
    | None => if String.eqb k' k then Some v else None
    end.
Proof.
  unfold dict_setdefault. destruct (dict_mem k' d) eqn:Hm.
  - destruct (dict_get k d) eqn:Hg; [reflexivity|].
    destruct (String.eqb_spec k' k) as [->|]; [|reflexivity].
    unfold dict_mem in Hm. now rewrite Hg in Hm.
  - induction d as [|[a w] d IH]; simpl.
    + reflexivity.
    + unfold dict_mem in Hm. simpl in Hm.
      destruct (String.eqb_spec a k') as [->|Ha]; [discriminate|].
      destruct (String.eqb a k); [reflexivity|]. now apply IH.
Qed.

(** [setdefault] and the change that follows it, read at a key. *)
Lemma dict_get_upsert {V : Type} k k' (v : V) (f : V -> V) (d : Dict V) :
  dict_get k (dict_update k' f (dict_setdefault k' v d))
  = if String.eqb k' k then Some (f (optOr (dict_get k' d) v))
    else dict_get k d.
Proof.
  destruct (String.eqb_spec k' k) as [->|Hne].
  - rewrite dict_get_update, dict_get_setdefault, String.eqb_refl.
    now destruct (dict_get k d).
  - rewrite dict_get_update_other by exact Hne.
    rewrite dict_get_setdefault.
    destruct (dict_get k d); [reflexivity|].
    destruct (String.eqb_spec k' k); [contradiction|reflexivity].
Qed.

Lemma hfind_hpath_cons k p k' q f t :
  hfind (k :: p) (hpath (k' :: q) f t)
  = if String.eqb k' k
    then hfind p (hpath q f (optOr (dict_get k' (hchildren t)) (HNode [])))
    else hfind (k :: p) t.
Proof.
  rewrite !hfind_cons. simpl hpath. unfold hupsert. simpl hchildren.
  rewrite dict_get_upsert. now destruct (String.eqb k' k).
Qed.

(** A chain of [setdefault] calls adds its own beginnings and nothing
    else. *)
Lemma hfind_hpath_prefix q : forall p f t,
  length p <= length q ->
  isSome (hfind p (hpath q f t))
  = list_eqb String.eqb (firstn (length p) q) p || isSome (hfind p t).
Proof.
  induction q as [|k' q IH]; intros [|k p] f t Hlen; simpl in Hlen;
    try reflexivity; [lia|].
  rewrite hfind_hpath_cons. cbn [length firstn list_eqb].
  destruct (String.eqb_spec k' k) as [->|Hne]; cbn [andb].
  - rewrite IH by lia. rewrite hfind_cons.
    destruct (dict_get k (hchildren t)) as [u|]; [reflexivity|].
    cbn [optOr]. rewrite hfind_empty.
    destruct p; [reflexivity|]. cbn [isSome]. reflexivity.
  - reflexivity.
Qed.

Lemma arcPath_length fam a : length (arcPath fam a) = pathLength fam.
Proof. now destruct fam. Qed.

Lemma index_prefix_fold fam p raws : forall st,
  length p <= pathLength fam ->
  isSome (hfind p (snd (fold_left (addArc fam) raws st)))
  = existsb (arcPrefix fam p) raws || isSome (hfind p (snd st)).
Proof.
  induction raws as [|a raws IH]; intros st Hlen; simpl; [reflexivity|].
  rewrite IH by exact Hlen. unfold addArc. cbn [snd].
  rewrite hfind_hpath_prefix by (rewrite arcPath_length; exact Hlen).
  unfold arcPrefix.
  destruct (list_eqb String.eqb (firstn (length p) (arcPath fam a)) p);
    cbn [orb]; [now rewrite orb_true_r|reflexivity].
Qed.

Lemma index_prefix fam p raws :
  length p <= pathLength fam ->
  isSome (hfind p (snd (getPinInfo fam raws)))
  = existsb (arcPrefix fam p) raws
    || match p with [] => true | _ => false end.
Proof.
  intros Hlen. unfold getPinInfo. rewrite index_prefix_fold by exact Hlen.
  cbn [snd]. rewrite hfind_empty. now destruct p.
Qed.

Lemma hnav_hfind p t node : hnav p t = Ok node <-> hfind p t = Some node.
Proof.
  unfold hfind. destruct (hnav p t); split; intros H; inversion H; reflexivity.
Qed.

(** The candidates of a stage.  Below the keys chosen so far, the index
    of a pin holds a key exactly when a raw entry of the pin has the
    chosen values followed by this one as its first discriminators. *)
Theorem getPinInfo_stage_keys fam raws p node k :
  length p < pathLength fam ->
  hnav p (snd (getPinInfo fam raws)) = Ok node ->
  In k (dict_keys (hchildren node))
  <-> exists a,
        In a raws /\ firstn (S (length p)) (arcPath fam a) = p ++ [k].
Proof.
  intros Hlen Hnode. apply hnav_hfind in Hnode.
  assert (E : dict_mem k (hchildren node)
              = existsb (arcPrefix fam (p ++ [k])) raws).
  { pose proof (index_prefix fam (p ++ [k]) raws) as H.
    rewrite length_app in H. cbn [length] in H.
    assert (Hl : length p + 1 <= pathLength fam) by lia.
    specialize (H Hl). rewrite hfind_app, Hnode in H.
    assert (Hk : hfind [k] node = dict_get k (hchildren node)).
    { rewrite hfind_cons. now destruct (dict_get k (hchildren node)). }
    rewrite Hk in H.
    assert (Hp : match p ++ [k] with [] => true | _ :: _ => false end = false)
      by now destruct p.
    rewrite Hp, orb_false_r in H. rewrite <- H. unfold dict_mem.
    now destruct (dict_get k (hchildren node)). }
  rewrite <- dict_mem_In, E, existsb_exists.
  unfold arcPrefix. rewrite length_app. cbn [length].
  replace (length p + 1) with (S (length p)) by lia.
  split; intros [a [Ha Hp]]; exists a; (split; [exact Ha|]);
    now apply list_eqb_eq.
Qed.

(** The two buffers' entry: below related pin A and pg pin N/A the one
    timing sense. *)
Lemma getPinInfo_stage_keys_witness :
  In "positive_unate"%string
     (dict_keys (hchildren (HNode [("positive_unate"%string,
        HNode [("N/A"%string, HNode [("N/A"%string,
          HNode [("cell_rise"%string, HLeaf 2 2)])])])])))
  <-> exists a,
        In a [specArc]
        /\ firstn 3 (arcPath Timing a) = ["A"; "N/A"; "positive_unate"]%string.
Proof.
  apply (getPinInfo_stage_keys Timing [specArc] ["A"; "N/A"]%string).
  - cbn. lia.
  - vm_compute. reflexivity.
Defined.

(** *** The table types and the leaves *)

Lemma hfind_hpath_same q : forall p r f t,
  length p = length q ->
  hfind (p ++ r) (hpath q f t)
  = if list_eqb String.eqb q p
    then hfind r (f (optOr (hfind q t) (HNode [])))
    else hfind (p ++ r) t.
Proof.
  induction q as [|k' q IH]; intros [|k p] r f t Hlen; simpl in Hlen;
    try discriminate.
  - reflexivity.
  - cbn [app]. rewrite hfind_hpath_cons. cbn [list_eqb].
    destruct (String.eqb_spec k' k) as [->|Hne]; cbn [andb];
      [|reflexivity].
    rewrite IH by lia. rewrite !hfind_cons.
    destruct (dict_get k (hchildren t)) as [u|]; cbn [optOr];
      [reflexivity|].
    rewrite hfind_empty.
    destruct (list_eqb String.eqb q p) eqn:E.
    + now destruct q.
    + destruct p as [|k2 p].
      * destruct q; [discriminate E|discriminate Hlen].
      * cbn [app]. now rewrite hfind_cons.
Qed.

(** The loop over the table types enters a type unless it is there. *)
Lemma indexTables_get_acc accepted raw tableType : forall c,
  dict_get tableType
    (fold_left
       (fun c kv =>
          if isTableType accepted (fst kv)
          then
            let t := parseTable (snd kv) in
            dict_setdefault (fst kv)
              (HLeaf (length (index_1 t)) (length (index_2 t))) c
          else c)
       raw c)
  = match dict_get tableType c with
    | Some x => Some x
    | None =>
        if isTableType accepted tableType
        then option_map leafOf (dict_get tableType raw)
        else None
    end.
Proof.
  induction raw as [|[k v] raw IH]; intros c; simpl.
  - destruct (dict_get tableType c); [reflexivity|].
    now destruct (isTableType accepted tableType).
  - rewrite IH. destruct (isTableType accepted k) eqn:Hk.
    + rewrite dict_get_setdefault.
      destruct (dict_get tableType c); [reflexivity|].
      destruct (String.eqb_spec k tableType) as [->|Hne]; [|reflexivity].
      now rewrite Hk.
    + destruct (dict_get tableType c); [reflexivity|].
      destruct (String.eqb_spec k tableType) as [->|Hne]; [|reflexivity].
      now rewrite Hk.
Qed.

Lemma indexTables_get accepted raw tableType node :
  dict_get tableType (hchildren (indexTables accepted raw node))
  = match dict_get tableType (hchildren node) with
    | Some x => Some x
    | None =>
        if isTableType accepted tableType
        then option_map leafOf (dict_get tableType raw)
        else None
    end.
Proof. unfold indexTables. cbn [hchildren]. apply indexTables_get_acc. Qed.

Lemma hfind_one k t : hfind [k] t = dict_get k (hchildren t).
Proof. rewrite hfind_cons. now destruct (dict_get k (hchildren t)). Qed.

Lemma index_table_fold fam p tableType raws : forall st,
  length p = pathLength fam ->
  hfind (p ++ [tableType]) (snd (fold_left (addArc fam) raws st))
  = match hfind (p ++ [tableType]) (snd st) with
    | Some x => Some x
    | None => option_map leafOf (firstTable fam p tableType raws)
    end.
Proof.
  induction raws as [|a raws IH]; intros st Hlen; simpl.
  - now destruct (hfind (p ++ [tableType]) (snd st)).
  - rewrite IH by exact Hlen. unfold addArc. cbn [snd].
    rewrite hfind_hpath_same by (rewrite arcPath_length; exact Hlen).
    assert (Hfirst : firstTable fam p tableType (a :: raws)
                     = if hasTable fam p tableType a
                       then dict_get tableType (raw_table_type a)
                       else firstTable fam p tableType raws).
    { unfold firstTable. cbn [find].
      now destruct (hasTable fam p tableType a). }
    rewrite Hfirst. unfold hasTable.
    destruct (list_eqb String.eqb (arcPath fam a) p) eqn:Ep; cbn [andb];
      [|reflexivity].
    apply list_eqb_eq in Ep. rewrite hfind_one, indexTables_get.
    rewrite hfind_app, <- Ep.
    assert (Hsub : dict_get tableType
                     (hchildren (optOr (hfind (arcPath fam a) (snd st))
                                       (HNode [])))
                   = match hfind (arcPath fam a) (snd st) with
                     | Some u => hfind [tableType] u
                     | None => None
                     end).
    { destruct (hfind (arcPath fam a) (snd st)) as [u|]; cbn [optOr].
      - now rewrite hfind_one.
      - reflexivity. }
    rewrite Hsub.
    destruct (match hfind (arcPath fam a) (snd st) with
              | Some u => hfind [tableType] u
              | None => None
              end); [reflexivity|].
    destruct (isTableType (acceptedTableTypes fam) tableType); cbn [andb];
      [|reflexivity].
    unfold dict_mem.
    now destruct (dict_get tableType (raw_table_type a)).
Qed.

Lemma index_table_leaf fam raws p tableType :
  length p = pathLength fam ->
  hfind (p ++ [tableType]) (snd (getPinInfo fam raws))
  = option_map leafOf (firstTable fam p tableType raws).
Proof.
  intros Hlen. unfold getPinInfo. rewrite index_table_fold by exact Hlen.
  cbn [snd]. rewrite hfind_empty.
  destruct p; [destruct fam; discriminate Hlen|reflexivity].
Qed.

(** The leaf of a table type.  Below a full chain of discriminators the
    index holds a table type exactly when a raw entry with these
    discriminators has an accepted block of this name, and the leaf holds
    the lengths of the two index lists of the first such entry. *)
Theorem getPinInfo_table_leaf fam raws p tableType :
  length p = pathLength fam ->
  hfind (p ++ [tableType]) (snd (getPinInfo fam raws))
  = option_map leafOf (firstTable fam p tableType raws).
Proof. exact (index_table_leaf fam raws p tableType). Qed.

Lemma getPinInfo_table_leaf_witness :
  hfind (["A"; "N/A"; "positive_unate"; "N/A"; "N/A"]%string
          ++ ["cell_rise"%string])
        (snd (getPinInfo Timing [specArc; otherArc]))
  = option_map leafOf
      (firstTable Timing ["A"; "N/A"; "positive_unate"; "N/A"; "N/A"]%string
         "cell_rise" [specArc; otherArc]).
Proof. apply getPinInfo_table_leaf. reflexivity. Defined.

Lemma rawMatches_arcPath sel a :
  rawMatches sel a = true <-> arcPath Timing a = selPath sel.
Proof.
  unfold rawMatches, arcPath, selPath.
  rewrite !andb_true_iff, !String.eqb_eq. split.
  - intros [[[[-> ->] ->] ->] ->]. reflexivity.
  - intros E. inversion E. auto.
Qed.

(** The positions the index boxes offer are the positions of the table
    that is shown.  When the raw entries that share the chosen
    discriminators carry the same tables, as they do when there is one
    such entry, the two ranges of the leaf have the lengths of the two
    index lists of the resolved table. *)
Theorem index_positions_of_resolved_table sel raws st n1 n2 :
  Forall (fun a => NoDup (dict_keys (raw_table_type a))) raws ->
  (forall a b, In a raws -> In b raws ->
     arcPath Timing a = selPath sel -> arcPath Timing b = selPath sel ->
     raw_table_type a = raw_table_type b) ->
  hnav (selPath sel ++ [pyStrip (sel_table_type sel)])
       (snd (getPinTimingInfo raws)) = Ok (HLeaf n1 n2) ->
  resolveSingle sel (fst (getPinTimingInfo raws)) = Ok st ->
  length (st_index1List st) = n1 /\ length (st_index2List st) = n2.
Proof.
  intros Hnd Hsame Hleaf Hres.
  apply hnav_hfind in Hleaf. unfold getPinTimingInfo in *.
  rewrite index_table_leaf in Hleaf by reflexivity.
  unfold firstTable in Hleaf.
  destruct (find (hasTable Timing (selPath sel)
                    (pyStrip (sel_table_type sel))) raws) as [a|] eqn:Hfa;
    [|discriminate].
  destruct (find_some _ _ Hfa) as [Ha Hta].
  unfold hasTable in Hta. apply andb_true_iff in Hta.
  destruct Hta as [Hta _]. apply andb_true_iff in Hta.
  destruct Hta as [Hpa _]. apply list_eqb_eq in Hpa.
  destruct (dict_get (pyStrip (sel_table_type sel)) (raw_table_type a))
    as [block|] eqn:Hblock; [|discriminate].
  cbn [option_map] in Hleaf. inversion Hleaf; subst n1 n2; clear Hleaf.
  rewrite getPinInfo_flat in Hres.
  pose proof (resolveSingle_last sel _ _ _ Hres) as H.
  rewrite <- map_rev, find_map in H.
  assert (Hfun : forall l,
            find (fun a => arcMatches sel (flatArc Timing a)) l
            = find (rawMatches sel) l) by reflexivity.
  rewrite Hfun in H.
  destruct (find (rawMatches sel) (rev raws)) as [b|] eqn:Hfb.
  - destruct (find_some _ _ Hfb) as [Hb Hmb]. apply in_rev in Hb.
    apply rawMatches_arcPath in Hmb. cbn [option_map] in H.
    destruct H as (t & Ht & H1 & H2 & _).
    assert (Hndb : NoDup (dict_keys (raw_table_type b))).
    { rewrite Forall_forall in Hnd. now apply Hnd. }
    destruct (flatArc_get Timing b _ t Hndb Ht) as (_ & block' & Hb' & ->).
    rewrite <- (Hsame a b Ha Hb Hpa Hmb) in Hb'.
    rewrite Hblock in Hb'. inversion Hb'; subst block'.
    rewrite H1, H2. now split.
  - exfalso. assert (Hm : rawMatches sel a = true)
      by now apply rawMatches_arcPath.
    pose proof (find_none _ _ Hfb a) as Hn.
    rewrite Hm in Hn. discriminate Hn. apply -> in_rev. exact Ha.
Qed.

Lemma index_positions_of_resolved_table_witness :
  length [ "1"; "2" ]%string = 2 /\ length [ "0.1"; "0.2" ]%string = 2.
Proof.
  assert (Hnd : Forall (fun a => NoDup (dict_keys (raw_table_type a)))
                       [specArc]).
  { repeat constructor. intros []. }
  assert (Hsame : forall a b, In a [specArc] -> In b [specArc] ->
            arcPath Timing a = selPath (specSel EmptyString EmptyString) ->
            arcPath Timing b = selPath (specSel EmptyString EmptyString) ->
            raw_table_type a = raw_table_type b).
  { intros a b [<-|[]] [<-|[]] _ _. reflexivity. }
  destruct (resolveSingle (specSel EmptyString EmptyString)
              (fst (getPinTimingInfo [specArc]))) as [st|e] eqn:Hres.
  - assert (E1 : st_index1List st = ["1"; "2"]%string)
      by (vm_compute in Hres; inversion Hres; reflexivity).
    assert (E2 : st_index2List st = ["0.1"; "0.2"]%string)
      by (vm_compute in Hres; inversion Hres; reflexivity).
    rewrite <- E1, <- E2.
    apply (index_positions_of_resolved_table
             (specSel EmptyString EmptyString) [specArc] st 2 2 Hnd Hsame);
      [vm_compute; reflexivity|exact Hres].
  - vm_compute in Hres. discriminate.
Defined.

(** ** The selection is the checked part of the tree *)

Lemma dict_mem_emptyCells c (acc : list string) :
  dict_mem c (map (fun c => (c, emptyCell)) acc) = existsb (String.eqb c) acc.
Proof.
  unfold dict_mem. induction acc as [|a acc IH]; simpl; [reflexivity|].
  rewrite (String.eqb_sym c a). destruct (String.eqb a c); [reflexivity|].
  exact IH.
Qed.

Lemma dict_mem_libGroup lib spec acc :
  dict_mem lib spec = false ->
  dict_mem lib (spec ++ libGroup lib acc)
  = match acc with [] => false | _ => true end.
Proof.
  intros H. rewrite dict_mem_app, H. destruct acc; [reflexivity|].
  cbn [libGroup orb]. unfold dict_mem. simpl. now rewrite String.eqb_refl.
Qed.

Lemma dict_get_libGroup lib spec a acc :
  dict_mem lib spec = false ->
  dict_get lib (spec ++ libGroup lib (a :: acc))
  = Some (map (fun c => (c, emptyCell)) (a :: acc)).
Proof. intros H. cbn [libGroup]. now apply dict_get_app_absent. Qed.

(** One item of a library whose cells so far are [acc]. *)
Lemma selectItem_in_lib lib spec n acc c state :
  dict_mem lib spec = false ->
  ~ In c acc ->
  selectItem (spec ++ libGroup lib acc, n) (lib, c, state)
  = (spec ++ libGroup lib (acc ++ (if isChecked state then [c] else [])),
     (n + (if isChecked state then 1 else 0))%Z).
Proof.
  intros Hlib Hc. apply existsb_eqb_notIn in Hc.
  destruct state; cbn [selectItem isChecked]; rewrite ?Z.add_0_r.
  - (* unchecked *)
    rewrite (app_nil_r acc). unfold isSpecified.
    destruct acc as [|a acc].
    + cbn [libGroup]. rewrite app_nil_r.
      now rewrite (dict_get_nomem _ _ Hlib).
    + rewrite (dict_get_libGroup _ _ _ _ Hlib), dict_mem_emptyCells, Hc.
      reflexivity.
  - now rewrite (app_nil_r acc).
  - (* checked *)
    rewrite (dict_mem_libGroup _ _ _ Hlib). destruct acc as [|a acc].
    + cbn [libGroup app]. rewrite app_nil_r.
      rewrite (dict_set_absent _ _ _ Hlib).
      rewrite (dict_get_app_absent _ _ _ Hlib). cbn [optOr].
      unfold dict_mem at 1. cbn [dict_get].
      rewrite (dict_update_app_absent _ _ _ _ Hlib). reflexivity.
    + rewrite (dict_get_libGroup _ _ _ _ Hlib). cbn [optOr].
      rewrite dict_mem_emptyCells, Hc. cbn [libGroup].
      rewrite (dict_update_app_absent _ _ _ _ Hlib).
      assert (Hm : dict_mem c (map (fun c => (c, emptyCell)) (a :: acc))
                   = false) by now rewrite dict_mem_emptyCells.
      rewrite (dict_set_absent _ _ _ Hm).
      cbn [app libGroup]. rewrite (map_app _ (a :: acc) [c]). reflexivity.
Qed.

(** The items of one library that is not in the selection yet. *)
Lemma selectItem_lib lib spec cells : forall acc n,
  dict_mem lib spec = false ->
  NoDup (acc ++ map fst cells) ->
  fold_left selectItem (map (fun c => (lib, fst c, snd c)) cells)
    (spec ++ libGroup lib acc, n)
  = (spec ++ libGroup lib (acc ++ checkedCells cells),
     (n + Z.of_nat (length (checkedCells cells)))%Z).
Proof.
  induction cells as [|[c state] cells IH]; intros acc n Hlib Hnd.
  - simpl. now rewrite app_nil_r, Z.add_0_r.
  - cbn [map fold_left fst snd].
    assert (Hc : ~ In c acc).
    { cbn [map fst] in Hnd. apply NoDup_remove_2 in Hnd.
      intros Hin. apply Hnd. apply in_or_app. now left. }
    rewrite (selectItem_in_lib _ _ _ _ _ _ Hlib Hc).
    rewrite IH; [|exact Hlib|].
    + unfold checkedCells. cbn [filter snd].
      destruct (isChecked state); cbn [map fst length].
      * rewrite <- app_assoc. cbn [app]. f_equal. lia.
      * rewrite app_nil_r. f_equal. lia.
    + cbn [map fst] in Hnd. destruct (isChecked state).
      * rewrite <- app_assoc. exact Hnd.
      * rewrite app_nil_r. now apply NoDup_remove_1 in Hnd.
Qed.

Lemma dict_keys_libGroup lib cells k :
  In k (dict_keys (libGroup lib cells)) -> k = lib.
Proof.
  destruct cells; simpl; [intros []|]. intros [H|[]]. now symmetry.
Qed.

Lemma selectCells_loop t : forall spec n,
  NoDup (dict_keys spec ++ map fst t) ->
  Forall (fun lib => NoDup (map fst (snd lib))) t ->
  fold_left selectItem (treeItems t) (spec, n)
  = (spec ++ checkedTree t, (n + checkedCount t)%Z).
Proof.
  induction t as [|[lib cells] t IH]; intros spec n Hnd Hcells.
  - simpl. now rewrite app_nil_r, Z.add_0_r.
  - unfold treeItems. cbn [flat_map fst snd]. rewrite fold_left_app.
    assert (Hlib : dict_mem lib spec = false).
    { apply dict_mem_notIn. intros Hin. cbn [map fst] in Hnd.
      apply NoDup_remove_2 in Hnd. apply Hnd. apply in_or_app. now left. }
    inversion Hcells as [|? ? Hc Hcells']; subst. cbn [snd] in Hc.
    pose proof (selectItem_lib lib spec cells [] n Hlib Hc) as Hstep.
    cbn [libGroup app] in Hstep. rewrite app_nil_r in Hstep.
    match goal with
    | |- fold_left _ _ ?x = _ =>
        assert (E : x = (spec ++ libGroup lib (checkedCells cells),
                         (n + Z.of_nat (length (checkedCells cells)))%Z))
          by exact Hstep;
        rewrite E; clear E
    end.
    fold (treeItems t). rewrite IH; [|
      |exact Hcells'].
    + unfold checkedTree, checkedCount. cbn [flat_map fst snd].
      rewrite <- app_assoc, length_app. f_equal. lia.
    + unfold dict_keys in *. rewrite map_app, <- app_assoc.
      cbn [map fst] in Hnd.
      destruct (checkedCells cells) as [|a cs].
      * cbn [libGroup map app]. now apply NoDup_remove_1 in Hnd.
      * cbn [libGroup map fst app]. exact Hnd.
Qed.

Lemma selectCells_checked t :
  NoDup (map fst t) ->
  Forall (fun lib => NoDup (map fst (snd lib))) t ->
  selectCells t = (checkedTree t, checkedCount t).
Proof.
  intros Hl Hc. unfold selectCells.
  exact (selectCells_loop t [] 0%Z Hl Hc).
Qed.

(** The first loop of a pass.  In a tree whose libraries have distinct
    names and whose cells have distinct names within a library, the
    selection is the checked part of the tree, in the order of the tree:
    the libraries that have a checked cell, each with its checked cells,
    and the count is the number of checked cells. *)
Theorem selectCells_checked_tree t :
  NoDup (map fst t) ->
  Forall (fun lib => NoDup (map fst (snd lib))) t ->
  selectCells t = (checkedTree t, checkedCount t).
Proof. exact (selectCells_checked t). Qed.

Lemma selectCells_checked_tree_witness :
  selectCells (clicks [("a.lib", "INVD2BWP", Checked);
                       ("b.lib", "BUFD4BWP", Checked)]%string twoLibTree)
  = ([("a.lib", [("INVD2BWP", emptyCell)]);
      ("b.lib", [("BUFD4BWP", emptyCell)])]%string, 2%Z).
Proof.
  apply (selectCells_checked_tree
           (clicks [("a.lib", "INVD2BWP", Checked);
                    ("b.lib", "BUFD4BWP", Checked)]%string twoLibTree)).
  - vm_compute. repeat constructor; simpl; intuition discriminate.
  - vm_compute. repeat constructor; simpl; intuition discriminate.
Defined.

(** ** What a pass stores *)

Lemma baseEq_refl c : baseEq c c.
Proof. now split. Qed.

Lemma baseEq_trans c1 c2 c3 : baseEq c1 c2 -> baseEq c2 c3 -> baseEq c1 c3.
Proof. intros [A1 L1] [A2 L2]. split; congruence. Qed.

Lemma projGroupPin_base fam kind g pn flat c :
  baseEq (projGroupPin fam kind g pn flat c) c.
Proof. destruct kind; split; reflexivity. Qed.

Lemma projDirectPin_base fam pn flat c :
  baseEq (projDirectPin fam pn flat c) c.
Proof. split; reflexivity. Qed.

Lemma groupPins_base fam kind g gl pins : forall st,
  baseEq (fst (snd (groupPins fam kind g gl pins st))) (fst st).
Proof.
  induction pins as [|[pn p] pins IH]; intros st; simpl.
  - apply baseEq_refl.
  - destruct (isSome (pinArcs fam p) || (0 <? length gl)%nat).
    + destruct (getPinInfo fam (inheritedArcs fam gl p)) as [flat idx].
      match goal with
      | |- context [groupPins fam kind g gl pins ?s] =>
          specialize (IH s); destruct (groupPins fam kind g gl pins s)
            as [rest' st'']
      end.
      cbn [fst snd] in *. eapply baseEq_trans; [exact IH|].
      apply projGroupPin_base.
    + specialize (IH st).
      destruct (groupPins fam kind g gl pins st) as [rest' st''].
      exact IH.
Qed.

Lemma groupLoop_base fam kind groups : forall st,
  baseEq (fst (snd (groupLoop fam kind groups st))) (fst st).
Proof.
  induction groups as [|[gn g] groups IH]; intros st; simpl.
  - apply baseEq_refl.
  - destruct (rawgrp_pin g) as [pins|].
    + pose proof (groupPins_base fam kind gn
                    (optOr (groupArcs fam g) []) pins st) as Hp.
      destruct (groupPins fam kind gn (optOr (groupArcs fam g) []) pins st)
        as [pins' st'].
      specialize (IH st').
      destruct (groupLoop fam kind groups st') as [rest' st''].
      cbn [fst snd] in *. eapply baseEq_trans; eassumption.
    + specialize (IH st).
      destruct (groupLoop fam kind groups st) as [rest' st''].
      exact IH.
Qed.

Lemma pinLoop_base fam pins : forall st,
  baseEq (fst (pinLoop fam pins st)) (fst st).
Proof.
  unfold pinLoop. induction pins as [|[pn p] pins IH]; intros st; simpl.
  - apply baseEq_refl.
  - eapply baseEq_trans; [apply IH|]. cbn [fst snd].
    destruct (pinArcs fam p) as [l|]; [|apply baseEq_refl].
    destruct (getPinInfo fam l) as [flat idx]. cbn [fst].
    apply projDirectPin_base.
Qed.

Lemma cellLoop_base fam entries : forall st,
  baseEq (fst (snd (cellLoop fam entries st))) (fst st).
Proof.
  induction entries as [|e entries IH]; intros st; simpl.
  - apply baseEq_refl.
  - destruct e as [groups|groups|pins|key].
    + pose proof (groupLoop_base fam Bundle groups st) as Hg.
      destruct (groupLoop fam Bundle groups st) as [g' st'].
      specialize (IH st').
      destruct (cellLoop fam entries st') as [rest' st''].
      cbn [fst snd] in *. eapply baseEq_trans; eassumption.
    + pose proof (groupLoop_base fam Bus groups st) as Hg.
      destruct (groupLoop fam Bus groups st) as [g' st'].
      specialize (IH st').
      destruct (cellLoop fam entries st') as [rest' st''].
      cbn [fst snd] in *. eapply baseEq_trans; eassumption.
    + pose proof (pinLoop_base fam pins st) as Hp.
      specialize (IH (pinLoop fam pins st)).
      destruct (cellLoop fam entries (pinLoop fam pins st)) as [rest' st''].
      cbn [fst snd] in *. eapply baseEq_trans; eassumption.
    + specialize (IH st).
      destruct (cellLoop fam entries st) as [rest' st''].
      exact IH.
Qed.

Lemma dict_mem_update {V : Type} k k' (f : V -> V) (d : Dict V) :
  dict_mem k (dict_update k' f d) = dict_mem k d.
Proof.
  apply eq_true_iff_eq. now rewrite !dict_mem_In, dict_keys_update.
Qed.

(** [getTimingInfo] and [getInternalPowerInfo] return when [libPinDic]
    has the cell; they leave the cells of [libPinDic], the area and the
    leakage list as they were. *)
Lemma getInfo_Ok fam cell d st d' st' :
  getInfo fam cell d st = Ok (d', st') ->
  pinHas d cell = true
  /\ (forall k, pinHas d' k = pinHas d k)
  /\ baseEq (fst st') (fst st).
Proof.
  unfold getInfo. intros H. destruct d as [cells|]; [|discriminate].
  cbn [bind] in H. bindOk H. apply dict_at_Ok in Hx.
  pose proof (cellLoop_base fam x st) as Hb.
  destruct (cellLoop fam x st) as [entries' st2]. inversion H; subst.
  split; [|split].
  - cbn [pinHas]. unfold dict_mem. now rewrite Hx.
  - intros k. cbn [pinHas]. apply dict_mem_update.
  - exact Hb.
Qed.


Lemma dict_set_middle {V : Type} k (v w : V) (l1 l2 : Dict V) :
  ~ In k (dict_keys l1) ->
  dict_set k v (l1 ++ (k, w) :: l2) = l1 ++ (k, v) :: l2.
Proof.
  intros Hk. unfold dict_set.
  assert (Hm : dict_mem k (l1 ++ (k, w) :: l2) = true).
  { apply dict_mem_In. unfold dict_keys. rewrite map_app.
    apply in_or_app. right. now left. }
  rewrite Hm. clear Hm.
  induction l1 as [|[a x] l1 IH]; simpl.
  - now rewrite String.eqb_refl.
  - destruct (String.eqb_spec a k) as [->|Hne].
    + exfalso. apply Hk. now left.
    + f_equal. apply IH. intros Hin. apply Hk. now right.
Qed.

Lemma dict_set_fresh_keys {V W : Type} k (v : V) (d : Dict V) (l1 : Dict W) :
  dict_keys d = dict_keys l1 ->
  ~ In k (dict_keys l1) ->
  dict_set k v d = d ++ [(k, v)].
Proof.
  intros E Hk. apply dict_set_absent. apply dict_mem_notIn. now rewrite E.
Qed.

Lemma projectCell_Ok count p st kv st' :
  projectCell count p st kv = Ok st' ->
  exists c4 tim pow,
    lp_cells st' = dict_set (fst kv) c4 (lp_cells st)
    /\ recordOf p (fst kv) c4
    /\ lp_leakage st'
       = dict_set (fst kv) (leakTabOf count p (fst kv)) (lp_leakage st)
    /\ lp_timing st' = dict_set (fst kv) tim (lp_timing st)
    /\ lp_internalPower st' = dict_set (fst kv) pow (lp_internalPower st)
    /\ (forall k, pinHas (lp_libPinDic st') k = pinHas (lp_libPinDic st) k).
Proof.
  unfold projectCell. intros H. bindOk H.
  unfold getCellAreaInfo in Hx. bindOk Hx. apply dict_at_Ok in Hx0.
  inversion Hx; subst x; clear Hx.
  bindOk H. destruct x as [c2 leak].
  unfold getCellLeakagePowerInfo in Hx. bindOk Hx. apply dict_at_Ok in Hx1.
  inversion Hx; subst c2 leak; clear Hx.
  bindOk H. destruct x1 as [pd1 [c3 tim]].
  bindOk H. destruct x1 as [pd2 [c4 pow]].
  inversion H; subst st'; clear H. cbn.
  destruct (getInfo_Ok _ _ _ _ _ _ Hx) as (_ & Hp1 & [Ha1 Hl1]).
  destruct (getInfo_Ok _ _ _ _ _ _ Hx2) as (_ & Hp2 & [Ha2 Hl2]).
  cbn [fst] in *.
  exists c4, tim, pow. split; [reflexivity|]. split.
  { exists x0, x. repeat split; try assumption.
    - rewrite Ha2, Ha1. reflexivity.
    - rewrite Hl2, Hl1. reflexivity. }
  split.
  { unfold leakTabOf. rewrite Hx1. reflexivity. }
  split; [reflexivity|]. split; [reflexivity|].
  intros k. now rewrite Hp2, Hp1.
Qed.


(** The loop over the cells of a library, after the cells [l1]. *)
Lemma projectCells_Ok count p l2 : forall l1 st st',
  foldRes (projectCell count p) l2 st = Ok st' ->
  lp_cells st = l1 ++ l2 ->
  NoDup (dict_keys (l1 ++ l2)) ->
  dict_keys (lp_leakage st) = dict_keys l1 ->
  dict_keys (lp_timing st) = dict_keys l1 ->
  dict_keys (lp_internalPower st) = dict_keys l1 ->
  exists l2',
    lp_cells st' = l1 ++ l2'
    /\ Forall2 (storedCell p) l2 l2'
    /\ lp_leakage st'
       = lp_leakage st
         ++ map (fun c => (fst c, leakTabOf count p (fst c))) l2
    /\ dict_keys (lp_timing st') = dict_keys (l1 ++ l2)
    /\ dict_keys (lp_internalPower st') = dict_keys (l1 ++ l2).
Proof.
  induction l2 as [|[k c] l2 IH]; intros l1 st st' H Hc Hnd Hl Ht Hi.
  - cbn in H. inversion H; subst st'. exists [].
    rewrite app_nil_r in Hc. cbn [map]. rewrite !app_nil_r.
    split; [exact Hc|]. split; [constructor|]. split; [reflexivity|].
    now split.
  - cbn [foldRes] in H. bindOk H.
    destruct (projectCell_Ok _ _ _ _ _ Hx)
      as (c4 & tim & pow & Ec & Hrec & El & Et & Ei & _).
    cbn [fst] in *.
    assert (Hk : ~ In k (dict_keys l1)).
    { unfold dict_keys in Hnd. rewrite map_app in Hnd. cbn [map fst] in Hnd.
      apply NoDup_remove_2 in Hnd. intros Hin. apply Hnd.
      apply in_or_app. now left. }
    rewrite Hc, (dict_set_middle _ _ _ _ _ Hk) in Ec.
    rewrite (dict_set_fresh_keys _ _ _ _ Hl Hk) in El.
    rewrite (dict_set_fresh_keys _ _ _ _ Ht Hk) in Et.
    rewrite (dict_set_fresh_keys _ _ _ _ Hi Hk) in Ei.
    assert (Happ : forall (r : Dict ProjCell),
              (l1 ++ [(k, c4)]) ++ r = l1 ++ (k, c4) :: r).
    { intros r. now rewrite <- app_assoc. }
    assert (Hkeys : forall {V : Type} (d : Dict V) (v : V),
              dict_keys d = dict_keys l1 ->
              dict_keys (d ++ [(k, v)]) = dict_keys (l1 ++ [(k, c4)])).
    { intros V d v E. unfold dict_keys in *. rewrite !map_app, E.
      reflexivity. }
    destruct (IH (l1 ++ [(k, c4)]) x st' H) as (l2' & E1 & E2 & E3 & E4 & E5).
    + now rewrite Happ.
    + rewrite Happ. unfold dict_keys in *. rewrite map_app in *.
      exact Hnd.
    + rewrite El. now apply Hkeys.
    + rewrite Et. now apply Hkeys.
    + rewrite Ei. now apply Hkeys.
    + exists ((k, c4) :: l2'). rewrite Happ in E1.
      split; [exact E1|]. split.
      { constructor; [|exact E2]. split; [reflexivity|exact Hrec]. }
      split.
      { rewrite E3, El, <- app_assoc. reflexivity. }
      assert (Hsame : dict_keys ((l1 ++ [(k, c4)]) ++ l2)
                      = dict_keys (l1 ++ (k, c) :: l2)).
      { unfold dict_keys. rewrite !map_app. cbn [map fst].
        now rewrite <- app_assoc. }
      rewrite <- Hsame. now split.
Qed.


(** What a library contributes to a pass. *)
Lemma projectLib_Ok count libs lib cells r :
  NoDup (dict_keys cells) ->
  projectLib count libs lib cells = Ok r ->
  exists e,
    dict_get lib libs = Some e
    /\ Forall2 (storedCell (parser e)) cells (lp_cells r)
    /\ lp_leakage r
       = map (fun c => (fst c, leakTabOf count (parser e) (fst c))) cells
    /\ dict_keys (lp_timing r) = dict_keys cells
    /\ dict_keys (lp_internalPower r) = dict_keys cells.
Proof.
  intros Hnd H. unfold projectLib in H. bindOk H. apply dict_at_Ok in Hx.
  exists x. split; [exact Hx|].
  destruct (projectCells_Ok _ _ _ [] _ _ H) as (l2' & E1 & E2 & E3 & E4 & E5);
    try reflexivity; [exact Hnd|].
  cbn [app] in *. rewrite E1. cbn in E3. repeat split; assumption.
Qed.


Lemma shapeOf_app {V : Type} (a b : Dict (Dict V)) :
  shapeOf (a ++ b) = shapeOf a ++ shapeOf b.
Proof. unfold shapeOf. apply map_app. Qed.

(** The loop over the libraries of the selection, after the libraries
    [l1]. *)
Lemma projectAll_Ok count libs l2 : forall l1 pj pj',
  foldRes
    (fun pj kv =>
       r <- projectLib count libs (fst kv) (snd kv) ;;
       Ok {| pj_specified := dict_set (fst kv) (lp_cells r) (pj_specified pj);
             pj_leakage := dict_set (fst kv) (lp_leakage r) (pj_leakage pj);
             pj_timing := dict_set (fst kv) (lp_timing r) (pj_timing pj);
             pj_internalPower :=
               dict_set (fst kv) (lp_internalPower r) (pj_internalPower pj) |})
    l2 pj = Ok pj' ->
  pj_specified pj = l1 ++ l2 ->
  NoDup (dict_keys (l1 ++ l2)) ->
  Forall (fun kv => NoDup (dict_keys (snd kv))) l2 ->
  dict_keys (pj_leakage pj) = dict_keys l1 ->
  dict_keys (pj_timing pj) = dict_keys l1 ->
  dict_keys (pj_internalPower pj) = dict_keys l1 ->
  exists l2',
    pj_specified pj' = l1 ++ l2'
    /\ Forall2 (storedLib libs) l2 l2'
    /\ pj_leakage pj' = pj_leakage pj ++ map (leakTabLib count libs) l2
    /\ shapeOf (pj_timing pj') = shapeOf (pj_timing pj) ++ shapeOf l2
    /\ shapeOf (pj_internalPower pj')
       = shapeOf (pj_internalPower pj) ++ shapeOf l2.
Proof.
  induction l2 as [|[lib cells] l2 IH];
    intros l1 pj pj' H Hs Hnd Hcells Hl Ht Hi.
  - cbn in H. inversion H; subst pj'. exists [].
    rewrite app_nil_r in Hs. cbn [map shapeOf]. rewrite !app_nil_r.
    split; [exact Hs|]. split; [constructor|]. split; [reflexivity|].
    now split.
  - cbn [foldRes fst snd] in H. bindOk H. bindOk Hx.
    inversion Hx; subst x; clear Hx.
    inversion Hcells as [|? ? Hc Hcells']; subst. cbn [snd] in Hc.
    destruct (projectLib_Ok _ _ _ _ _ Hc Hx0) as (e & He & Hst & El & Et & Ei).
    assert (Hk : ~ In lib (dict_keys l1)).
    { unfold dict_keys in Hnd. rewrite map_app in Hnd. cbn [map fst] in Hnd.
      apply NoDup_remove_2 in Hnd. intros Hin. apply Hnd.
      apply in_or_app. now left. }
    assert (Happ : forall (r : Dict (Dict ProjCell)),
              (l1 ++ [(lib, lp_cells x0)]) ++ r
              = l1 ++ (lib, lp_cells x0) :: r).
    { intros r. now rewrite <- app_assoc. }
    assert (Hkeys : forall {V : Type} (d : Dict V) (v : V),
              dict_keys d = dict_keys l1 ->
              dict_keys (d ++ [(lib, v)])
              = dict_keys (l1 ++ [(lib, lp_cells x0)])).
    { intros V d v E. unfold dict_keys in *. rewrite !map_app, E.
      reflexivity. }
    destruct (IH (l1 ++ [(lib, lp_cells x0)]) _ pj' H)
      as (l2' & E1 & E2 & E3 & E4 & E5); cbn [pj_specified pj_leakage
        pj_timing pj_internalPower].
    + rewrite Hs, (dict_set_middle _ _ _ _ _ Hk). now rewrite Happ.
    + rewrite Happ. unfold dict_keys in *. rewrite map_app in *.
      exact Hnd.
    + exact Hcells'.
    + rewrite (dict_set_fresh_keys _ _ _ _ Hl Hk). now apply Hkeys.
    + rewrite (dict_set_fresh_keys _ _ _ _ Ht Hk). now apply Hkeys.
    + rewrite (dict_set_fresh_keys _ _ _ _ Hi Hk). now apply Hkeys.
    + cbn [pj_specified pj_leakage pj_timing pj_internalPower] in *.
      exists ((lib, lp_cells x0) :: l2'). rewrite Happ in E1.
      split; [exact E1|]. split.
      { constructor; [|exact E2]. split; [reflexivity|].
        exists e. cbn [fst snd]. now split. }
      rewrite (dict_set_fresh_keys _ _ _ _ Hl Hk) in E3.
      rewrite (dict_set_fresh_keys _ _ _ _ Ht Hk) in E4.
      rewrite (dict_set_fresh_keys _ _ _ _ Hi Hk) in E5.
      rewrite shapeOf_app in E4, E5. cbn [shapeOf map fst snd] in E4, E5.
      rewrite Et in E4. rewrite Ei in E5.
      split; [|split].
      * rewrite E3, <- app_assoc. cbn [map app]. unfold leakTabLib at 2.
        cbn [fst snd]. rewrite He, El. reflexivity.
      * rewrite E4, <- app_assoc. reflexivity.
      * rewrite E5, <- app_assoc. reflexivity.
Qed.


Lemma Forall2_In_r {A B : Type} (R : A -> B -> Prop) l l' y :
  Forall2 R l l' -> In y l' -> exists x, In x l /\ R x y.
Proof.
  induction 1 as [|x y' l l' Hxy _ IH]; intros Hin; [destruct Hin|].
  destruct Hin as [<-|Hin].
  - exists x. split; [now left|exact Hxy].
  - destruct (IH Hin) as [x' [Hx' Hr]]. exists x'. split; [now right|exact Hr].
Qed.

Lemma storedCell_keys p cells cells' :
  Forall2 (storedCell p) cells cells' -> dict_keys cells' = dict_keys cells.
Proof.
  induction 1 as [|kv kv' l l' [Hk _] _ IH]; [reflexivity|].
  unfold dict_keys in *. cbn [map]. now rewrite Hk, IH.
Qed.

Lemma storedLib_shape libs spec spec' :
  Forall2 (storedLib libs) spec spec' -> shapeOf spec' = shapeOf spec.
Proof.
  induction 1 as [|kv kv' l l' [Hk [e [_ Hc]]] _ IH]; [reflexivity|].
  cbn [shapeOf map] in *. fold (shapeOf l) (shapeOf l') in *.
  rewrite Hk, (storedCell_keys _ _ _ Hc). f_equal. exact IH.
Qed.

Lemma leakTabLib_shape count libs spec spec' :
  Forall2 (storedLib libs) spec spec' ->
  shapeOf (map (leakTabLib count libs) spec) = shapeOf spec.
Proof.
  induction 1 as [|kv kv' l l' [Hk [e [He _]]] _ IH]; [reflexivity|].
  cbn [shapeOf map] in *. fold (shapeOf l) in *.
  f_equal; [|exact IH]. unfold leakTabLib. cbn [fst snd]. rewrite He.
  f_equal. unfold dict_keys. rewrite map_map. reflexivity.
Qed.

Lemma cellListBeClicked_stores s s' :
  cellListBeClicked s = Ok s' ->
  Forall2 (storedLib (libDic s)) (fst (selectCells (cellListTree s)))
          (specifiedLibDic s')
  /\ specifiedCellCount s' = snd (selectCells (cellListTree s))
  /\ leakagePowerTabDic s'
     = map (leakTabLib (specifiedCellCount s') (libDic s))
           (fst (selectCells (cellListTree s)))
  /\ shapeOf (timingTabDic s') = shapeOf (fst (selectCells (cellListTree s)))
  /\ shapeOf (internalPowerTabDic s')
     = shapeOf (fst (selectCells (cellListTree s))).
Proof.
  unfold cellListBeClicked.
  pose proof (SelectionOk_selectCells (cellListTree s)) as Hok.
  destruct (selectCells (cellListTree s)) as [spec count]. cbn [fst snd] in *.
  destruct Hok as [_ _ Hl Hs].
  intros H. bindOk H. inversion H; subst s'; clear H.
  cbn [specifiedLibDic specifiedCellCount leakagePowerTabDic timingTabDic
       internalPowerTabDic].
  unfold projectAll in Hx.
  destruct (projectAll_Ok _ _ _ [] _ _ Hx) as (l2' & E1 & E2 & E3 & E4 & E5);
    try reflexivity; try assumption.
  cbn [app pj_leakage pj_timing pj_internalPower shapeOf map] in *.
  rewrite E1. repeat split; assumption.
Qed.

Lemma pass_records s s' lib cell c :
  cellListBeClicked s = Ok s' ->
  In (lib, cell, c) (allCells (specifiedLibDic s')) ->
  exists e, dict_get lib (libDic s) = Some e /\ recordOf (parser e) cell c.
Proof.
  intros H Hin. destruct (cellListBeClicked_stores _ _ H) as (Hst & _).
  unfold allCells in Hin. apply in_flat_map in Hin.
  destruct Hin as [[lib' cells'] [Hlib Hc]]. cbn [fst snd] in Hc.
  apply in_map_iff in Hc. destruct Hc as [[cell' c'] [E Hc]].
  cbn [fst snd] in E. inversion E; subst lib' cell' c'; clear E.
  destruct (Forall2_In_r _ _ _ _ Hst Hlib) as [[lib0 cells0] [_ Hr]].
  destruct Hr as [Hk [e [He Hcells]]]. cbn [fst snd] in *. subst lib0.
  exists e. split; [exact He|].
  destruct (Forall2_In_r _ _ _ _ Hcells Hc) as [[cell0 c0] [_ [Hk Hrec]]].
  cbn [fst snd] in *. now subst cell0.
Qed.

(** The records of a pass.  After a pass every cell of the selection
    holds the area the parser of its library has for it, and the leakage
    entries of that parser with quotes removed and N/A for what is
    missing. *)
Theorem cellListBeClicked_records s s' lib cell c :
  cellListBeClicked s = Ok s' ->
  In (lib, cell, c) (allCells (specifiedLibDic s')) ->
  exists e, dict_get lib (libDic s) = Some e /\ recordOf (parser e) cell c.
Proof. exact (pass_records s s' lib cell c). Qed.

Lemma cellListBeClicked_records_witness :
  exists e,
    dict_get "demo.lib" (libDic (demoChecked ["BUFX"; "BUFY"]%string))
    = Some e
    /\ recordOf (parser e) "BUFY" (cellRecord demoPair "demo.lib" "BUFY").
Proof.
  apply (cellListBeClicked_records (demoChecked ["BUFX"; "BUFY"]%string)
           demoPair).
  - vm_compute. reflexivity.
  - vm_compute. right. left. reflexivity.
Defined.

(** The four dictionaries of a pass are keyed alike: the three tab
    dictionaries hold the libraries and cells of the selection, in its
    order; the leakage index of a cell is built from the leakage entries
    of its parser when two cells or more are selected, and is empty
    otherwise. *)
Theorem cellListBeClicked_tabs_keyed_alike s s' :
  cellListBeClicked s = Ok s' ->
  shapeOf (leakagePowerTabDic s') = shapeOf (specifiedLibDic s')
  /\ shapeOf (timingTabDic s') = shapeOf (specifiedLibDic s')
  /\ shapeOf (internalPowerTabDic s') = shapeOf (specifiedLibDic s')
  /\ leakagePowerTabDic s'
     = map (leakTabLib (specifiedCellCount s') (libDic s))
           (fst (selectCells (cellListTree s))).
Proof.
  intros H. destruct (cellListBeClicked_stores _ _ H) as (Hst & _ & El & Et & Ei).
  rewrite (storedLib_shape _ _ _ Hst).
  split; [|split; [exact Et|split; [exact Ei|exact El]]].
  rewrite El. eapply leakTabLib_shape. exact Hst.
Qed.

Lemma cellListBeClicked_tabs_keyed_alike_witness :
  shapeOf (leakagePowerTabDic demoPair) = shapeOf (specifiedLibDic demoPair)
  /\ shapeOf (timingTabDic demoPair) = shapeOf (specifiedLibDic demoPair)
  /\ shapeOf (internalPowerTabDic demoPair) = shapeOf (specifiedLibDic demoPair)
  /\ leakagePowerTabDic demoPair
     = map (leakTabLib (specifiedCellCount demoPair)
              (libDic (demoChecked ["BUFX"; "BUFY"]%string)))
           (fst (selectCells
                   (cellListTree (demoChecked ["BUFX"; "BUFY"]%string)))).
Proof.
  apply (cellListBeClicked_tabs_keyed_alike
           (demoChecked ["BUFX"; "BUFY"]%string) demoPair).
  vm_compute. reflexivity.
Defined.

(** *** When a pass returns *)







(** ** The area tab *)

Lemma pyfloat_error s e : pyfloat s = Err e -> e = ValueError.
Proof.
  unfold pyfloat. destruct (signOf (pyStrip s)) as [neg body].
  destruct (String.eqb (lowerStr body) "inf"
            || String.eqb (lowerStr body) "infinity"); [discriminate|].
  destruct (String.eqb (lowerStr body) "nan"); [discriminate|].
  destruct (mantissaOf body) as [[[n k] rest]|]; [|congruence].
  destruct (exponentOf rest); [discriminate|congruence].
Qed.

(** The loop of the area table, from the rows and values [acc]. *)
Lemma areaRows_Ok cells : forall acc rows ys,
  foldRes
    (fun acc cell =>
       let '(libraryFileName, cellName, c) := cell in
       cellArea <- areaOf c ;;
       y <- pyfloat cellArea ;;
       Ok (fst acc ++ [{| ar_lib := libraryFileName; ar_cell := cellName;
                          ar_area := cellArea |}],
           snd acc ++ [y]))
    cells acc = Ok (rows, ys) ->
  exists rows' ys',
    rows = fst acc ++ rows' /\ ys = snd acc ++ ys'
    /\ Forall2 areaRowOf cells rows'
    /\ Forall2 (fun r y => pyfloat (ar_area r) = Ok y) rows' ys'.
Proof.
  induction cells as [|[[lib cell] c] cells IH]; intros acc rows ys H.
  - cbn in H. inversion H; subst. exists [], [].
    rewrite !app_nil_r. repeat split; constructor.
  - cbn [foldRes] in H. bindOk H. bindOk Hx. bindOk Hx.
    inversion Hx; subst x; clear Hx.
    unfold areaOf in Hx0. destruct (area c) as [a|] eqn:Ea; [|discriminate].
    inversion Hx0; subst x0; clear Hx0.
    destruct (IH _ _ _ H) as (rows' & ys' & E1 & E2 & E5 & E6).
    cbn [fst snd] in *.
    exists ({| ar_lib := lib; ar_cell := cell; ar_area := a |} :: rows'),
           (x1 :: ys').
    rewrite <- !app_assoc in *. cbn [app] in *.
    split; [exact E1|]. split; [exact E2|].
    split; constructor; try assumption. now repeat split.
Qed.

Lemma areaRowOf_keys cells rows :
  Forall2 areaRowOf cells rows ->
  map (fun r => (ar_lib r, ar_cell r)) rows = map fst cells.
Proof.
  induction 1 as [|[[lib cell] c] r l l' (H1 & H2 & _) _ IH]; [reflexivity|].
  cbn [map fst snd] in *. now rewrite H1, H2, IH.
Qed.

(** The area table after a pass.  The table has one row for each cell of
    the selection, in its order, as many rows as the count says, and the
    area of a row is the area the parser of the library has for the
    cell. *)
Theorem updateAreaTabTable_after_pass s s' rows ys :
  cellListBeClicked s = Ok s' ->
  updateAreaTabTable s' = Ok (rows, ys) ->
  map (fun r => (ar_lib r, ar_cell r)) rows
  = selectedPairs (specifiedLibDic s')
  /\ Z.of_nat (length rows) = specifiedCellCount s'
  /\ Forall2 (fun r y => pyfloat (ar_area r) = Ok y) rows ys
  /\ forall r, In r rows ->
       exists e,
         dict_get (ar_lib r) (libDic s) = Some e
         /\ dict_get (ar_cell r) (getCellArea (parser e)) = Some (ar_area r).
Proof.
  intros Hpass H. unfold updateAreaTabTable in H.
  destruct (areaRows_Ok _ _ _ _ H) as (rows' & ys' & E1 & E2 & E5 & E6).
  cbn [fst snd app] in *. subst rows' ys'.
  destruct (cellListBeClicked_selection _ _ Hpass) as (Hc & _).
  pose proof (areaRowOf_keys _ _ E5) as Hk.
  split; [exact Hk|]. split.
  { rewrite Hc. f_equal. unfold selectedPairs. rewrite <- Hk.
    now rewrite !length_map. }
  split; [exact E6|].
  intros r Hr.
  destruct (Forall2_In_r _ _ _ _ E5 Hr) as [[[lib cell] c] [Hin (H1 & H2 & Ha)]].
  cbn [fst snd] in *.
  destruct (pass_records _ _ _ _ _ Hpass Hin)
    as (e & He & a & raws & Hda & _ & Hca & _).
  exists e. rewrite H1, H2. split; [exact He|]. congruence.
Qed.

Lemma updateAreaTabTable_after_pass_witness :
  map (fun r => (ar_lib r, ar_cell r))
      [{| ar_lib := "demo.lib"; ar_cell := "BUFX"; ar_area := "1.0" |};
       {| ar_lib := "demo.lib"; ar_cell := "BUFY"; ar_area := "2.0" |}]
  = selectedPairs (specifiedLibDic demoPair)
  /\ Z.of_nat 2 = specifiedCellCount demoPair
  /\ Forall2 (fun r y => pyfloat (ar_area r) = Ok y)
       [{| ar_lib := "demo.lib"; ar_cell := "BUFX"; ar_area := "1.0" |};
        {| ar_lib := "demo.lib"; ar_cell := "BUFY"; ar_area := "2.0" |}]
       [Finite 1; Finite 2]
  /\ forall r,
       In r [{| ar_lib := "demo.lib"; ar_cell := "BUFX"; ar_area := "1.0" |};
             {| ar_lib := "demo.lib"; ar_cell := "BUFY"; ar_area := "2.0" |}] ->
       exists e,
         dict_get (ar_lib r) (libDic (demoChecked ["BUFX"; "BUFY"]%string))
         = Some e
         /\ dict_get (ar_cell r) (getCellArea (parser e)) = Some (ar_area r).
Proof.
  apply (updateAreaTabTable_after_pass
           (demoChecked ["BUFX"; "BUFY"]%string) demoPair);
    vm_compute; reflexivity.
Defined.

(** *** The tables as one expression *)

Lemma mapRes_error {A B : Type} (f : A -> Res B) l x :
  In x l -> f x = Err ValueError ->
  (forall y e, f y = Err e -> e = ValueError) ->
  mapRes f l = Err ValueError.
Proof.
  intros Hin Hx Hf. induction l as [|a l IH]; [destruct Hin|].
  cbn [mapRes]. destruct (f a) as [b|e] eqn:Ea; cbn [bind].
  - destruct Hin as [->|Hin]; [congruence|]. now rewrite (IH Hin).
  - now rewrite (Hf _ _ Ea).
Qed.


Lemma areaRows_eq cells : forall acc,
  Forall (fun cell : string * string * ProjCell => area (snd cell) <> None)
         cells ->
  foldRes
    (fun acc cell =>
       let '(libraryFileName, cellName, c) := cell in
       cellArea <- areaOf c ;;
       y <- pyfloat cellArea ;;
       Ok (fst acc ++ [{| ar_lib := libraryFileName; ar_cell := cellName;
                          ar_area := cellArea |}],
           snd acc ++ [y]))
    cells acc
  = match mapRes (fun cell => pyfloat (ar_area (areaRow cell))) cells with
    | Ok ys => Ok (fst acc ++ map areaRow cells, snd acc ++ ys)
    | Err e => Err e
    end.
Proof.
  induction cells as [|[[lib cell] c] cells IH]; intros acc Hall.
  - cbn. rewrite !app_nil_r. now destruct acc.
  - inversion Hall as [|? ? Ha Hall']; subst. cbn [snd] in Ha.
    cbn [foldRes mapRes]. unfold areaOf, areaRow at 1. cbn [fst snd ar_area].
    destruct (area c) as [a|] eqn:Ea; [|contradiction]. cbn [bind optOr].
    destruct (pyfloat a) as [y|e]; cbn [bind]; [|reflexivity].
    rewrite (IH _ Hall'). cbn [fst snd].
    destruct (mapRes (fun cell => pyfloat (ar_area (areaRow cell))) cells)
      as [ys|e]; cbn [bind]; [|reflexivity].
    unfold areaRow at 2. cbn [map fst snd]. rewrite Ea. cbn [optOr].
    now rewrite <- !app_assoc.
Qed.

Lemma records_area s s' :
  cellListBeClicked s = Ok s' ->
  Forall (fun cell : string * string * ProjCell =>
            area (snd cell) <> None /\ leakage_power (snd cell) <> None)
         (allCells (specifiedLibDic s')).
Proof.
  intros H. apply Forall_forall. intros [[lib cell] c] Hin.
  destruct (pass_records _ _ _ _ _ H Hin)
    as (e & _ & a & raws & _ & _ & Ha & Hl).
  cbn [snd]. rewrite Ha, Hl. split; discriminate.
Qed.

(** An area that is no number.  After a pass the area table is the rows
    of the selected cells with their areas as numbers; when the area of a
    selected cell is not a number literal, the table raises
    [ValueError]. *)
Theorem updateAreaTabTable_values s s' :
  cellListBeClicked s = Ok s' ->
  updateAreaTabTable s'
  = match mapRes (fun cell => pyfloat (ar_area (areaRow cell)))
                 (allCells (specifiedLibDic s')) with
    | Ok ys => Ok (map areaRow (allCells (specifiedLibDic s')), ys)
    | Err e => Err e
    end
  /\ (forall cell,
        In cell (allCells (specifiedLibDic s')) ->
        pyfloat (ar_area (areaRow cell)) = Err ValueError ->
        updateAreaTabTable s' = Err ValueError).
Proof.
  intros H.
  assert (E : updateAreaTabTable s'
              = match mapRes (fun cell => pyfloat (ar_area (areaRow cell)))
                             (allCells (specifiedLibDic s')) with
                | Ok ys => Ok (map areaRow (allCells (specifiedLibDic s')), ys)
                | Err e => Err e
                end).
  { unfold updateAreaTabTable. rewrite areaRows_eq; [reflexivity|].
    eapply Forall_impl; [|exact (records_area _ _ H)]. now intros c [Ha _]. }
  split; [exact E|].
  intros cell Hin Hbad. rewrite E.
  rewrite (mapRes_error _ _ cell Hin Hbad); [reflexivity|].
  intros y e. apply pyfloat_error.
Qed.

Lemma updateAreaTabTable_values_witness :
  updateAreaTabTable demoPair
  = match mapRes (fun cell => pyfloat (ar_area (areaRow cell)))
                 (allCells (specifiedLibDic demoPair)) with
    | Ok ys => Ok (map areaRow (allCells (specifiedLibDic demoPair)), ys)
    | Err e => Err e
    end.
Proof.
  apply (updateAreaTabTable_values (demoChecked ["BUFX"; "BUFY"]%string)).
  vm_compute. reflexivity.
Defined.

(** ** The table of all leakage entries *)

Lemma leakAll_inner lib cell l : forall acc,
  foldRes
    (fun acc e =>
       y <- pyfloat (leak_value e) ;;
       Ok (fst acc ++ [{| lr_lib := lib; lr_cell := cell;
                          lr_when := leak_when e;
                          lr_related_pg_pin := leak_related_pg_pin e;
                          lr_value := LeakString (leak_value e) |}],
           snd acc ++ [y]))
    l acc
  = match mapRes (fun e => pyfloat (leak_value e)) l with
    | Ok ys => Ok (fst acc ++ map (entryRow lib cell) l, snd acc ++ ys)
    | Err e => Err e
    end.
Proof.
  induction l as [|e l IH]; intros acc.
  - cbn. rewrite !app_nil_r. now destruct acc.
  - cbn [foldRes mapRes].
    destruct (pyfloat (leak_value e)) as [y|err]; cbn [bind]; [|reflexivity].
    rewrite IH. cbn [fst snd].
    destruct (mapRes (fun e => pyfloat (leak_value e)) l) as [ys|err];
      cbn [bind]; [|reflexivity].
    cbn [map]. unfold entryRow at 2. now rewrite <- !app_assoc.
Qed.

Lemma leakAll_outer cells : forall acc,
  Forall (fun cell : string * string * ProjCell =>
            leakage_power (snd cell) <> None) cells ->
  foldRes
    (fun acc cell =>
       let '(libraryFileName, cellName, c) := cell in
       l <- leakageOf c ;;
       foldRes
         (fun acc e =>
            y <- pyfloat (leak_value e) ;;
            Ok (fst acc ++ [{| lr_lib := libraryFileName;
                               lr_cell := cellName;
                               lr_when := leak_when e;
                               lr_related_pg_pin := leak_related_pg_pin e;
                               lr_value := LeakString (leak_value e) |}],
                snd acc ++ [y]))
         l acc)
    cells acc
  = match mapRes entryValues cells with
    | Ok yss => Ok (fst acc ++ flat_map entryRows cells, snd acc ++ concat yss)
    | Err e => Err e
    end.
Proof.
  induction cells as [|[[lib cell] c] cells IH]; intros acc Hall.
  - cbn. rewrite !app_nil_r. now destruct acc.
  - inversion Hall as [|? ? Hl Hall']; subst. cbn [snd] in Hl.
    cbn [foldRes mapRes]. unfold leakageOf, entryValues at 1.
    cbn [snd]. destruct (leakage_power c) as [l|] eqn:El; [|contradiction].
    cbn [bind optOr]. rewrite leakAll_inner.
    destruct (mapRes (fun e => pyfloat (leak_value e)) l) as [ys|err];
      cbn [bind]; [|reflexivity].
    rewrite (IH _ Hall'). cbn [fst snd].
    destruct (mapRes entryValues cells) as [yss|err]; cbn [bind];
      [|reflexivity].
    cbn [flat_map concat]. unfold entryRows at 2. cbn [fst snd].
    rewrite El. cbn [optOr]. now rewrite <- !app_assoc.
Qed.

Lemma leakage_all_entries s s' whenText pgText :
  cellListBeClicked s = Ok s' ->
  leakagePowerTabMultiEnable s' = false ->
  updateLeakagePowerTabTable s' whenText pgText
  = match mapRes entryValues (allCells (specifiedLibDic s')) with
    | Ok yss =>
        Ok (flat_map entryRows (allCells (specifiedLibDic s')), concat yss)
    | Err e => Err e
    end.
Proof.
  intros H Hm. unfold updateLeakagePowerTabTable. rewrite Hm.
  rewrite leakAll_outer; [reflexivity|].
  eapply Forall_impl; [|exact (records_area _ _ H)]. now intros c [_ Hl].
Qed.

(** The table of all entries.  After a pass that did not enable the
    leakage comparison, the leakage table lists every leakage entry of
    every selected cell, in order, whatever the two boxes show; it raises
    [ValueError] when the value of an entry is not a number literal. *)
Theorem updateLeakagePowerTabTable_all_entries s s' whenText pgText :
  cellListBeClicked s = Ok s' ->
  leakagePowerTabMultiEnable s' = false ->
  updateLeakagePowerTabTable s' whenText pgText
  = match mapRes entryValues (allCells (specifiedLibDic s')) with
    | Ok yss =>
        Ok (flat_map entryRows (allCells (specifiedLibDic s')), concat yss)
    | Err e => Err e
    end.
Proof. exact (leakage_all_entries s s' whenText pgText). Qed.

Lemma updateLeakagePowerTabTable_all_entries_witness :
  updateLeakagePowerTabTable demoOne "A" "VDD"
  = match mapRes entryValues (allCells (specifiedLibDic demoOne)) with
    | Ok yss =>
        Ok (flat_map entryRows (allCells (specifiedLibDic demoOne)),
            concat yss)
    | Err e => Err e
    end.
Proof.
  apply (updateLeakagePowerTabTable_all_entries
           (demoChecked ["BUFX"%string]));
    vm_compute; reflexivity.
Defined.




(** ** The leakage index *)

Lemma leakTab_get_acc w l : forall t,
  dict_get w (fold_left addLeakTab l t)
  = match dict_get w t, pgPinsOf w l with
    | Some pgs, ps => Some (pgs ++ ps)
    | None, [] => None
    | None, ps => Some ps
    end.
Proof.
  induction l as [|e l IH]; intros t.
  - cbn. destruct (dict_get w t); [now rewrite app_nil_r|reflexivity].
  - cbn [fold_left]. rewrite IH. unfold addLeakTab, dict_upsert.
    rewrite dict_get_upsert. unfold pgPinsOf. cbn [filter].
    destruct (String.eqb_spec (leak_when e) w) as [Ew|Ew]; cbn [map].
    + rewrite Ew. destruct (dict_get w t) as [pgs|]; cbn [optOr].
      * now rewrite <- app_assoc.
      * reflexivity.
    + reflexivity.
Qed.

(** The leakage index of a cell.  [getCellLeakagePowerInfo] stores the
    entries of the parser as the flat list; with two cells or more in the
    selection the index holds, under each condition that an entry has,
    the pg pins of the entries with this condition, in their order and as
    often as they occur, and with fewer cells the index is empty. *)
Theorem getCellLeakagePowerInfo_index count cell dic c c' tab :
  getCellLeakagePowerInfo count cell dic c = Ok (c', tab) ->
  exists raws,
    dict_get cell dic = Some raws
    /\ leakage_power c' = Some (map flatLeakage raws)
    /\ forall w,
         dict_get w tab
         = if (2 <=? count)%Z
           then match pgPinsOf w (map flatLeakage raws) with
                | [] => None
                | ps => Some ps
                end
           else None.
Proof.
  unfold getCellLeakagePowerInfo. intros H. bindOk H.
  apply dict_at_Ok in Hx. inversion H; subst c' tab; clear H.
  exists x. split; [exact Hx|]. split; [reflexivity|].
  intros w. destruct (2 <=? count)%Z; [|reflexivity].
  rewrite leakTab_get_acc. reflexivity.
Qed.

Lemma getCellLeakagePowerInfo_index_witness :
  dict_get "A"%string
    (fold_left addLeakTab
       (map flatLeakage [leakEntry "1.5" "A" "VDD "]) [])
  = Some ["VDD "%string].
Proof.
  destruct (getCellLeakagePowerInfo_index 2 "BUFX"
              (getCellLeakagePower demoParser) emptyCell
              {| area := None;
                 leakage_power :=
                   Some (map flatLeakage [leakEntry "1.5" "A" "VDD "]);
                 pc_bundle := None; pc_bus := None; pc_pin := None |}
              (fold_left addLeakTab
                 (map flatLeakage [leakEntry "1.5" "A" "VDD "]) [])
              eq_refl) as (raws & Hr & _ & Hw).
  rewrite (Hw "A"%string). vm_compute in Hr. inversion Hr; subst raws.
  vm_compute. reflexivity.
Defined.

(** ** The two lines of the main frame *)

Lemma fold_addKey_In l : forall acc x,
  In x (fold_left addKey l acc) <-> In x acc \/ In x l.
Proof.
  induction l as [|a l IH]; intros acc x; cbn [fold_left].
  - cbn. tauto.
  - rewrite IH, addKey_In. cbn [In]. intuition congruence.
Qed.

Lemma fold_addKey_NoDup l : forall acc,
  NoDup acc -> NoDup (fold_left addKey l acc).
Proof.
  induction l as [|a l IH]; intros acc H; cbn [fold_left]; [exact H|].
  apply IH. now apply addKey_NoDup.
Qed.

Lemma fold_addKey_known l : forall acc,
  (forall x, In x l -> In x acc) -> fold_left addKey l acc = acc.
Proof.
  induction l as [|a l IH]; intros acc H; cbn [fold_left]; [reflexivity|].
  assert (Ha : addKey acc a = acc).
  { unfold addKey. assert (E : existsb (String.eqb a) acc = true).
    { apply existsb_eqb_In. apply H. now left. }
    now rewrite E. }
  rewrite Ha. apply IH. intros x Hx. apply H. now right.
Qed.

Lemma fold_addKey_same k l acc :
  (forall x, In x l -> x = k) -> l <> [] -> ~ In k acc ->
  fold_left addKey l acc = acc ++ [k].
Proof.
  intros Hall Hne Hk. destruct l as [|a l]; [contradiction|].
  cbn [fold_left]. assert (a = k) by (apply Hall; now left). subst a.
  assert (Ha : addKey acc k = acc ++ [k]).
  { unfold addKey. assert (E : existsb (String.eqb k) acc = false)
      by now apply existsb_eqb_notIn.
    now rewrite E. }
  rewrite Ha. apply fold_addKey_known. intros x Hx.
  apply in_or_app. right. left. symmetry. apply Hall. now right.
Qed.

Lemma specifiedLists_split (l : list (string * string * ProjCell)) :
  forall a b,
  fold_left
    (fun acc cell =>
       let '(libraryFileName, cellName, _) := cell in
       (addKey (fst acc) libraryFileName, addKey (snd acc) cellName))
    l (a, b)
  = (fold_left addKey (map (fun c => fst (fst c)) l) a,
     fold_left addKey (map (fun c => snd (fst c)) l) b).
Proof.
  induction l as [|[[lib cell] c] l IH]; intros a b; [reflexivity|].
  cbn [fold_left map fst snd]. apply IH.
Qed.

Lemma libs_of_allCells (spec : Dict (Dict ProjCell)) : forall acc,
  NoDup (acc ++ dict_keys spec) ->
  Forall (fun kv => snd kv <> []) spec ->
  fold_left addKey (map (fun c => fst (fst c)) (allCells spec)) acc
  = acc ++ dict_keys spec.
Proof.
  induction spec as [|[lib cells] spec IH]; intros acc Hnd Hne.
  - cbn. now rewrite app_nil_r.
  - inversion Hne as [|? ? Hc Hne']; subst. cbn [snd] in Hc.
    assert (Ecells : map (fun c : string * string * ProjCell => fst (fst c))
                         (allCells ((lib, cells) :: spec))
                     = map (fun _ => lib) cells
                       ++ map (fun c => fst (fst c)) (allCells spec)).
    { unfold allCells. cbn [flat_map fst snd].
      rewrite map_app, map_map. reflexivity. }
    rewrite Ecells, fold_left_app.
    rewrite (fold_addKey_same lib (map (fun _ => lib) cells) acc).
    + assert (Hnd' : NoDup ((acc ++ [lib]) ++ dict_keys spec)).
      { unfold dict_keys in *. cbn [map fst] in Hnd.
        now rewrite <- app_assoc. }
      etransitivity; [exact (IH (acc ++ [lib]) Hnd' Hne')|].
      unfold dict_keys. cbn [map fst]. now rewrite <- app_assoc.
    + intros x Hx. apply in_map_iff in Hx. now destruct Hx as [? [<- _]].
    + destruct cells; [contradiction|discriminate].
    + unfold dict_keys in Hnd. cbn [map fst] in Hnd.
      apply NoDup_remove_2 in Hnd. intros Hin. apply Hnd.
      apply in_or_app. now left.
Qed.

Lemma shapeOf_NoDup {V W : Type} (a : Dict (Dict V)) (b : Dict (Dict W)) :
  shapeOf a = shapeOf b -> NoDup (dict_keys b) -> NoDup (dict_keys a).
Proof.
  intros E H. rewrite <- shapeOf_keys, E, shapeOf_keys. exact H.
Qed.

(** The two lines after a pass.  The library line names the libraries of
    the selection in its order; the cell line names every selected cell
    once, also when the cell is selected in several libraries. *)
Theorem specifiedLists_after_pass s s' :
  cellListBeClicked s = Ok s' ->
  fst (specifiedLists s') = dict_keys (specifiedLibDic s')
  /\ NoDup (snd (specifiedLists s'))
  /\ forall c,
       In c (snd (specifiedLists s'))
       <-> exists lib, In (lib, c) (selectedPairs (specifiedLibDic s')).
Proof.
  intros H. unfold specifiedLists. rewrite specifiedLists_split.
  cbn [fst snd].
  destruct (cellListBeClicked_stores _ _ H) as (Hst & _).
  pose proof (storedLib_shape _ _ _ Hst) as Hshape.
  destruct (SelectionOk_selectCells (cellListTree s)) as [_ Hn Hl _].
  split; [|split].
  - rewrite libs_of_allCells; [reflexivity| |].
    + cbn [app]. eapply shapeOf_NoDup; eassumption.
    + eapply shapeOf_nonEmpty; eassumption.
  - apply fold_addKey_NoDup. constructor.
  - intros c. rewrite fold_addKey_In. cbn [In]. unfold selectedPairs.
    split.
    + intros [[]|Hin]. apply in_map_iff in Hin.
      destruct Hin as [[[lib cell] x] [E Hin]]. cbn [fst snd] in E. subst c.
      exists lib. apply in_map_iff. exists (lib, cell, x). now split.
    + intros [lib Hin]. right. apply in_map_iff in Hin.
      destruct Hin as [[[lib' cell] x] [E Hin]]. cbn [fst] in E.
      inversion E; subst. apply in_map_iff. exists (lib, c, x). now split.
Qed.

Lemma specifiedLists_after_pass_witness :
  fst (specifiedLists demoPair) = dict_keys (specifiedLibDic demoPair)
  /\ NoDup (snd (specifiedLists demoPair))
  /\ forall c,
       In c (snd (specifiedLists demoPair))
       <-> exists lib, In (lib, c) (selectedPairs (specifiedLibDic demoPair)).
Proof.
  apply (specifiedLists_after_pass (demoChecked ["BUFX"; "BUFY"]%string)).
  vm_compute. reflexivity.
Defined.

(** ** Selection by pattern *)

Lemma mapRes_Ok_inv {A B : Type} (f : A -> Res B) l : forall l',
  mapRes f l = Ok l' -> Forall2 (fun x y => f x = Ok y) l l'.
Proof.
  induction l as [|a l IH]; intros l' H; cbn [mapRes] in H.
  - inversion H. constructor.
  - bindOk H. bindOk H. inversion H; subst. constructor; [exact Hx|].
    now apply IH.
Qed.

Lemma mapRes_of_Forall2 {A B : Type} (f : A -> Res B) l l' :
  Forall2 (fun x y => f x = Ok y) l l' -> mapRes f l = Ok l'.
Proof.
  induction 1 as [|x y l l' Hxy _ IH]; [reflexivity|].
  cbn [mapRes]. now rewrite Hxy, IH.
Qed.

Lemma mapRes_idem {A : Type} (f : A -> Res A) l l' :
  (forall x y, f x = Ok y -> f y = Ok y) ->
  mapRes f l = Ok l' -> mapRes f l' = Ok l'.
Proof.
  intros Hf H. apply mapRes_Ok_inv in H. apply mapRes_of_Forall2.
  induction H as [|x y l l' Hxy _ IH]; constructor; [|exact IH].
  now apply (Hf x).
Qed.

Lemma withTree_same s : withTree (cellListTree s) s = s.
Proof. now destruct s. Qed.

Section SelectFacts.
Variable reMatch : string -> string -> Res bool.

Lemma uncheck_uncheck st : uncheck (uncheck st) = uncheck st.
Proof. now destruct st. Qed.

Lemma selectItemState_idem pats c c' :
  selectItemState reMatch pats c = Ok c' ->
  selectItemState reMatch pats c' = Ok c'.
Proof.
  unfold selectItemState. intros H. bindOk H. inversion H; subst c'.
  cbn [fst snd]. rewrite Hx. cbn [bind].
  destruct x; [reflexivity|now rewrite uncheck_uncheck].
Qed.

Lemma selectTree_idem pats t t' :
  selectTree reMatch pats t = Ok t' -> selectTree reMatch pats t' = Ok t'.
Proof.
  apply mapRes_idem. intros lib lib' H. bindOk H. inversion H; subst lib'.
  cbn [fst snd].
  now rewrite (mapRes_idem _ _ _ (selectItemState_idem pats) Hx).
Qed.

(** Selecting twice.  When [selectCell] returns, a second call with the
    same text on the session it left changes nothing: the same items are
    checked and the pass stores the same session. *)
Theorem selectCell_idempotent str s s1 :
  selectCell reMatch str s = Ok s1 -> selectCell reMatch str s1 = Ok s1.
Proof.
  unfold selectCell. intros H. bindOk H.
  destruct (cellListBeClicked_keeps _ _ H) as [_ Ht]. cbn in Ht.
  rewrite Ht, (selectTree_idem _ _ _ Hx). cbn [bind].
  rewrite <- Ht, withTree_same. exact (cellListBeClicked_again _ _ H).
Qed.

End SelectFacts.

Section SelectedFacts.
Variable reMatch : string -> string -> Res bool.

Lemma selectItemState_newState pats c c' :
  selectItemState reMatch pats c = Ok c' -> c' = newState reMatch pats c.
Proof.
  unfold selectItemState, newState. intros H. bindOk H.
  inversion H; subst c'. now destruct x.
Qed.

Lemma mapRes_Ok_map {A B : Type} (f : A -> Res B) (g : A -> B) l l' :
  (forall x y, f x = Ok y -> y = g x) -> mapRes f l = Ok l' -> l' = map g l.
Proof.
  intros Hf H. apply mapRes_Ok_inv in H.
  induction H as [|x y l l' Hxy _ IH]; [reflexivity|].
  cbn [map]. now rewrite (Hf _ _ Hxy), IH.
Qed.

(** The tree the loop leaves. *)
Lemma selectTree_Ok pats t t' :
  selectTree reMatch pats t = Ok t' ->
  t' = map (fun lib => (fst lib, map (newState reMatch pats) (snd lib))) t.
Proof.
  apply mapRes_Ok_map. intros lib lib' H. bindOk H. inversion H; subst lib'.
  f_equal. eapply mapRes_Ok_map; [|exact Hx].
  intros c c'. apply selectItemState_newState.
Qed.

Lemma checkedCells_newState pats cells :
  checkedCells (map (newState reMatch pats) cells)
  = map fst (filter (isMatched reMatch pats) cells).
Proof.
  unfold checkedCells. induction cells as [|c cells IH]; [reflexivity|].
  cbn [map filter]. unfold newState at 1, isMatched at 1. cbn [snd fst].
  destruct (anyMatch reMatch pats (fst c)) as [[|]|e]; cbn [isChecked].
  - cbn [map fst]. now rewrite IH.
  - destruct (snd c); cbn [uncheck isChecked]; exact IH.
  - destruct (snd c); cbn [uncheck isChecked]; exact IH.
Qed.

Lemma selectedPairs_app (a b : Dict (Dict ProjCell)) :
  selectedPairs (a ++ b) = selectedPairs a ++ selectedPairs b.
Proof. unfold selectedPairs, allCells. now rewrite flat_map_app, map_app. Qed.

Lemma selectedPairs_libGroup lib cs :
  selectedPairs (libGroup lib cs) = map (pair lib) cs.
Proof.
  destruct cs as [|a cs]; [reflexivity|].
  unfold selectedPairs, allCells. cbn [libGroup flat_map fst snd].
  rewrite app_nil_r, !map_map. reflexivity.
Qed.

Lemma selectedPairs_checkedTree t :
  selectedPairs (checkedTree t)
  = flat_map (fun lib => map (pair (fst lib)) (checkedCells (snd lib))) t.
Proof.
  induction t as [|[lib cells] t IH]; [reflexivity|].
  unfold checkedTree in *. cbn [flat_map fst snd].
  now rewrite selectedPairs_app, selectedPairs_libGroup, IH.
Qed.

Lemma matchedPairs_newState pats t :
  flat_map (fun lib => map (pair (fst lib)) (checkedCells (snd lib)))
    (map (fun lib => (fst lib, map (newState reMatch pats) (snd lib))) t)
  = matchedPairs reMatch pats t.
Proof.
  unfold matchedPairs. induction t as [|[lib cells] t IH]; [reflexivity|].
  cbn [map flat_map fst snd]. rewrite IH. f_equal.
  rewrite checkedCells_newState, map_map. reflexivity.
Qed.

(** What [selectCell] selects.  In a tree whose libraries have distinct
    names and whose cells have distinct names within a library, the cells
    selected after [selectCell] are the cells whose name one of the
    patterns of the line matches, in the order of the tree, whatever was
    checked before; the count is their number. *)
Theorem selectCell_selects_matching str s s' :
  NoDup (map fst (cellListTree s)) ->
  Forall (fun lib => NoDup (map fst (snd lib))) (cellListTree s) ->
  selectCell reMatch str s = Ok s' ->
  selectedPairs (specifiedLibDic s')
  = matchedPairs reMatch (selectPatterns str) (cellListTree s)
  /\ specifiedCellCount s'
     = Z.of_nat (length (matchedPairs reMatch (selectPatterns str)
                           (cellListTree s))).
Proof.
  intros Hl Hc H. unfold selectCell in H. bindOk H.
  pose proof (selectTree_Ok _ _ _ Hx) as Et.
  destruct (cellListBeClicked_selection _ _ H) as (Hcount & _ & _ & Hsel).
  cbn [cellListTree withTree] in Hsel.
  assert (Hl' : NoDup (map fst x)).
  { rewrite Et, map_map. exact Hl. }
  assert (Hc' : Forall (fun lib => NoDup (map fst (snd lib))) x).
  { rewrite Et. apply Forall_map. eapply Forall_impl; [|exact Hc].
    intros lib Hn. cbn [snd]. rewrite map_map. exact Hn. }
  rewrite (selectCells_checked x Hl' Hc') in Hsel. cbn [fst] in Hsel.
  assert (E : selectedPairs (specifiedLibDic s')
              = matchedPairs reMatch (selectPatterns str) (cellListTree s)).
  { rewrite Hsel, selectedPairs_checkedTree, Et.
    apply matchedPairs_newState. }
  split; [exact E|]. now rewrite Hcount, E.
Qed.

(** *** An empty line *)

Lemma selectCells_none t :
  Forall (fun item => isChecked (snd item) = false) (treeItems t) ->
  selectCells t = ([], 0%Z).
Proof.
  unfold selectCells. induction 1 as [|[[lib cell] st] l Hst _ IH];
    [reflexivity|].
  cbn [fold_left]. cbn [snd] in Hst.
  destruct st; [exact IH|exact IH|discriminate Hst].
Qed.

Lemma selectTree_nil t :
  selectTree reMatch [] t
  = Ok (map (fun lib => (fst lib,
                         map (fun c => (fst c, uncheck (snd c))) (snd lib)))
            t).
Proof.
  apply mapRes_of_Forall2.
  induction t as [|lib t IH]; constructor; [|exact IH].
  assert (E : mapRes (selectItemState reMatch []) (snd lib)
              = Ok (map (fun c => (fst c, uncheck (snd c))) (snd lib))).
  { apply mapRes_of_Forall2. induction (snd lib) as [|c l IHl];
      constructor; [reflexivity|exact IHl]. }
  now rewrite E.
Qed.

Lemma treeItems_unchecked t :
  Forall (fun item : string * string * CheckState =>
            isChecked (snd item) = false)
    (treeItems
       (map (fun lib : string * list (string * CheckState) =>
               (fst lib, map (fun c => (fst c, uncheck (snd c))) (snd lib)))
            t)).
Proof.
  unfold treeItems. apply Forall_forall. intros item Hin.
  apply in_flat_map in Hin. destruct Hin as [lib' [Hlib Hin]].
  apply in_map_iff in Hlib. destruct Hlib as [lib [<- _]].
  cbn [fst snd] in Hin. apply in_map_iff in Hin.
  destruct Hin as [c' [<- Hc]]. apply in_map_iff in Hc.
  destruct Hc as [c [<- _]]. cbn [snd]. now destruct (snd c).
Qed.

(** An empty line.  With no word on the line every checked cell is
    unchecked, the pass returns, nothing is selected and no comparison is
    enabled, whatever the regular expressions of the library do. *)
Theorem selectCell_blank str s :
  pySplit (pyStrip str) = [] ->
  exists s',
    selectCell reMatch str s = Ok s'
    /\ specifiedLibDic s' = []
    /\ specifiedCellCount s' = 0%Z
    /\ leakagePowerTabMultiEnable s' = false
    /\ timingTabMultiEnable s' = false
    /\ internalPowerTabMultiEnable s' = false
    /\ Forall (fun item => isChecked (snd item) = false)
              (treeItems (cellListTree s')).
Proof.
  intros Hblank. unfold selectCell, selectPatterns. rewrite Hblank.
  cbn [map]. rewrite selectTree_nil. cbn [bind].
  unfold cellListBeClicked. cbn [cellListTree withTree].
  rewrite (selectCells_none _ (treeItems_unchecked (cellListTree s))).
  cbn. eexists. split; [reflexivity|]. cbn.
  repeat split. apply treeItems_unchecked.
Qed.
End SelectedFacts.

Lemma selectCell_blank_witness :
  exists s',
    selectCell plainMatch "  " (demoChecked ["BUFX"%string]) = Ok s'
    /\ specifiedLibDic s' = []
    /\ specifiedCellCount s' = 0%Z
    /\ leakagePowerTabMultiEnable s' = false
    /\ timingTabMultiEnable s' = false
    /\ internalPowerTabMultiEnable s' = false
    /\ Forall (fun item => isChecked (snd item) = false)
              (treeItems (cellListTree s')).
Proof.
  apply (selectCell_blank plainMatch "  " (demoChecked ["BUFX"%string])).
  reflexivity.
Defined.

Lemma selectCell_idempotent_witness :
  selectCell plainMatch "BUF*"
    (sessionOf (selectCell plainMatch "BUF*" demoLoaded))
  = Ok (sessionOf (selectCell plainMatch "BUF*" demoLoaded)).
Proof.
  apply (selectCell_idempotent plainMatch "BUF*" demoLoaded).
  vm_compute. reflexivity.
Defined.

Lemma selectCell_selects_matching_witness :
  selectedPairs
    (specifiedLibDic (sessionOf (selectCell plainMatch "BUF*" demoLoaded)))
  = matchedPairs plainMatch (selectPatterns "BUF*") (cellListTree demoLoaded)
  /\ specifiedCellCount (sessionOf (selectCell plainMatch "BUF*" demoLoaded))
     = Z.of_nat (length (matchedPairs plainMatch (selectPatterns "BUF*")
                           (cellListTree demoLoaded))).
Proof.
  apply (selectCell_selects_matching plainMatch "BUF*" demoLoaded).
  - vm_compute. repeat constructor; simpl; intuition discriminate.
  - vm_compute. repeat constructor; simpl; intuition discriminate.
  - vm_compute. reflexivity.
Defined.

(** ** An empty index box is position 0 in the comparison *)

Lemma indexUnset_default i : indexUnset (defaultIndex i) = false.
Proof.
  unfold defaultIndex. destruct (indexUnset i) eqn:E; [reflexivity|exact E].
Qed.

Lemma defaultIndex_idem i : defaultIndex (defaultIndex i) = defaultIndex i.
Proof. unfold defaultIndex at 1. now rewrite indexUnset_default. Qed.

Lemma idxVal_default i : idxVal (defaultIndex i) = idxVal i.
Proof. unfold idxVal. now rewrite defaultIndex_idem. Qed.

(** A round of the loop reads the two indices through the positions they
    stand for. *)
Lemma multiStep_same sel lib cell st st' a :
  sameComparison st st' ->
  sameOutcome (multiStep sel lib cell st a) (multiStep sel lib cell st' a).
Proof.
  intros (Hr & Hy & H1 & H2). unfold multiStep.
  destruct (arcMatches sel a); [|cbn; now repeat split].
  rewrite !indexUnset_default. cbn [negb].
  destruct (dict_at (pyStrip (sel_table_type sel)) (table_type a)) as [t|e];
    cbn [bind]; [|reflexivity].
  unfold idxVal in H1, H2. rewrite <- H1, <- H2.
  destruct (indexInt (defaultIndex (ms_index1 st))) as [i|e] eqn:Ei;
    cbn [bind]; [|reflexivity].
  destruct (list_at (index_1 t) i) as [x1|e]; cbn [bind]; [|reflexivity].
  destruct (if (0 <? length (index_2 t))%nat
            then j <- indexInt (defaultIndex (ms_index2 st)) ;;
                 list_at (index_2 t) j
            else Ok EmptyString) as [x2|e]; cbn [bind]; [|reflexivity].
  destruct (list_at (values t) i) as [row|e]; cbn [bind]; [|reflexivity].
  destruct (indexInt (defaultIndex (ms_index2 st))) as [j|e] eqn:Ej;
    cbn [bind]; [|reflexivity].
  destruct (list_at row j) as [v|e]; cbn [bind]; [|reflexivity].
  destruct (pyfloat v) as [y|e]; cbn [bind]; [|reflexivity].
  cbn. unfold sameComparison. cbn.
  rewrite Hr, Hy. repeat split.
  - rewrite !idxVal_default. unfold idxVal. now rewrite Ei.
  - rewrite !idxVal_default. unfold idxVal. now rewrite Ej.
Qed.

Lemma foldRes_same {A : Type} (f : MultiState -> A -> Res MultiState) l :
  (forall st st' a, sameComparison st st' -> sameOutcome (f st a) (f st' a)) ->
  forall st st',
  sameComparison st st' -> sameOutcome (foldRes f l st) (foldRes f l st').
Proof.
  intros Hf. induction l as [|a l IH]; intros st st' H; [exact H|].
  cbn [foldRes]. specialize (Hf st st' a H).
  destruct (f st a) as [s1|e1], (f st' a) as [s1'|e1']; cbn [bind];
    try contradiction.
  - now apply IH.
  - exact Hf.
Qed.

Lemma multiCell_same spec sel st st' cell :
  sameComparison st st' ->
  sameOutcome (multiCell spec sel st cell) (multiCell spec sel st' cell).
Proof.
  intros H. destruct cell as [[lib name] tab]. unfold multiCell.
  destruct (dict_at lib spec) as [cells|e]; cbn [bind]; [|reflexivity].
  destruct (dict_at name cells) as [c|e]; cbn [bind]; [|reflexivity].
  destruct (pinTimingList c (pyStrip (sel_bundle sel))
              (pyStrip (sel_bus sel)) (pyStrip (sel_pin sel))) as [l|e];
    cbn [bind]; [|reflexivity].
  apply foldRes_same; [|exact H]. intros s1 s2 a. apply multiStep_same.
Qed.

Lemma idxVal_normIndex text :
  idxVal (IndexText (pyStrip text))
  = idxVal (IndexText (pyStrip (normIndex text))).
Proof.
  unfold normIndex. destruct (strEmpty (pyStrip text)) eqn:E; [|reflexivity].
  unfold idxVal, defaultIndex. cbn [indexUnset]. rewrite E.
  vm_compute. reflexivity.
Qed.

(** An empty index box is position 0.  When the selection is not a
    single cell, the timing table with an index box left empty is the
    table with position 0 written in that box: the same rows, the same
    values, the same exception if there is one. *)
Theorem updateTimingTabTable_empty_index_is_zero s sel :
  (specifiedCellCount s =? 1)%Z = false ->
  updateTimingTabTable s sel
  = updateTimingTabTable s
      (withIndex (normIndex (sel_index_1 sel)) (normIndex (sel_index_2 sel))
                 sel).
Proof.
  intros Hc. unfold updateTimingTabTable. rewrite Hc.
  destruct (multiOrSingle s); [|reflexivity].
  destruct (timingTabMultiEnable s); [|reflexivity].
  cbn [sel_index_1 sel_index_2 withIndex].
  match goal with
  | |- bind (foldRes ?f ?l ?st) _ = bind (foldRes ?g ?l ?st') _ =>
      assert (H : sameOutcome (foldRes f l st) (foldRes f l st'));
      [|change g with f;
        destruct (foldRes f l st) as [r|e], (foldRes f l st') as [r'|e'];
        cbn [bind]; cbn in H; try contradiction]
  end.
  - apply foldRes_same.
    + intros st st' cell. apply multiCell_same.
    + unfold sameComparison. cbn [ms_rows ms_figureYList ms_index1 ms_index2].
      repeat split; apply idxVal_normIndex.
  - destruct H as (Hr & Hy & _). now rewrite Hr, Hy.
  - now subst.
Qed.

Lemma updateTimingTabTable_empty_index_is_zero_witness :
  updateTimingTabTable demoPair (specSel "" "1")
  = updateTimingTabTable demoPair
      (withIndex (normIndex "") (normIndex "1") (specSel "" "1")).
Proof.
  apply (updateTimingTabTable_empty_index_is_zero demoPair (specSel "" "1")).
  vm_compute. reflexivity.
Defined.

(** ** Building the tree again keeps the selection *)

Lemma checkedCells_marked (b : string -> bool) l :
  checkedCells (map (fun c => (c, if b c then Checked else Unchecked)) l)
  = filter b l.
Proof.
  unfold checkedCells. induction l as [|c l IH]; [reflexivity|].
  cbn [map filter snd]. destruct (b c); cbn [isChecked map fst];
    now rewrite IH.
Qed.

Lemma sortCellWithSize_NoDup l : NoDup l -> NoDup (sortCellWithSize l).
Proof.
  intros H. eapply Permutation_NoDup; [|exact H].
  symmetry. apply sortCellWithSize_perm.
Qed.

(** The tree is built again when a library is loaded.  With distinct
    library names in the catalog and distinct names in each cell list,
    the pass that follows finds selected exactly the cells that were
    selected before and that the catalog lists, now in the order of the
    tree. *)
Theorem updateCellListTree_keeps_selection s lib cell :
  NoDup (dict_keys (libDic s)) ->
  Forall (fun kv => NoDup (cellList (snd kv))) (libDic s) ->
  In (lib, cell)
     (selectedPairs
        (fst (selectCells (cellListTree (updateCellListTree s)))))
  <-> isSpecified (specifiedLibDic s) lib cell = true
      /\ exists e, In (lib, e) (libDic s) /\ In cell (cellList e).
Proof.
  intros Hl Hc. unfold updateCellListTree. cbn [cellListTree].
  rewrite selectCells_checked.
  - cbn [fst]. rewrite selectedPairs_checkedTree, in_flat_map. split.
    + intros [lib' [Hin Hp]]. apply in_map_iff in Hin.
      destruct Hin as [[k e] [<- Hin]]. cbn [fst snd] in Hp.
      rewrite checkedCells_marked in Hp. apply in_map_iff in Hp.
      destruct Hp as [c [E Hf]]. inversion E; subst k c.
      apply filter_In in Hf. destruct Hf as [Hs Hb]. split; [exact Hb|].
      exists e. split; [exact Hin|].
      eapply Permutation_in; [apply sortCellWithSize_perm|exact Hs].
    + intros [Hb [e [Hin Hcell]]].
      exists (lib,
              map (fun c => (c, if isSpecified (specifiedLibDic s) lib c
                                then Checked else Unchecked))
                  (sortCellWithSize (cellList e))).
      split.
      * apply in_map_iff. exists (lib, e). now split.
      * cbn [fst snd]. rewrite checkedCells_marked. apply in_map.
        apply filter_In. split; [|exact Hb].
        eapply Permutation_in; [symmetry; apply sortCellWithSize_perm|].
        exact Hcell.
  - rewrite map_map. exact Hl.
  - apply Forall_map. eapply Forall_impl; [|exact Hc].
    intros [k e] Hn. cbn [fst snd] in *. rewrite map_map. cbn [fst].
    rewrite map_id. now apply sortCellWithSize_NoDup.
Qed.

Lemma updateCellListTree_keeps_selection_witness :
  In ("demo.lib", "BUFY")%string
     (selectedPairs
        (fst (selectCells (cellListTree (updateCellListTree demoPair)))))
  <-> isSpecified (specifiedLibDic demoPair) "demo.lib" "BUFY" = true
      /\ exists e, In ("demo.lib"%string, e) (libDic demoPair)
                   /\ In "BUFY"%string (cellList e).
Proof.
  apply (updateCellListTree_keeps_selection demoPair).
  - vm_compute. repeat constructor; simpl; intuition discriminate.
  - vm_compute. repeat constructor; simpl; intuition discriminate.
Defined.

(** ** The stages of the timing tab, one after the other *)

Lemma pySet_In x l : In x (pySet l) <-> In x l.
Proof.
  induction l as [|y l IH]; [reflexivity|]. cbn [pySet]. split.
  - intros [->|H]; [now left|]. apply filter_In in H. right. now apply IH.
  - intros [->|H]; [now left|].
    destruct (String.eqb_spec y x) as [->|Hne]; [now left|].
    right. apply filter_In. split; [now apply IH|].
    apply negb_true_iff. now apply String.eqb_neq.
Qed.

Lemma hnav_app p q t : hnav (p ++ q) t = (t' <- hnav p t ;; hnav q t').
Proof.
  revert t. induction p as [|k p IH]; intros t; [reflexivity|].
  cbn [app hnav].
  destruct (dict_at k (hchildren t)) as [t1|e]; cbn [bind];
    [apply IH|reflexivity].
Qed.

Lemma dict_at_In {V : Type} k (d : Dict V) :
  In k (dict_keys d) -> exists v, dict_at k d = Ok v.
Proof.
  intros H. apply dict_mem_In in H. unfold dict_mem in H. unfold dict_at.
  destruct (dict_get k d) as [v|]; [now exists v|discriminate].
Qed.

Lemma stageItems_next s sel path k items :
  stageItems s sel path = Ok items -> In k items ->
  isOk (stageItems s sel (path ++ [k])) = true.
Proof.
  unfold stageItems.
  destruct (multiOrSingle s);
    [|intros H; inversion H; subst; intros []].
  destruct (firstCell (timingTabDic s)) as [t|];
    [|intros H; inversion H; subst; intros []].
  destruct (scopePins t (pyStrip (sel_bundle sel)) (pyStrip (sel_bus sel)))
    as [pins|e]; cbn [bind]; [|discriminate].
  destruct (dict_at (pyStrip (sel_pin sel)) pins) as [pin|e]; cbn [bind];
    [|discriminate].
  destruct pin as [idx|]; [|intros H; inversion H; subst; intros []].
  rewrite hnav_app.
  destruct (hnav path idx) as [node|e]; cbn [bind]; [|discriminate].
  intros H Hin. inversion H; subst items.
  apply (proj1 (pySet_In _ _)) in Hin.
  destruct (dict_at_In _ _ Hin) as [t' Ht']. cbn [hnav]. now rewrite Ht'.
Qed.

(** ** The position of the comparison exists in every table compared *)

Lemma multiStep_range sel lib cell st st' a i :
  idxVal (ms_index1 st) = Ok i ->
  multiStep sel lib cell st a = Ok st' ->
  idxVal (ms_index1 st') = Ok i
  /\ (arcMatches sel a = true -> hasRow sel i a = true).
Proof.
  intros Hi H. unfold multiStep in H.
  destruct (arcMatches sel a) eqn:Hm.
  - rewrite !indexUnset_default in H. cbn [negb] in H.
    unfold dict_at in H. unfold hasRow.
    destruct (dict_get (pyStrip (sel_table_type sel)) (table_type a))
      as [t|]; cbn [bind] in H; [|discriminate H].
    bindOk H. destruct x as [[x1 x2] v].
    unfold idxVal in Hi. rewrite Hi in Hx. cbn [bind] in Hx.
    bindOk Hx. bindOk Hx. bindOk Hx.
    bindOk H. inversion H; subst st'; clear H.
    cbn [ms_index1]. split.
    + now rewrite idxVal_default.
    + intros _. reflexivity.
  - inversion H; subst st'. split; [exact Hi|discriminate].
Qed.

Lemma multiSteps_range sel lib cell i l : forall st st',
  idxVal (ms_index1 st) = Ok i ->
  foldRes (multiStep sel lib cell) l st = Ok st' ->
  idxVal (ms_index1 st') = Ok i
  /\ Forall (fun a => arcMatches sel a = true -> hasRow sel i a = true) l.
Proof.
  induction l as [|a l IH]; intros st st' Hi H; cbn [foldRes] in H.
  - inversion H; subst st'. now split.
  - bindOk H. destruct (multiStep_range _ _ _ _ _ _ _ Hi Hx) as [Hi' Ha].
    destruct (IH _ _ Hi' H) as [Hi'' Hl]. split; [exact Hi''|].
    now constructor.
Qed.

Lemma multiCells_range spec sel i cells : forall st st',
  idxVal (ms_index1 st) = Ok i ->
  foldRes (multiCell spec sel) cells st = Ok st' ->
  Forall
    (fun cell =>
       exists cs c l,
         dict_get (fst (fst cell)) spec = Some cs
         /\ dict_get (snd (fst cell)) cs = Some c
         /\ pinTimingList c (pyStrip (sel_bundle sel))
              (pyStrip (sel_bus sel)) (pyStrip (sel_pin sel)) = Ok l
         /\ Forall (fun a => arcMatches sel a = true -> hasRow sel i a = true)
                   l)
    cells.
Proof.
  induction cells as [|[[lib name] tc] cells IH]; intros st st' Hi H;
    [constructor|].
  cbn [foldRes] in H. bindOk H. unfold multiCell in Hx.
  bindOk Hx. bindOk Hx. bindOk Hx.
  match goal with
  | E1 : dict_at lib spec = Ok ?cs, E2 : dict_at name ?cs = Ok ?c,
    E3 : pinTimingList ?c _ _ _ = Ok ?l |- _ =>
      apply dict_at_Ok in E1; apply dict_at_Ok in E2;
      destruct (multiSteps_range _ _ _ _ _ _ _ Hi Hx) as [Hi' Hl];
      constructor;
      [exists cs, c, l; cbn [fst snd]; now repeat split
      |exact (IH _ _ Hi' H)]
  end.
Qed.

(** The position of the comparison exists in every table compared.  When
    the timing table of a comparison is returned, every entry of every
    compared cell that has the chosen discriminators has the chosen table
    type, and its table has the row the first index box stands for (row
    0 for an empty box): a table of one row is compared at position 0
    only. *)
Theorem updateTimingTabTable_comparison_in_range
  s sel i rows ys lib cell tc cells c l a :
  idxVal (IndexText (pyStrip (sel_index_1 sel))) = Ok i ->
  updateTimingTabTable s sel = Ok (Comparison rows ys) ->
  In (lib, cell, tc) (allCells (timingTabDic s)) ->
  dict_get lib (specifiedLibDic s) = Some cells ->
  dict_get cell cells = Some c ->
  pinTimingList c (pyStrip (sel_bundle sel)) (pyStrip (sel_bus sel))
    (pyStrip (sel_pin sel)) = Ok l ->
  In a l ->
  arcMatches sel a = true ->
  hasRow sel i a = true.
Proof.
  intros Hi H Hcell Hcs Hc Hl Ha Hm. unfold updateTimingTabTable in H.
  destruct (multiOrSingle s); [|discriminate H].
  destruct (specifiedCellCount s =? 1)%Z.
  { repeat (bindOk H). discriminate H. }
  destruct (timingTabMultiEnable s); [|discriminate H].
  bindOk H.
  apply (multiCells_range _ _ i) in Hx; [|exact Hi]. rename Hx into HF.
  rewrite Forall_forall in HF. specialize (HF _ Hcell).
  destruct HF as (cs' & c' & l' & E1 & E2 & E3 & HF).
  cbn [fst snd] in *.
  rewrite Hcs in E1. inversion E1; subst cs'.
  rewrite Hc in E2. inversion E2; subst c'.
  rewrite Hl in E3. inversion E3; subst l'.
  rewrite Forall_forall in HF. now apply HF.
Qed.

Lemma updateTimingTabTable_comparison_in_range_witness :
  hasRow (specSel "1" "") 1 (flatArc Timing specArc) = true.
Proof.
  eapply (updateTimingTabTable_comparison_in_range
            demoPair (specSel "1" "") 1 _ _ "demo.lib" "BUFX").
  - vm_compute. reflexivity.
  - vm_compute. reflexivity.
  - vm_compute. left. reflexivity.
  - vm_compute. reflexivity.
  - vm_compute. reflexivity.
  - vm_compute. reflexivity.
  - left. reflexivity.
  - vm_compute. reflexivity.
Defined.

(** ** The leakage comparison: one row for each selected cell *)

Lemma leakRows_each w p (cells : list (string * string * ProjCell)) :
  forall acc rows ys,
  foldRes
    (fun acc cell =>
       let '(libraryFileName, cellName, c) := cell in
       l <- leakageOf c ;;
       let specifiedValue := findLeakage w p l in
       y <- leakFloat specifiedValue ;;
       Ok (fst acc ++ [{| lr_lib := libraryFileName; lr_cell := cellName;
                          lr_when := w; lr_related_pg_pin := p;
                          lr_value := specifiedValue |}],
           snd acc ++ [y]))
    cells acc
  = Ok (rows, ys) ->
  exists rows' ys',
    rows = fst acc ++ rows' /\ ys = snd acc ++ ys'
    /\ map (fun r => (lr_lib r, lr_cell r)) rows' = map fst cells
    /\ length ys' = length rows'
    /\ Forall (fun r => lr_when r = w /\ lr_related_pg_pin r = p) rows'.
Proof.
  induction cells as [|[[lib cell] c] cells IH]; intros acc rows ys H.
  - cbn [foldRes] in H. inversion H; subst acc. exists [], [].
    cbn [fst snd]. rewrite !app_nil_r. now repeat split.
  - cbn [foldRes] in H. bindOk H. bindOk Hx. cbv zeta in Hx. bindOk Hx.
    inversion Hx; subst x; clear Hx.
    destruct (IH _ _ _ H) as (rows' & ys' & Hr & Hy & Hk & Hlen & Hall).
    cbn [fst snd] in Hr, Hy. rewrite <- app_assoc in Hr, Hy.
    eexists (_ :: rows'), (_ :: ys').
    split; [exact Hr|]. split; [exact Hy|]. cbn [map length fst].
    split; [now rewrite Hk|]. split; [now rewrite Hlen|].
    constructor; [now split|exact Hall].
Qed.

(** The leakage comparison gives every selected cell one row.  When a
    pass has enabled the comparison and the table is returned, the rows
    are the selected cells in their order, as many as the cell count the
    table was sized with, each with the two texts chosen, and the curve
    has one value for each row. *)
Theorem updateLeakagePowerTabTable_row_per_cell s s' whenText pgText rows ys :
  cellListBeClicked s = Ok s' ->
  leakagePowerTabMultiEnable s' = true ->
  updateLeakagePowerTabTable s' whenText pgText = Ok (rows, ys) ->
  map (fun r => (lr_lib r, lr_cell r)) rows
  = selectedPairs (specifiedLibDic s')
  /\ Z.of_nat (length rows) = specifiedCellCount s'
  /\ length ys = length rows
  /\ Forall (fun r => lr_when r = pyStrip whenText
                      /\ lr_related_pg_pin r = pyStrip pgText) rows.
Proof.
  intros Hpass Hm H. unfold updateLeakagePowerTabTable in H.
  rewrite Hm in H. cbv zeta in H.
  destruct (leakRows_each _ _ _ _ _ _ H)
    as (rows' & ys' & Hr & Hy & Hk & Hlen & Hall).
  cbn [fst snd app] in Hr, Hy. subst rows' ys'.
  destruct (cellListBeClicked_selection _ _ Hpass) as [Hcount _].
  unfold selectedPairs in *. rewrite Hcount, <- Hk, !length_map.
  now repeat split.
Qed.

Lemma updateLeakagePowerTabTable_row_per_cell_witness :
  map (fun r => (lr_lib r, lr_cell r))
      [defaultRow "A" "VDD" ("demo.lib", "BUFX", emptyCell);
       defaultRow "A" "VDD" ("demo.lib", "BUFY", emptyCell)]%string
  = selectedPairs (specifiedLibDic demoPair)
  /\ Z.of_nat 2 = specifiedCellCount demoPair
  /\ length [Finite 0; Finite 0] = 2%nat
  /\ Forall (fun r => lr_when r = pyStrip "A"
                      /\ lr_related_pg_pin r = pyStrip "VDD ")
       [defaultRow "A" "VDD" ("demo.lib", "BUFX", emptyCell);
        defaultRow "A" "VDD" ("demo.lib", "BUFY", emptyCell)]%string.
Proof.
  apply (updateLeakagePowerTabTable_row_per_cell
           (demoChecked ["BUFX"; "BUFY"]%string) demoPair "A" "VDD ").
  - vm_compute. reflexivity.
  - vm_compute. reflexivity.
  - vm_compute. reflexivity.
Defined.

(** ** One cell selected: the index boxes choose the curve, not the table *)

(** With one cell selected, the table does not depend on the two index
    boxes.  Whenever the timing table is returned for two choices that
    differ in the index boxes only, the two tables have the same headers
    and the same items. *)
Theorem updateTimingTabTable_table_ignores_index s sel i1 i2 t t' :
  updateTimingTabTable s sel = Ok (OneCell t) ->
  updateTimingTabTable s (withIndex i1 i2 sel) = Ok (OneCell t') ->
  st_index1List t' = st_index1List t
  /\ st_index2List t' = st_index2List t
  /\ tableItems t' = tableItems t.
Proof.
  intros H H'. unfold updateTimingTabTable in H, H'.
  cbn [withIndex sel_bundle sel_bus sel_pin] in H'.
  destruct (multiOrSingle s); [|discriminate H].
  destruct (specifiedCellCount s =? 1)%Z.
  - destruct (firstSortedKey (specifiedLibDic s)) as [lib|e];
      cbn [bind] in H, H'; [|discriminate H].
    destruct (dict_at lib (specifiedLibDic s)) as [cells|e];
      cbn [bind] in H, H'; [|discriminate H].
    destruct (firstSortedKey cells) as [cell|e];
      cbn [bind] in H, H'; [|discriminate H].
    destruct (dict_at cell cells) as [c|e];
      cbn [bind] in H, H'; [|discriminate H].
    destruct (pinTimingList c (pyStrip (sel_bundle sel))
                (pyStrip (sel_bus sel)) (pyStrip (sel_pin sel))) as [l|e];
      cbn [bind] in H, H'; [|discriminate H].
    bindOk H. bindOk H'. inversion H; inversion H'; subst; clear H H'.
    apply resolveSingle_last in Hx. apply resolveSingle_last in Hx0.
    change (arcMatches (withIndex i1 i2 sel)) with (arcMatches sel) in Hx0.
    cbn [withIndex sel_table_type] in Hx0.
    unfold tableItems.
    destruct (find (arcMatches sel) (rev l)) as [a|].
    + destruct Hx as (u & Hu & A1 & A2 & A3).
      destruct Hx0 as (u' & Hu' & B1 & B2 & B3).
      rewrite Hu in Hu'. inversion Hu'; subst u'.
      now rewrite A1, A2, A3, B1, B2, B3.
    + destruct Hx as (A1 & A2 & A3). destruct Hx0 as (B1 & B2 & B3).
      now rewrite A1, A2, A3, B1, B2, B3.
  - destruct (timingTabMultiEnable s); [|discriminate H].
    bindOk H. discriminate H.
Qed.

Lemma updateTimingTabTable_table_ignores_index_witness :
  shownTable (updateTimingTabTable demoOne (withIndex "1" "" (specSel "" "")))
  = shownTable (updateTimingTabTable demoOne (specSel "" "")).
Proof.
  destruct (updateTimingTabTable demoOne (specSel "" "")) as [[|t|]|]
    eqn:H; try (vm_compute in H; discriminate H).
  destruct (updateTimingTabTable demoOne (withIndex "1" "" (specSel "" "")))
    as [[|t'|]|] eqn:H'; try (vm_compute in H'; discriminate H').
  cbn [shownTable]. f_equal.
  exact (proj2 (proj2 (updateTimingTabTable_table_ignores_index
                         demoOne (specSel "" "") "1" "" t t' H H'))).
Defined.

(** ** The internal-power tab *)

Lemma powerSingleStep_match sel st a st' :
  powerMatches sel a = true ->
  powerSingleStep sel st a = Ok st' ->
  exists t,
    dict_get (pyStrip (ip_table_type sel)) (table_type a) = Some t
    /\ st_index1List st' = index_1 t
    /\ st_index2List st' = index_2 t
    /\ st_valuesList st' = values t.
Proof.
  intros Hm H. unfold powerSingleStep in H. rewrite Hm in H.
  bindOk H. exists x. apply dict_at_Ok in Hx. split; [exact Hx|].
  destruct (negb (strEmpty (pyStrip (ip_index_1 sel)))
            && strEmpty (pyStrip (ip_index_2 sel))).
  { repeat bindOk H. inversion H; subst; simpl; auto. }
  destruct (strEmpty (pyStrip (ip_index_1 sel))
            && negb (strEmpty (pyStrip (ip_index_2 sel)))).
  { repeat bindOk H. inversion H; subst; simpl; auto. }
  destruct (strEmpty (pyStrip (ip_index_1 sel))
            && strEmpty (pyStrip (ip_index_2 sel))).
  { repeat bindOk H. inversion H; subst; simpl; auto. }
  inversion H; subst; simpl; auto.
Qed.

(** The loop has no [break]: the last entry of the flat list that has
    the discriminators decides the three lists. *)
Lemma resolvePowerSingle_last sel l : forall st0 st,
  foldRes (powerSingleStep sel) l st0 = Ok st ->
  match find (powerMatches sel) (rev l) with
  | Some a =>
      exists t,
        dict_get (pyStrip (ip_table_type sel)) (table_type a) = Some t
        /\ st_index1List st = index_1 t
        /\ st_index2List st = index_2 t
        /\ st_valuesList st = values t
  | None =>
      st_index1List st = st_index1List st0
      /\ st_index2List st = st_index2List st0
      /\ st_valuesList st = st_valuesList st0
  end.
Proof.
  induction l as [|a l IH]; intros st0 st H; simpl in *.
  - inversion H. auto.
  - bindOk H. specialize (IH x st H). rewrite find_app.
    destruct (find (powerMatches sel) (rev l)) as [b|]; [exact IH|].
    simpl. destruct (powerMatches sel a) eqn:Hm.
    + destruct (powerSingleStep_match sel st0 a x Hm Hx)
        as (t & Ht & H1 & H2 & H3).
      exists t. destruct IH as (I1 & I2 & I3).
      repeat split; congruence.
    + unfold powerSingleStep in Hx. rewrite Hm in Hx.
      inversion Hx; subst. exact IH.
Qed.

(** The internal-power table of one cell, read against the raw list of
    the pin.  Every item of the table that the loop over the flat list
    resolves is the scalar the raw list has at the same discriminators,
    table type and positions, in the last raw entry that has the
    discriminators; the table type is [rise_power] or [fall_power].  The
    raw dictionaries of tables have distinct keys. *)
Theorem resolvePowerSingle_round_trip sel raws st i j v :
  Forall (fun a => NoDup (dict_keys (raw_table_type a))) raws ->
  resolvePowerSingle sel (fst (getPinInternalPowerInfo raws)) = Ok st ->
  itemAt (tableItems st) i j = Some v ->
  rawPowerScalar sel raws i j = Some v
  /\ isTableType internalPowerTableTypes (pyStrip (ip_table_type sel)) = true.
Proof.
  intros Hnd Hres Hitem.
  unfold getPinInternalPowerInfo in Hres. rewrite getPinInfo_flat in Hres.
  pose proof (resolvePowerSingle_last sel _ _ _ Hres) as H.
  rewrite <- map_rev, find_map in H.
  unfold rawPowerScalar.
  assert (Hfun : forall l,
            find (fun a => powerMatches sel (flatArc InternalPower a)) l
            = find (rawPowerMatches sel) l) by reflexivity.
  rewrite Hfun in H.
  destruct (find (rawPowerMatches sel) (rev raws)) as [a|] eqn:Hfind;
    simpl in H.
  - destruct H as (t & Ht & H1 & H2 & H3).
    assert (Ha : NoDup (dict_keys (raw_table_type a))).
    { rewrite Forall_forall in Hnd. apply Hnd. apply in_rev.
      eapply find_some_In. exact Hfind. }
    destruct (flatArc_get InternalPower a _ t Ha Ht)
      as (Hacc & block & Hb & ->).
    rewrite Hb. split; [|exact Hacc].
    unfold tableItems in Hitem. rewrite H1, H3 in Hitem. simpl in Hitem.
    destruct (parseIndex (raw_index_1 block)); [|exact Hitem].
    unfold itemAt in Hitem. now destruct i.
  - destruct H as (H1 & _ & _). unfold tableItems in Hitem.
    rewrite H1 in Hitem. simpl in Hitem. unfold itemAt in Hitem.
    now destruct i.
Qed.

Lemma resolvePowerSingle_round_trip_witness :
  rawPowerScalar (powerSel "1" "") [powerArc] 1 0 = Some "30"%string
  /\ isTableType internalPowerTableTypes "rise_power" = true.
Proof.
  assert (Hnd : Forall (fun a => NoDup (dict_keys (raw_table_type a)))
                       [powerArc]).
  { repeat constructor. intros []. }
  destruct (resolvePowerSingle (powerSel "1" "")
              (fst (getPinInternalPowerInfo [powerArc]))) as [st|e] eqn:Hres.
  - apply (resolvePowerSingle_round_trip (powerSel "1" "")
             [powerArc] st 1 0 "30"%string Hnd Hres).
    vm_compute in Hres. inversion Hres. reflexivity.
  - vm_compute in Hres. discriminate.
Defined.

Lemma powerStageItems_next s sel path k items :
  powerStageItems s sel path = Ok items -> In k items ->
  isOk (powerStageItems s sel (path ++ [k])) = true.
Proof.
  unfold powerStageItems.
  destruct (powerMultiOrSingle s);
    [|intros H; inversion H; subst; intros []].
  destruct (firstCell (internalPowerTabDic s)) as [t|];
    [|intros H; inversion H; subst; intros []].
  destruct (scopePins t (pyStrip (ip_bundle sel)) (pyStrip (ip_bus sel)))
    as [pins|e]; cbn [bind]; [|discriminate].
  destruct (dict_at (pyStrip (ip_pin sel)) pins) as [pin|e]; cbn [bind];
    [|discriminate].
  destruct pin as [idx|]; [|intros H; inversion H; subst; intros []].
  rewrite hnav_app.
  destruct (hnav path idx) as [node|e]; cbn [bind]; [|discriminate].
  intros H Hin. inversion H; subst items.
  apply (proj1 (pySet_In _ _)) in Hin.
  destruct (dict_at_In _ _ Hin) as [t' Ht']. cbn [hnav]. now rewrite Ht'.
Qed.

(** The stages of a tab follow one another.  In the timing tab and in
    the internal-power tab alike, when the text of a box, blanks at its
    ends left out, is one of the items the box was given, the box of the
    next stage gets its items and no key is missing; this holds from the
    related pin down to the table type. *)
Theorem updateTab_stage_follows s sel psel :
  ((forall items,
      updateTimingTabRelatedPinCombo s sel = Ok items ->
      In (pyStrip (sel_related_pin sel)) items ->
      isOk (updateTimingTabRelatedPgPinCombo s sel) = true)
   /\ (forall items,
         updateTimingTabRelatedPgPinCombo s sel = Ok items ->
         In (pyStrip (sel_related_pg_pin sel)) items ->
         isOk (updateTimingTabTimingSenseCombo s sel) = true)
   /\ (forall items,
         updateTimingTabTimingSenseCombo s sel = Ok items ->
         In (pyStrip (sel_timing_sense sel)) items ->
         isOk (updateTimingTabTimingTypeCombo s sel) = true)
   /\ (forall items,
         updateTimingTabTimingTypeCombo s sel = Ok items ->
         In (pyStrip (sel_timing_type sel)) items ->
         isOk (updateTimingTabWhenCombo s sel) = true)
   /\ (forall items,
         updateTimingTabWhenCombo s sel = Ok items ->
         In (pyStrip (sel_when sel)) items ->
         isOk (updateTimingTabTableTypeCombo s sel) = true))
  /\ ((forall items,
         updateInternalPowerTabRelatedPinCombo s psel = Ok items ->
         In (pyStrip (ip_related_pin psel)) items ->
         isOk (updateInternalPowerTabRelatedPgPinCombo s psel) = true)
      /\ (forall items,
            updateInternalPowerTabRelatedPgPinCombo s psel = Ok items ->
            In (pyStrip (ip_related_pg_pin psel)) items ->
            isOk (updateInternalPowerTabWhenCombo s psel) = true)
      /\ (forall items,
            updateInternalPowerTabWhenCombo s psel = Ok items ->
            In (pyStrip (ip_when psel)) items ->
            isOk (updateInternalPowerTabTableTypeCombo s psel) = true)).
Proof.
  split.
  - repeat split; intros items H Hin;
      exact (stageItems_next s sel _ _ items H Hin).
  - repeat split; intros items H Hin;
      exact (powerStageItems_next s psel _ _ items H Hin).
Qed.

(** The stages of the two examples: each box is given the one item the
    choice names. *)
Lemma updateTab_stage_items :
  updateTimingTabRelatedPinCombo demoOne (specSel "" "") = Ok ["A"%string]
  /\ updateTimingTabWhenCombo demoOne (specSel "" "") = Ok ["N/A"%string]
  /\ updateTimingTabTableTypeCombo demoOne (specSel "" "")
     = Ok ["cell_rise"%string]
  /\ updateInternalPowerTabRelatedPinCombo powerOne (powerSel "" "")
     = Ok ["A"%string]
  /\ updateInternalPowerTabWhenCombo powerOne (powerSel "" "")
     = Ok ["N/A"%string]
  /\ updateInternalPowerTabTableTypeCombo powerOne (powerSel "" "")
     = Ok ["rise_power"%string].
Proof. repeat split; vm_compute; reflexivity. Qed.

(** ** The position of the internal-power comparison *)

Lemma powerMultiStep_range sel lib cell st st' a i :
  idxVal (ms_index1 st) = Ok i ->
  powerMultiStep sel lib cell st a = Ok st' ->
  idxVal (ms_index1 st') = Ok i
  /\ (powerMatches sel a = true -> hasPowerRow sel i a = true).
Proof.
  intros Hi H. unfold powerMultiStep in H.
  destruct (powerMatches sel a) eqn:Hm.
  - rewrite !indexUnset_default in H. cbn [negb] in H.
    unfold dict_at in H. unfold hasPowerRow.
    destruct (dict_get (pyStrip (ip_table_type sel)) (table_type a))
      as [t|]; cbn [bind] in H; [|discriminate H].
    bindOk H. destruct x as [[x1 x2] v].
    unfold idxVal in Hi. rewrite Hi in Hx. cbn [bind] in Hx.
    bindOk Hx. bindOk Hx. bindOk Hx.
    bindOk H. inversion H; subst st'; clear H.
    cbn [ms_index1]. split.
    + now rewrite idxVal_default.
    + intros _. reflexivity.
  - inversion H; subst st'. split; [exact Hi|discriminate].
Qed.

Lemma powerMultiSteps_range sel lib cell i l : forall st st',
  idxVal (ms_index1 st) = Ok i ->
  foldRes (powerMultiStep sel lib cell) l st = Ok st' ->
  idxVal (ms_index1 st') = Ok i
  /\ Forall (fun a => powerMatches sel a = true -> hasPowerRow sel i a = true)
            l.
Proof.
  induction l as [|a l IH]; intros st st' Hi H; cbn [foldRes] in H.
  - inversion H; subst st'. now split.
  - bindOk H. destruct (powerMultiStep_range _ _ _ _ _ _ _ Hi Hx) as [Hi' Ha].
    destruct (IH _ _ Hi' H) as [Hi'' Hl]. split; [exact Hi''|].
    now constructor.
Qed.

Lemma powerMultiCells_range spec sel i cells : forall st st',
  idxVal (ms_index1 st) = Ok i ->
  foldRes (powerMultiCell spec sel) cells st = Ok st' ->
  Forall
    (fun cell =>
       exists cs c l,
         dict_get (fst (fst cell)) spec = Some cs
         /\ dict_get (snd (fst cell)) cs = Some c
         /\ pinInternalPowerList c (pyStrip (ip_bundle sel))
              (pyStrip (ip_bus sel)) (pyStrip (ip_pin sel)) = Ok l
         /\ Forall (fun a => powerMatches sel a = true
                             -> hasPowerRow sel i a = true) l)
    cells.
Proof.
  induction cells as [|[[lib name] tc] cells IH]; intros st st' Hi H;
    [constructor|].
  cbn [foldRes] in H. bindOk H. unfold powerMultiCell in Hx.
  bindOk Hx. bindOk Hx. bindOk Hx.
  match goal with
  | E1 : dict_at lib spec = Ok ?cs, E2 : dict_at name ?cs = Ok ?c,
    E3 : pinInternalPowerList ?c _ _ _ = Ok ?l |- _ =>
      apply dict_at_Ok in E1; apply dict_at_Ok in E2;
      destruct (powerMultiSteps_range _ _ _ _ _ _ _ Hi Hx) as [Hi' Hl];
      constructor;
      [exists cs, c, l; cbn [fst snd]; now repeat split
      |exact (IH _ _ Hi' H)]
  end.
Qed.

(** The position of the comparison exists in every internal-power table
    compared.  When the internal-power table of a comparison is
    returned, every entry of every compared cell that has the chosen
    discriminators has the chosen table type, and its table has the row
    the first index box stands for (row 0 for an empty box): a table of
    one row, as a table over one variable is, is compared at position 0
    only. *)
Theorem updateInternalPowerTabTable_comparison_in_range
  s sel i rows ys lib cell tc cells c l a :
  idxVal (IndexText (pyStrip (ip_index_1 sel))) = Ok i ->
  updateInternalPowerTabTable s sel = Ok (Comparison rows ys) ->
  In (lib, cell, tc) (allCells (internalPowerTabDic s)) ->
  dict_get lib (specifiedLibDic s) = Some cells ->
  dict_get cell cells = Some c ->
  pinInternalPowerList c (pyStrip (ip_bundle sel)) (pyStrip (ip_bus sel))
    (pyStrip (ip_pin sel)) = Ok l ->
  In a l ->
  powerMatches sel a = true ->
  hasPowerRow sel i a = true.
Proof.
  intros Hi H Hcell Hcs Hc Hl Ha Hm. unfold updateInternalPowerTabTable in H.
  destruct (powerMultiOrSingle s); [|discriminate H].
  destruct (specifiedCellCount s =? 1)%Z.
  { repeat (bindOk H). discriminate H. }
  destruct (internalPowerTabMultiEnable s); [|discriminate H].
  bindOk H.
  apply (powerMultiCells_range _ _ i) in Hx; [|exact Hi]. rename Hx into HF.
  rewrite Forall_forall in HF. specialize (HF _ Hcell).
  destruct HF as (cs' & c' & l' & E1 & E2 & E3 & HF).
  cbn [fst snd] in *.
  rewrite Hcs in E1. inversion E1; subst cs'.
  rewrite Hc in E2. inversion E2; subst c'.
  rewrite Hl in E3. inversion E3; subst l'.
  rewrite Forall_forall in HF. now apply HF.
Qed.

Lemma updateInternalPowerTabTable_comparison_in_range_witness :
  hasPowerRow (powerSel "1" "") 1 (flatArc InternalPower powerArc) = true.
Proof.
  eapply (updateInternalPowerTabTable_comparison_in_range
            powerPair (powerSel "1" "") 1 _ _ "power.lib" "BUFY").
  - vm_compute. reflexivity.
  - vm_compute. reflexivity.
  - vm_compute. right. left. reflexivity.
  - vm_compute. reflexivity.
  - vm_compute. reflexivity.
  - vm_compute. reflexivity.
  - left. reflexivity.
  - vm_compute. reflexivity.
Defined.
